(** * Fingerprint-Recognition: orientation field, ridge frequency, feature vectors

    A shallow embedding of [src/helper.py] and [src/features.py].

    Numbers.  The program computes with NumPy [float64] values.  They are
    modelled here by the real numbers [R] of the Standard Library: rounding is
    not modelled, so every statement below is about the exact-arithmetic
    reading of the code.  The places where the code can produce a value
    that is not a number (a division by zero inside
    [rotatedRectWithMaxArea] and inside the normalizations, the root of a
    negative number) are modelled with the type [npfloat].

    Arrays.  A two-dimensional NumPy array is a shape and a cell function.

    Errors.  Python exceptions are the [Raise] results of the type [result].

    Library routines.  [cv2.GaussianBlur], [cv2.Sobel],
    [scipy.ndimage.rotate] and [scipy.signal.find_peaks_cwt] are section
    variables of the functions that call them, and so are [helper.dki] and
    [helper.dfi], which [features.py] calls and [helper.py] does not define.
    The contents of a fresh [np.empty] array are a variable as well. *)

From Stdlib Require Import Reals Lra Lia ZArith List Bool Arith.
Import ListNotations.

Open Scope R_scope.

(** ** Exceptions *)

Inductive exn : Type :=
| ZeroDivisionError
| IndexError
| ValueError.

Inductive result (A : Type) : Type :=
| Ok (a : A)
| Raise (e : exn).

Arguments Ok {A} a.
Arguments Raise {A} e.

Definition bind {A B : Type} (m : result A) (k : A -> result B) : result B :=
  match m with
  | Ok a => k a
  | Raise e => Raise e
  end.

Notation "x <- m ;; k" := (bind m (fun x => k))
  (at level 61, m at next level, right associativity).

(** ** Python integers and NumPy scalars *)

Module Py.

(** [range(n)] *)
Definition range (n : nat) : list nat := seq 0 n.

(** [a // b] on non-negative integers. *)
Definition floordiv (a b : nat) : result nat :=
  if Nat.eqb b 0 then Raise ZeroDivisionError else Ok (a / b)%nat.

(** A [float64] that is either a real number or not finite ([inf], [nan]). *)
Inductive npfloat : Type :=
| Finite (r : R)
| NonFinite.

(** NumPy scalar division: dividing by zero gives [inf] or [nan] (with a
    warning), it does not raise. *)
Definition np_div (a b : R) : npfloat :=
  if Req_dec_T b 0 then NonFinite else Finite (a / b).

(** Truncation of a real towards zero. *)
Definition trunc (r : R) : Z :=
  if Rle_dec 0 r then Int_part r else (- Int_part (- r))%Z.

(** [int(x)] on a NumPy scalar: truncation towards zero; [int(nan)] raises
    [ValueError] and [int(inf)] raises [OverflowError] (both are [ValueError]
    here). *)
Definition int (x : npfloat) : result Z :=
  match x with
  | Finite r => Ok (trunc r)
  | NonFinite => Raise ValueError
  end.

(** One bound of a slice [a[start:stop]] on an axis of length [len]: a
    negative bound counts from the end, and every bound is clipped to the
    axis. *)
Definition slice_index (len i : Z) : Z :=
  if (i <? 0)%Z then Z.max (i + len) 0 else Z.min i len.

(** Offset and length of [a[start:stop]]. *)
Definition slice_bounds (len : nat) (start stop : Z) : nat * nat :=
  let a := slice_index (Z.of_nat len) start in
  let b := slice_index (Z.of_nat len) stop in
  (Z.to_nat a, Z.to_nat (b - a)).

(** Position of index [i] on an axis of length [len] ([a[i]] with a negative
    [i] counts from the end); [IndexError] outside. *)
Definition index (len : nat) (i : Z) : result nat :=
  let n := Z.of_nat len in
  if (i <? - n)%Z then Raise IndexError
  else if (i <? 0)%Z then Ok (Z.to_nat (i + n))
  else if (i <? n)%Z then Ok (Z.to_nat i)
  else Raise IndexError.

(** [range(0, stop, step)] for a step that is not negative; Python refuses
    a zero step. *)
Definition range_step (stop step : nat) : result (list nat) :=
  if Nat.eqb step 0 then Raise ValueError
  else Ok (map (fun k => (k * step)%nat)
               (range ((stop + step - 1) / step))).

End Py.

(** ** NumPy arrays *)

Module Np.

Record ndarray : Type := mk_ndarray {
  nrows : nat;
  ncols : nat;
  get : nat -> nat -> R
}.

(** [a.shape] *)
Definition shape (a : ndarray) : nat * nat := (nrows a, ncols a).

(** [a.size] *)
Definition size (a : ndarray) : nat := (nrows a * ncols a)%nat.

(** [np.full((n, m), v)] *)
Definition full (n m : nat) (v : R) : ndarray :=
  {| nrows := n; ncols := m; get := fun _ _ => v |}.

(** [np.empty((n, m))]: the cells hold whatever the memory held, [junk]. *)
Definition empty (junk : nat -> nat -> R) (n m : nat) : ndarray :=
  {| nrows := n; ncols := m; get := junk |}.

(** [a[i, j] = v] *)
Definition set (a : ndarray) (i j : nat) (v : R) : ndarray :=
  {| nrows := nrows a; ncols := ncols a;
     get := fun r c => if Nat.eqb r i && Nat.eqb c j then v else get a r c |}.

(** [a[r0:r1, c0:c1] = v] for bounds inside the array or beyond its end
    (a slice is clipped to the array). *)
Definition set_block (a : ndarray) (r0 r1 c0 c1 : nat) (v : R) : ndarray :=
  {| nrows := nrows a; ncols := ncols a;
     get := fun r c =>
       if Nat.leb r0 r && Nat.ltb r r1 && Nat.leb c0 c && Nat.ltb c c1
       then v else get a r c |}.

(** [a[r0:r1, c0:c1]] *)
Definition slice (a : ndarray) (r0 r1 c0 c1 : Z) : ndarray :=
  let '(ro, rn) := Py.slice_bounds (nrows a) r0 r1 in
  let '(co, cn) := Py.slice_bounds (ncols a) c0 c1 in
  {| nrows := rn; ncols := cn;
     get := fun i j => get a (ro + i)%nat (co + j)%nat |}.

(** [a[i, j]] for integers [i], [j] given by the caller. *)
Definition getitem (a : ndarray) (i j : Z) : result R :=
  r <- Py.index (nrows a) i ;;
  c <- Py.index (ncols a) j ;;
  Ok (get a r c).

(** Index of the source cell of [np.pad(a, k, mode="edge")] along one axis
    of length [len]. *)
Definition edge (len k i : nat) : nat := Nat.min (i - k) (len - 1).

(** [np.pad(a, k, mode="edge")]; NumPy refuses to extend an empty axis. *)
Definition pad_edge (a : ndarray) (k : nat) : result ndarray :=
  if Nat.eqb (nrows a) 0 || Nat.eqb (ncols a) 0 then Raise ValueError
  else Ok {| nrows := nrows a + 2 * k; ncols := ncols a + 2 * k;
             get := fun i j => get a (edge (nrows a) k i) (edge (ncols a) k j) |}.

(** The cells of an array in row-major order. *)
Definition ravel (a : ndarray) : list R :=
  flat_map (fun i => map (fun j => get a i j) (Py.range (ncols a)))
           (Py.range (nrows a)).

Definition sum (l : list R) : R := fold_right Rplus 0 l.

(** [np.mean] of a non-empty list of values. *)
Definition mean (l : list R) : R := sum l / INR (length l).

(** [np.sum(a, (0,))]: the sum of every column. *)
Definition sum_axis0 (a : ndarray) : list R :=
  map (fun j => sum (map (fun i => get a i j) (Py.range (nrows a))))
      (Py.range (ncols a)).

(** [np.min] and [np.max] of a one-dimensional array; both raise on an empty
    one. *)
Definition min (l : list R) : result R :=
  match l with
  | [] => Raise ValueError
  | x :: t => Ok (fold_left Rmin t x)
  end.

Definition max (l : list R) : result R :=
  match l with
  | [] => Raise ValueError
  | x :: t => Ok (fold_left Rmax t x)
  end.

(** [np.arctan2(y, x)] *)
Definition arctan2 (y x : R) : R :=
  if Rlt_dec 0 x then atan (y / x)
  else if Rlt_dec x 0 then
    (if Rle_dec 0 y then atan (y / x) + PI else atan (y / x) - PI)
  else if Rlt_dec 0 y then PI / 2
  else if Rlt_dec y 0 then - (PI / 2)
  else 0.

(** [x % m] on floats, for a positive [m]. *)
Definition fmod (x m : R) : R := x - IZR (Int_part (x / m)) * m.

(** [np.degrees] *)
Definition degrees (x : R) : R := x * 180 / PI.

(** [a[r0:r1, c0:c1] = b] for a [b] of the shape of the slice, with bounds
    inside the array or beyond its end. *)
Definition set_slice (a : ndarray) (r0 r1 c0 c1 : nat) (b : ndarray) : ndarray :=
  {| nrows := nrows a; ncols := ncols a;
     get := fun r c =>
       if Nat.leb r0 r && Nat.ltb r r1 && Nat.leb c0 c && Nat.ltb c c1
       then get b (r - r0) (c - c0) else get a r c |}.

(** An operation of NumPy applied to every cell. *)
Definition map_cells (f : R -> R) (a : ndarray) : ndarray :=
  {| nrows := nrows a; ncols := ncols a; get := fun i j => f (get a i j) |}.

(** [np.std]: the square root of the mean squared deviation from the mean. *)
Definition std (l : list R) : R :=
  sqrt (mean (map (fun v => (v - mean l) * (v - mean l)) l)).

(** An array whose cells may be non-finite. *)
Record fndarray : Type := mk_fndarray {
  fnrows : nat;
  fncols : nat;
  fget : nat -> nat -> Py.npfloat
}.

(** [a.shape], [a[r0:r1, c0:c1]] and the cells in row-major order, as for
    [ndarray]. *)
Definition fshape (a : fndarray) : nat * nat := (fnrows a, fncols a).

Definition fslice (a : fndarray) (r0 r1 c0 c1 : Z) : fndarray :=
  let '(ro, rn) := Py.slice_bounds (fnrows a) r0 r1 in
  let '(co, cn) := Py.slice_bounds (fncols a) c0 c1 in
  {| fnrows := rn; fncols := cn;
     fget := fun i j => fget a (ro + i)%nat (co + j)%nat |}.

Definition fravel (a : fndarray) : list Py.npfloat :=
  flat_map (fun i => map (fun j => fget a i j) (Py.range (fncols a)))
           (Py.range (fnrows a)).

(** The values of a list of cells when all of them are finite. *)
Fixpoint finite_values (l : list Py.npfloat) : option (list R) :=
  match l with
  | [] => Some []
  | Py.Finite r :: t => option_map (cons r) (finite_values t)
  | Py.NonFinite :: _ => None
  end.

(** [np.std] on cells that may be non-finite: one such cell makes the
    result [nan]. *)
Definition fstd (l : list Py.npfloat) : Py.npfloat :=
  match finite_values l with
  | Some vs => Py.Finite (std vs)
  | None => Py.NonFinite
  end.

(** [s < t] for a standard deviation [s]: a comparison with [nan] is
    false. *)
Definition std_lt (s : Py.npfloat) (t : R) : bool :=
  match s with
  | Py.Finite r => if Rlt_dec r t then true else false
  | Py.NonFinite => false
  end.



End Np.

Import Np.

(** ** helper.py: rotatedRectWithMaxArea *)

Section RotatedWindow.

(** [scipy.ndimage.rotate(image, degrees, reshape=False)]: a spline
    interpolation of the rotated block on a canvas of the same shape; only
    its cell values are left open. *)
Variable rotate_cells : ndarray -> R -> nat -> nat -> R.

Definition ndimage_rotate (image : ndarray) (deg : R) : ndarray :=
  {| nrows := nrows image; ncols := ncols image;
     get := rotate_cells image deg |}.

(** Lines 169-185: the width and height [(wr, hr)] of the crop. *)
Definition crop_dims (h w : Z) (angle : R) : Py.npfloat * Py.npfloat :=
  let width_is_longer := (h <=? w)%Z in
  let '(side_long, side_short) := if width_is_longer then (w, h) else (h, w) in
  let sin_a := Rabs (sin angle) in
  let cos_a := Rabs (cos angle) in
  if Rle_dec (IZR side_short) (2 * sin_a * cos_a * IZR side_long) then
    let x := (1 / 2) * IZR side_short in
    if width_is_longer
    then (Py.np_div x sin_a, Py.np_div x cos_a)
    else (Py.np_div x cos_a, Py.np_div x sin_a)
  else
    let cos_2a := cos_a * cos_a - sin_a * sin_a in
    (Py.np_div (IZR w * cos_a - IZR h * sin_a) cos_2a,
     Py.np_div (IZR h * cos_a - IZR w * sin_a) cos_2a).

Definition rotatedRectWithMaxArea (image : ndarray) (angle : R)
  : result ndarray :=
  let h := Z.of_nat (nrows image) in
  let w := Z.of_nat (ncols image) in
  let '(wr, hr) := crop_dims h w angle in
  let image := ndimage_rotate image (degrees angle) in
  hr <- Py.int hr ;;
  wr <- Py.int wr ;;
  let y := ((h - hr) / 2)%Z in
  let x := ((w - wr) / 2)%Z in
  Ok (slice image y (y + hr) x (x + wr)).

End RotatedWindow.

(** ** Loops *)

(** [for i in l: s = body(i, s)], where the body may raise. *)
Fixpoint for_each {S : Type} (l : list nat) (body : nat -> S -> result S)
  (s : S) : result S :=
  match l with
  | [] => Ok s
  | i :: t => s' <- body i s ;; for_each t body s'
  end.

(** ** helper.py: normalize *)

(** [normalize] on the one-dimensional array it is called with in
    [getFrequencies]. *)
Definition normalize (image : list R) : result (list R) :=
  mn <- Np.min image ;;
  let image := map (fun v => v - mn) image in
  m <- Np.max image ;;
  if Rlt_dec 0 m
  then Ok (map (fun v => v * (1 / m)) image)
  else Ok image.

(** ** helper.py: getOrientations *)

Section Orientations.

(** Contents of a fresh [np.empty] array. *)
Variable junk : nat -> nat -> R.

(** Cell values of [cv2.GaussianBlur(image, (3, 3), 0)] and of
    [cv2.Sobel(image, cv2.CV_64F, dx, dy, ksize=3)]; both keep the shape. *)
Variable GaussianBlur_cells : ndarray -> nat -> nat -> R.
Variable Sobel_cells : ndarray -> nat -> nat -> nat -> nat -> R.

Definition GaussianBlur (image : ndarray) : ndarray :=
  {| nrows := nrows image; ncols := ncols image;
     get := GaussianBlur_cells image |}.

Definition Sobel (image : ndarray) (dx dy : nat) : ndarray :=
  {| nrows := nrows image; ncols := ncols image;
     get := Sobel_cells image dx dy |}.

(** Lines 132-136: [(denominator, numerator)] of block [(i, j)]. *)
Definition block_sums (gx gy : ndarray) (w i j : nat) : R * R :=
  fold_left
    (fun acc v =>
       fold_left
         (fun '(denominator, numerator) u =>
            let numerator :=
              numerator
              + 2 * get gx (i * w + v)%nat (j * w + u)%nat
                  * get gy (i * w + v)%nat (j * w + u)%nat in
            let denominator :=
              denominator
              + ((get gx (i * w + v)%nat (j * w + u)%nat) ^ 2
                 - (get gy (i * w + v)%nat (j * w + u)%nat) ^ 2) in
            (denominator, numerator))
         (Py.range w) acc)
    (Py.range w) (0, 0).

(** Lines 130-138: the block angles before the rotation. *)
Definition block_angles (gx gy : ndarray) (w xblocks yblocks : nat) : ndarray :=
  fold_left
    (fun orien i =>
       fold_left
         (fun orien j =>
            let '(denominator, numerator) := block_sums gx gy w i j in
            Np.set orien i j (arctan2 numerator denominator / 2))
         (Py.range yblocks) orien)
    (Py.range xblocks) (Np.empty junk xblocks yblocks).

(** Line 141: [(orien + np.pi/2) % np.pi] *)
Definition rotate90 (orien : ndarray) : ndarray :=
  {| nrows := nrows orien; ncols := ncols orien;
     get := fun i j => fmod (get orien i j + PI / 2) PI |}.

(** Lines 153-157: the smoothed angle of a neighbourhood. *)
Definition smooth (surrounding : ndarray) : R :=
  let cos_angles := map (fun a => cos (2 * a)) (ravel surrounding) in
  let sin_angles := map (fun a => sin (2 * a)) (ravel surrounding) in
  let cos_angles := mean cos_angles in
  let sin_angles := mean sin_angles in
  arctan2 sin_angles cos_angles / 2.

(** Lines 150-157: [orien] is the padded grid. *)
Definition smooth_angles (orien : ndarray) (xblocks yblocks : nat) : ndarray :=
  fold_left
    (fun orientation x =>
       fold_left
         (fun orientation y =>
            let surrounding :=
              slice orien (Z.of_nat x) (Z.of_nat x + 3)
                          (Z.of_nat y) (Z.of_nat y + 3) in
            Np.set orientation x y (smooth surrounding))
         (Py.range yblocks) orientation)
    (Py.range xblocks) (Np.empty junk xblocks yblocks).

(** Lines 159-161 and 238-245 share this shape: every block of the dense
    field receives the value of its grid cell. *)
Definition tile (field : ndarray) (value : nat -> nat -> R)
  (w xblocks yblocks : nat) : ndarray :=
  fold_left
    (fun field y =>
       fold_left
         (fun field x =>
            set_block field (y * w) ((y + 1) * w) (x * w) ((x + 1) * w)
                      (value y x))
         (Py.range yblocks) field)
    (Py.range xblocks) field.

Definition getOrientations (image : ndarray) (w : nat) : result ndarray :=
  let '(height, width) := shape image in
  let image := GaussianBlur image in
  let gx := Sobel image 1 0 in
  let gy := Sobel image 0 1 in
  xblocks <- Py.floordiv height w ;;
  yblocks <- Py.floordiv width w ;;
  let orien := block_angles gx gy w xblocks yblocks in
  let orien := rotate90 orien in
  let orientations := full (nrows image) (ncols image) (-1) in
  orien <- pad_edge orien 1 ;;
  let orientation := smooth_angles orien xblocks yblocks in
  Ok (tile orientations (get orientation) w xblocks yblocks).

End Orientations.

(** ** helper.py: getFrequencies *)

Section Frequencies.

Variable junk : nat -> nat -> R.
Variable rotate_cells : ndarray -> R -> nat -> nat -> R.

(** [scipy.signal.find_peaks_cwt(columns, np.array([3]))]: the indices of
    the peaks. *)
Variable find_peaks_cwt : list R -> list Z.

(** Lines 230-234: the value stored for a list of at least two peaks. *)
Definition spacing (peaks : list Z) : R :=
  IZR (last peaks 0%Z - hd 0%Z peaks) / INR (length peaks - 1).

(** Lines 213-234: the value stored in [F[x, y]]. *)
Definition local_frequency (image orientations : ndarray) (w x y : nat)
  : result R :=
  orientation <- getitem orientations (Z.of_nat (x * w + w / 2))
                                      (Z.of_nat (y * w + w / 2)) ;;
  let block := slice image (Z.of_nat (x * w)) (Z.of_nat ((x + 1) * w))
                           (Z.of_nat (y * w)) (Z.of_nat ((y + 1) * w)) in
  window <- rotatedRectWithMaxArea rotate_cells block (PI / 2 + orientation) ;;
  if Nat.eqb (size window) 0 then Ok (-1)
  else
    let columns := sum_axis0 window in
    columns <- normalize columns ;;
    let peaks := find_peaks_cwt columns in
    if Nat.ltb (length peaks) 2 then Ok (-1)
    else
      let f := spacing peaks in
      if Rlt_dec f 5 then Ok (-1)
      else if Rlt_dec 15 f then Ok (-1)
      else Ok (1 / f).

(** Lines 210-234: the grid of local estimates. *)
Definition local_frequencies (image orientations : ndarray)
  (w xblocks yblocks : nat) : result ndarray :=
  for_each (Py.range xblocks)
    (fun x F =>
       for_each (Py.range yblocks)
         (fun y F =>
            v <- local_frequency image orientations w x y ;;
            Ok (Np.set F x y v))
         F)
    (Np.empty junk xblocks yblocks).

(** Lines 240-245: the value tiled over block [(x, y)]; [F] is the padded
    grid. *)
Definition neighbourhood (F : ndarray) (x y : nat) : list R :=
  ravel (slice F (Z.of_nat x) (Z.of_nat x + 7) (Z.of_nat y) (Z.of_nat y + 7)).

Definition valid (surrounding : list R) : list R :=
  filter (fun v => if Rle_dec 0 v then true else false) surrounding.

Definition smoothed_frequency (F : ndarray) (x y : nat) : R :=
  let surrounding := neighbourhood F x y in
  let surrounding := valid surrounding in
  if Nat.eqb (length surrounding) 0 then -1 else mean surrounding.

Definition getFrequencies (image orientations : ndarray) (w : nat)
  : result ndarray :=
  let '(height, width) := shape image in
  xblocks <- Py.floordiv height w ;;
  yblocks <- Py.floordiv width w ;;
  F <- local_frequencies image orientations w xblocks yblocks ;;
  let frequencies := full height width (-1) in
  F <- pad_edge F 3 ;;
  Ok (tile frequencies (smoothed_frequency F) w xblocks yblocks).

End Frequencies.

(** ** features.py *)

(** A two-element coordinate array [np.array([x, y])]. *)
Definition point : Type := (R * R)%type.

(** [p - q] on coordinate arrays. *)
Definition point_sub (p q : point) : point := (fst p - fst q, snd p - snd q).

(** [v.astype(int)] on a coordinate. *)
Definition astype_int (v : R) : Z := Py.trunc v.

(** [int(t == 1)] *)
Definition is_one (t : R) : R := if Req_dec_T t 1 then 1 else 0.

(** An element of [fincoords]: [(point[0], point[1], point[2])]. *)
Record minutia : Type := mk_minutia {
  m_x : R;
  m_y : R;
  m_type : R
}.

(** An element of [vector]: [ridgecount[0]] ... [ridgecount[5]]. *)
Record ridgecount : Type := mk_ridgecount {
  rc_ki : point;
  rc_typei : R;
  rc_nki : R;
  rc_kj : point;
  rc_typej : R;
  rc_nkj : R
}.

(** The attributes [FeatureBase.__init__] sets. *)
Record FeatureBase : Type := mk_FeatureBase {
  fb_point : point;
  fb_orientations : ndarray;
  fb_theta : R;
  fb_type : R
}.

(** [vector[i]] on a Python list. *)
Definition list_getitem {A : Type} (l : list A) (i : nat) : result A :=
  match nth_error l i with
  | Some a => Ok a
  | None => Raise IndexError
  end.

Section Features.

(** [helper.dki] and [helper.dfi] are called by [features.py] and are not
    defined in [helper.py]: they are left open. *)
Variable helper_dki : point -> point -> R.
Variable helper_dfi : R -> R -> R.

Definition FeatureBase_init (p : point) (type : R) (orientations : ndarray)
  : result FeatureBase :=
  theta <- getitem orientations (astype_int (fst p)) (astype_int (snd p)) ;;
  Ok {| fb_point := p; fb_orientations := orientations;
        fb_theta := theta; fb_type := is_one type |}.

(** The returned tuple, as the list of its fields.  The attributes the
    method stores on [self] are the fields it returns. *)
Definition make_feature_vector (self : FeatureBase) (rc : ridgecount)
  : result (list R) :=
  let ki := rc_ki rc in
  let kj := rc_kj rc in
  itheta <- getitem (fb_orientations self)
                    (astype_int (fst ki)) (astype_int (snd ki)) ;;
  jtheta <- getitem (fb_orientations self)
                    (astype_int (fst kj)) (astype_int (snd kj)) ;;
  let dki := helper_dki (fb_point self) ki in
  let dkj := helper_dki (fb_point self) kj in
  let diff_ki := point_sub (fb_point self) ki in
  let diff_kj := point_sub (fb_point self) kj in
  let fiki := helper_dfi (arctan2 (snd diff_ki) (fst diff_ki)) (fb_theta self) in
  let fikj := helper_dfi (arctan2 (snd diff_kj) (fst diff_kj)) (fb_theta self) in
  let phiki := helper_dfi (fb_theta self) itheta in
  let phikj := helper_dfi (fb_theta self) jtheta in
  let nki := rc_nki rc in
  let nkj := rc_nkj rc in
  let typei := is_one (rc_typei rc) in
  let typej := is_one (rc_typej rc) in
  Ok [dki; dkj; fiki; fikj; phiki; phikj; nki; nkj; fb_type self; typei; typej].

(** The loop of [get_features]; [i] is the index [enumerate] has reached. *)
Fixpoint get_features_from (i : nat) (fincoords : list minutia)
  (vector : list ridgecount) (orientations : ndarray)
  (features : list (list R)) : result (list (list R)) :=
  match fincoords with
  | [] => Ok features
  | p :: rest =>
      feature <- FeatureBase_init (m_x p, m_y p) (m_type p) orientations ;;
      rc <- list_getitem vector i ;;
      vec <- make_feature_vector feature rc ;;
      get_features_from (Datatypes.S i) rest vector orientations
                        (features ++ [vec])
  end.

Definition get_features (fincoords : list minutia) (vector : list ridgecount)
  (orientations : ndarray) : result (list (list R)) :=
  get_features_from 0 fincoords vector orientations [].

End Features.

Module Helper.

(** Modelled from the spec: [helper.dki], which [features.py] calls and
    [helper.py] does not define; the spec gives it as the Euclidean distance
    between the two points. *)
Definition dki (p q : point) : R :=
  sqrt ((fst p - fst q) ^ 2 + (snd p - snd q) ^ 2).

End Helper.

(** ** OpenCV's documented filters, for evaluating the code on a concrete image

    [cv2.GaussianBlur(image, (3, 3), 0)] and [cv2.Sobel(..., ksize=3)] are
    separable 3-tap filters with the default border [BORDER_REFLECT_101]:
    the kernel of the blur is [1/4, 1/2, 1/4]; the Sobel kernels are
    [1, 2, 1] (order 0), [-1, 0, 1] (order 1) and [1, -2, 1] (order 2). *)

Module Cv2.

(** [BORDER_REFLECT_101] for a tap one cell outside an axis of length [len]. *)
Definition reflect101 (len : nat) (i : Z) : nat :=
  if Nat.eqb len 1 then 0%nat
  else if (i <? 0)%Z then Z.to_nat (- i)
  else if (Z.of_nat len <=? i)%Z then Z.to_nat (2 * Z.of_nat len - 2 - i)
  else Z.to_nat i.

Definition taps (k : list R) : list (Z * R) := combine [-1; 0; 1]%Z k.

(** A separable filter: [ky] runs down the rows, [kx] along the columns. *)
Definition sepFilter2D (ky kx : list R) (a : ndarray) (r c : nat) : R :=
  Np.sum
    (map (fun '(i, wi) =>
       Np.sum
         (map (fun '(j, wj) =>
            wi * wj * get a (reflect101 (nrows a) (Z.of_nat r + i))
                            (reflect101 (ncols a) (Z.of_nat c + j)))
            (taps kx)))
       (taps ky)).

Definition gaussian_kernel : list R := [1 / 4; 1 / 2; 1 / 4].

Definition sobel_kernel (order : nat) : list R :=
  match order with
  | O => [1; 2; 1]
  | Datatypes.S O => [-1; 0; 1]
  | _ => [1; -2; 1]
  end.

Definition GaussianBlur_cells (image : ndarray) : nat -> nat -> R :=
  sepFilter2D gaussian_kernel gaussian_kernel image.

Definition Sobel_cells (image : ndarray) (dx dy : nat) : nat -> nat -> R :=
  sepFilter2D (sobel_kernel dy) (sobel_kernel dx) image.

End Cv2.

(** ** helper.py: the normalizations, maskify, localNormalize and binarize *)

(** The loop nest shared by [maskify], [localNormalize] and [binarize]:
<<
    for y in range(0, height, w):
        for x in range(0, width, w):
            s = body(y, x, s)
>> *)
Definition for_blocks {S : Type} (height width w : nat)
  (body : nat -> nat -> S -> result S) (s : S) : result S :=
  ys <- Py.range_step height w ;;
  for_each ys
    (fun y s =>
       xs <- Py.range_step width w ;;
       for_each xs (fun x s => body y x s) s)
    s.

(** [image[y:y+w, x:x+w]] *)
Definition block_at (image : ndarray) (w y x : nat) : ndarray :=
  slice image (Z.of_nat y) (Z.of_nat (y + w)) (Z.of_nat x) (Z.of_nat (x + w)).

(** Lines 9-18. *)
Definition standard_normalization (image : ndarray) : fndarray :=
  let mean := Np.mean (ravel image) in
  let std := Np.std (ravel image) in
  {| fnrows := nrows image; fncols := ncols image;
     fget := fun i j => Py.np_div (get image i j - mean) std |}.

Section Mask.

(** Contents of the fresh [np.empty] array. *)
Variable junk : nat -> nat -> R.

(** Lines 20-43. *)
Definition maskify (image : ndarray) (threshold : R) (w : nat)
  : result ndarray :=
  let image := standard_normalization image in
  let mask := Np.empty junk (fnrows image) (fncols image) in
  let '(height, width) := fshape image in
  for_blocks height width w
    (fun y x mask =>
       let block := fslice image (Z.of_nat y) (Z.of_nat (y + w))
                                 (Z.of_nat x) (Z.of_nat (x + w)) in
       let standardDeviation := fstd (fravel block) in
       if std_lt standardDeviation threshold
       then Ok (set_block mask y (y + w) x (x + w) 0)
       else if negb (Nat.eqb (fnrows block) w && Nat.eqb (fncols block) w)
       then Ok (set_block mask y (y + w) x (x + w) 0)
       else Ok (set_block mask y (y + w) x (x + w) 1))
    mask.

End Mask.

(** Lines 45-55 on a two-dimensional array, as [localNormalize] calls it. *)
Definition normalize_2d (image : ndarray) : result ndarray :=
  mn <- Np.min (ravel image) ;;
  let image := map_cells (fun v => v - mn) image in
  m <- Np.max (ravel image) ;;
  if Rlt_dec 0 m
  then Ok (map_cells (fun v => v * (1 / m)) image)
  else Ok image.

(** Lines 57-67. *)
Definition localNormalize (image : ndarray) (w : nat) : result ndarray :=
  let '(height, width) := shape image in
  for_blocks height width w
    (fun y x image =>
       block <- normalize_2d (block_at image w y x) ;;
       Ok (set_slice image y (y + w) x (x + w) block))
    image.



(** [np.where(block >= threshold, 1.0, 0.0)] *)
Definition where_ge (block : ndarray) (threshold : R) : ndarray :=
  map_cells (fun v => if Rle_dec threshold v then 1 else 0) block.

(** Lines 92-102. *)
Definition binarize (image : ndarray) (w : nat) : result ndarray :=
  let '(height, width) := shape image in
  for_blocks height width w
    (fun y x image =>
       let block := block_at image w y x in
       let threshold := mean (ravel block) in
       Ok (set_slice image y (y + w) x (x + w) (where_ge block threshold)))
    image.

(** ** Notions used in the statements *)

(** [crop] is the [hr]-by-[wr] rectangle centred in [canvas]. *)
Definition centred_rectangle (canvas crop : ndarray) (wr hr : Z) : Prop :=
  nrows crop = Z.to_nat hr /\
  ncols crop = Z.to_nat wr /\
  forall i j : nat,
    get crop i j =
    get canvas (Z.to_nat ((Z.of_nat (nrows canvas) - hr) / 2) + i)%nat
               (Z.to_nat ((Z.of_nat (ncols canvas) - wr) / 2) + j)%nat.

(** The loop nest [for i in range(n): for j in range(m): a[i, j] = f(i, j)]. *)
Definition fill (a : ndarray) (f : nat -> nat -> R) (n m : nat) : ndarray :=
  fold_left
    (fun a i => fold_left (fun a j => Np.set a i j (f i j)) (Py.range m) a)
    (Py.range n) a.

(** The angle lines 132-138 store for block [(i, j)]. *)
Definition block_angle (gx gy : ndarray) (w i j : nat) : R :=
  arctan2 (snd (block_sums gx gy w i j)) (fst (block_sums gx gy w i j)) / 2.

Section FrequencyNotions.

Variable rotate_cells : ndarray -> R -> nat -> nat -> R.
Variable find_peaks_cwt : list R -> list Z.

(** Lines 213-218: the window of block [(x, y)], the block turned by
    [pi/2] plus the orientation at its centre pixel and cropped. *)
Definition window_of (image orientations : ndarray) (w x y : nat)
  : result ndarray :=
  orientation <- getitem orientations (Z.of_nat (x * w + w / 2))
                                      (Z.of_nat (y * w + w / 2)) ;;
  let block := slice image (Z.of_nat (x * w)) (Z.of_nat ((x + 1) * w))
                           (Z.of_nat (y * w)) (Z.of_nat ((y + 1) * w)) in
  rotatedRectWithMaxArea rotate_cells block (PI / 2 + orientation).

(** Lines 224-226: the peaks of the normalized column sums of a window. *)
Definition peaks_of (window : ndarray) : result (list Z) :=
  columns <- normalize (sum_axis0 window) ;;
  Ok (find_peaks_cwt columns).

(** The three reasons for the sentinel: an empty window, fewer than two
    peaks, a mean spacing below 5 or above 15. *)
Definition undeterminable (window : ndarray) : Prop :=
  size window = 0%nat \/
  exists peaks,
    peaks_of window = Ok peaks /\
    ((length peaks < 2)%nat \/ spacing peaks < 5 \/ 15 < spacing peaks).

End FrequencyNotions.

(** The 49 local estimates around block [(x, y)] of a grid [F] of
    [xblocks] by [yblocks] estimates padded by 3 with its edge values. *)
Definition neighbours (F : ndarray) (xblocks yblocks x y : nat) : list R :=
  flat_map
    (fun i => map (fun j => get F (edge xblocks 3 (x + i)) (edge yblocks 3 (y + j)))
                  (Py.range 7))
    (Py.range 7).

Definition not_sentinel (v : R) : bool :=
  if Req_dec_T v (-1) then false else true.

(** The coordinates of [p], truncated as [astype(int)] does, index inside
    the array [a] (a negative index counts from the end). *)
Definition indexes_inside (a : ndarray) (p : point) : Prop :=
  (- Z.of_nat (nrows a) <= astype_int (fst p) < Z.of_nat (nrows a))%Z /\
  (- Z.of_nat (ncols a) <= astype_int (snd p) < Z.of_nat (ncols a))%Z.

(** Lines 16-17: the vector [get_features] appends for one minutia and its
    ridge-count record. *)
Definition feature_of (helper_dki : point -> point -> R)
  (helper_dfi : R -> R -> R) (orientations : ndarray)
  (p : minutia) (rc : ridgecount) : result (list R) :=
  feature <- FeatureBase_init (m_x p, m_y p) (m_type p) orientations ;;
  make_feature_vector helper_dki helper_dfi feature rc.

(** ** A concrete image

    A 3-by-3 diagonal ramp [image[r, c] = r + c], one block of size 3, and
    its two gradient arrays. *)

Definition ramp : ndarray :=
  {| nrows := 3; ncols := 3; get := fun r c => INR (r + c) |}.

Definition ramp_gx : ndarray :=
  Sobel Cv2.Sobel_cells (GaussianBlur Cv2.GaussianBlur_cells ramp) 1 0.

Definition ramp_gy : ndarray :=
  Sobel Cv2.Sobel_cells (GaussianBlur Cv2.GaussianBlur_cells ramp) 0 1.

(** ** More notions used in the statements *)

(** Two arrays with the same shape and the same cells. *)
Definition same_cells (a b : ndarray) : Prop :=
  shape a = shape b /\
  forall r c, (r < nrows a)%nat -> (c < ncols a)%nat -> get a r c = get b r c.

(** The cells of the block of side [w] that holds pixel [(r, c)]. *)
Definition block_of (image : ndarray) (w r c : nat) : list R :=
  ravel (block_at image w (r / w * w) (c / w * w)).

(** Pixel [(r, c)] lies in block [(k, l)] of side [w]. *)
Definition in_block_of (w k l r c : nat) : bool :=
  Nat.eqb (r / w) k && Nat.eqb (c / w) l.

(** Pixel [(r, c)] lies in a block that the loop nest visits before block
    [(k, l)]. *)
Definition visited (w k l r c : nat) : bool :=
  Nat.ltb (r / w) k || (Nat.eqb (r / w) k && Nat.ltb (c / w) l).

(** A state of the loop nest before block [(k, l)]: the visited pixels hold
    [g], the other ones are as in [s0]. *)
Definition progress (height width w : nat) (s0 : ndarray) (g : nat -> nat -> R)
  (k l : nat) (s : ndarray) : Prop :=
  shape s = (height, width) /\
  forall r c, (r < height)%nat -> (c < width)%nat ->
    get s r c = if visited w k l r c then g r c else get s0 r c.

(** Outcomes of a call on two inputs: both return arrays with the same
    cells, or both raise the same exception. *)
Definition same_outcome (a b : result ndarray) : Prop :=
  match a, b with
  | Ok a, Ok b => same_cells a b
  | Raise e, Raise e' => e = e'
  | _, _ => False
  end.

(** The orientation field holds the centre pixel of every full block of the
    image. *)
Definition covered (image orientations : ndarray) (w : nat) : Prop :=
  forall x y, (x < nrows image / w)%nat -> (y < ncols image / w)%nat ->
    (x * w + w / 2 < nrows orientations)%nat /\
    (y * w + w / 2 < ncols orientations)%nat.

(** * Properties *)

(** ** Arithmetic helpers *)

Lemma Int_part_IZR (z : Z) : Int_part (IZR z) = z.
Proof. symmetry. apply Int_part_spec. lra. Qed.

Lemma trunc_IZR (z : Z) : Py.trunc (IZR z) = z.
Proof.
  unfold Py.trunc. destruct (Rle_dec 0 (IZR z)) as [H | H].
  - apply Int_part_IZR.
  - rewrite <- opp_IZR, Int_part_IZR. lia.
Qed.

Lemma trunc_nonneg (r : R) : 0 <= r -> (0 <= Py.trunc r)%Z.
Proof.
  intros H. unfold Py.trunc. destruct (Rle_dec 0 r) as [_ | N]; [ | tauto ].
  destruct (base_Int_part r) as [H1 H2].
  apply le_IZR. apply Rnot_lt_le. intros C.
  assert (IZR (Int_part r) <= -1).
  { replace (-1) with (IZR (-1)) by reflexivity. apply IZR_le.
    apply lt_IZR in C. lia. }
  lra.
Qed.

Lemma abs_sin_cos_sqr (a : R) :
  Rabs (sin a) * Rabs (sin a) + Rabs (cos a) * Rabs (cos a) = 1.
Proof.
  rewrite <- !Rabs_mult.
  rewrite !Rabs_pos_eq by (apply Rle_0_sqr).
  pose proof (sin2_cos2 a) as H. unfold Rsqr in H. exact H.
Qed.

(** ** rotatedRectWithMaxArea *)

Lemma np_div_finite (a b : R) : b <> 0 -> Py.np_div a b = Py.Finite (a / b).
Proof.
  intros H. unfold Py.np_div. destruct (Req_dec_T b 0); [ contradiction | reflexivity ].
Qed.

Lemma np_div_zero (a : R) : Py.np_div a 0 = Py.NonFinite.
Proof.
  unfold Py.np_div. destruct (Req_dec_T 0 0); [ reflexivity | congruence ].
Qed.

(** The two sides in the order the code puts them. *)
Lemma long_short_max_min (h w : Z) :
  (if (h <=? w)%Z then (w, h) else (h, w)) = (Z.max w h, Z.min w h).
Proof.
  destruct (Z.leb_spec h w); f_equal; lia.
Qed.

(** In the half-constrained branch of a block with positive sides, both
    divisors are positive. *)
Lemma half_constrained_divisors (s c long short : R) :
  0 <= s -> 0 <= c -> 0 < short -> short <= long ->
  short <= 2 * s * c * long -> 0 < s /\ 0 < c.
Proof.
  intros Hs Hc Hshort Hle Hhalf.
  assert (Hsc : 0 < s * c).
  { apply Rnot_le_lt. intros N.
    assert (2 * s * c * long <= 0) by nra. lra. }
  split; apply Rnot_le_lt; intros N; nra.
Qed.

(** A vanishing [cos_2a] puts the block in the half-constrained branch. *)
Lemma cos_2a_zero_half_constrained (s c long short : R) :
  0 <= s -> 0 <= c -> s * s + c * c = 1 -> 0 < short -> short <= long ->
  c * c - s * s = 0 -> short <= 2 * s * c * long.
Proof.
  intros Hs Hc Hone Hshort Hle Hz.
  assert (Hsc : s = c) by nra.
  subst s. assert (H2 : 2 * c * c = 1) by lra.
  replace (2 * c * c * long) with (2 * c * c * long) by ring.
  rewrite H2. lra.
Qed.

Lemma crop_dims_finite (h w : Z) (angle : R) :
  (0 < h)%Z -> (0 < w)%Z ->
  exists wr hr, crop_dims h w angle = (Py.Finite wr, Py.Finite hr).
Proof.
  intros Hh Hw. unfold crop_dims.
  rewrite long_short_max_min.
  set (s := Rabs (sin angle)). set (c := Rabs (cos angle)).
  assert (Hs : 0 <= s) by apply Rabs_pos.
  assert (Hc : 0 <= c) by apply Rabs_pos.
  assert (Hone : s * s + c * c = 1) by apply abs_sin_cos_sqr.
  assert (Hshort : 0 < IZR (Z.min w h)) by (apply IZR_lt; lia).
  assert (Hle : IZR (Z.min w h) <= IZR (Z.max w h)) by (apply IZR_le; lia).
  destruct (Rle_dec (IZR (Z.min w h)) (2 * s * c * IZR (Z.max w h))) as [Hhalf | Hfull].
  - destruct (half_constrained_divisors s c _ _ Hs Hc Hshort Hle Hhalf) as [Hs0 Hc0].
    destruct (h <=? w)%Z;
      rewrite !np_div_finite by lra; eauto.
  - assert (Hnz : c * c - s * s <> 0).
    { intros Hz. apply Hfull.
      apply cos_2a_zero_half_constrained; assumption. }
    rewrite !np_div_finite by assumption. eauto.
Qed.

(** C10: for a block with positive sides every division of the branch taken
    is defined: in the half-constrained branch [sin_a] and [cos_a] are
    positive, in the fully-constrained branch [cos_2a] is not zero (an angle
    with [cos_2a = 0] always takes the half-constrained branch), so the code
    obtains two finite crop dimensions. *)
Theorem crop_dims_divisions_defined (h w : Z) (angle : R) :
  (0 < h)%Z -> (0 < w)%Z ->
  let sin_a := Rabs (sin angle) in
  let cos_a := Rabs (cos angle) in
  let side_long := Z.max w h in
  let side_short := Z.min w h in
  let half_constrained := IZR side_short <= 2 * sin_a * cos_a * IZR side_long in
  (half_constrained -> 0 < sin_a /\ 0 < cos_a) /\
  (~ half_constrained -> cos_a * cos_a - sin_a * sin_a <> 0) /\
  (cos_a * cos_a - sin_a * sin_a = 0 -> half_constrained) /\
  (exists wr hr, crop_dims h w angle = (Py.Finite wr, Py.Finite hr)).
Proof.
  intros Hh Hw sin_a cos_a side_long side_short half_constrained.
  assert (Hs : 0 <= sin_a) by apply Rabs_pos.
  assert (Hc : 0 <= cos_a) by apply Rabs_pos.
  assert (Hone : sin_a * sin_a + cos_a * cos_a = 1) by apply abs_sin_cos_sqr.
  assert (Hshort : 0 < IZR side_short) by (apply IZR_lt; unfold side_short; lia).
  assert (Hle : IZR side_short <= IZR side_long)
    by (apply IZR_le; unfold side_short, side_long; lia).
  split; [ | split; [ | split ] ].
  - intros Hhalf.
    apply (half_constrained_divisors sin_a cos_a (IZR side_long) (IZR side_short));
      assumption.
  - intros Hfull Hz. apply Hfull.
    apply cos_2a_zero_half_constrained; assumption.
  - intros Hz. apply cos_2a_zero_half_constrained; assumption.
  - apply crop_dims_finite; assumption.
Qed.

Lemma crop_dims_witness :
  exists wr hr, crop_dims 16 16 0 = (Py.Finite wr, Py.Finite hr).
Proof.
  destruct (crop_dims_divisions_defined 16 16 0 ltac:(lia) ltac:(lia))
    as (_ & _ & _ & H).
  exact H.
Defined.

(** A centred slice of non-positive length is empty. *)
Lemma slice_bounds_empty (len : nat) (d : Z) :
  (d <= 0)%Z ->
  let y := ((Z.of_nat len - d) / 2)%Z in
  snd (Py.slice_bounds len y (y + d)) = 0%nat.
Proof.
  intros Hd y. unfold Py.slice_bounds, Py.slice_index. simpl.
  assert (Hy : (0 <= y)%Z) by (unfold y; apply Z.div_pos; lia).
  assert (Hy2 : (2 * y <= Z.of_nat len - d < 2 * y + 2)%Z).
  { unfold y. pose proof (Z.div_mod (Z.of_nat len - d) 2 ltac:(lia)).
    pose proof (Z.mod_pos_bound (Z.of_nat len - d) 2 ltac:(lia)). lia. }
  destruct (Z.ltb_spec y 0); [ lia | ].
  destruct (Z.ltb_spec (y + d) 0); lia.
Qed.

(** A centred slice that fits the axis has the requested offset and length. *)
Lemma slice_bounds_fit (len : nat) (d : Z) :
  (0 < d <= Z.of_nat len)%Z ->
  let y := ((Z.of_nat len - d) / 2)%Z in
  Py.slice_bounds len y (y + d) = (Z.to_nat y, Z.to_nat d).
Proof.
  intros Hd y. unfold Py.slice_bounds, Py.slice_index.
  assert (Hy : (0 <= y)%Z) by (unfold y; apply Z.div_pos; lia).
  assert (Hy2 : (2 * y <= Z.of_nat len - d < 2 * y + 2)%Z).
  { unfold y. pose proof (Z.div_mod (Z.of_nat len - d) 2 ltac:(lia)).
    pose proof (Z.mod_pos_bound (Z.of_nat len - d) 2 ltac:(lia)). lia. }
  destruct (Z.ltb_spec y 0); [ lia | ].
  destruct (Z.ltb_spec (y + d) 0); [ lia | ].
  f_equal; f_equal; lia.
Qed.

Lemma slice_nrows (a : ndarray) (r0 r1 c0 c1 : Z) :
  nrows (slice a r0 r1 c0 c1) = snd (Py.slice_bounds (nrows a) r0 r1).
Proof.
  unfold slice.
  destruct (Py.slice_bounds (nrows a) r0 r1), (Py.slice_bounds (ncols a) c0 c1).
  reflexivity.
Qed.

Lemma slice_ncols (a : ndarray) (r0 r1 c0 c1 : Z) :
  ncols (slice a r0 r1 c0 c1) = snd (Py.slice_bounds (ncols a) c0 c1).
Proof.
  unfold slice.
  destruct (Py.slice_bounds (nrows a) r0 r1), (Py.slice_bounds (ncols a) c0 c1).
  reflexivity.
Qed.

Lemma slice_get (a : ndarray) (r0 r1 c0 c1 : Z) (i j : nat) :
  get (slice a r0 r1 c0 c1) i j =
  get a (fst (Py.slice_bounds (nrows a) r0 r1) + i)%nat
        (fst (Py.slice_bounds (ncols a) c0 c1) + j)%nat.
Proof.
  unfold slice.
  destruct (Py.slice_bounds (nrows a) r0 r1), (Py.slice_bounds (ncols a) c0 c1).
  reflexivity.
Qed.

Section RotatedWindowProperties.

Variable rotate_cells : ndarray -> R -> nat -> nat -> R.

Lemma rotatedRectWithMaxArea_finite (image : ndarray) (angle wr hr : R) :
  crop_dims (Z.of_nat (nrows image)) (Z.of_nat (ncols image)) angle
    = (Py.Finite wr, Py.Finite hr) ->
  rotatedRectWithMaxArea rotate_cells image angle =
  Ok (let h := Z.of_nat (nrows image) in
      let w := Z.of_nat (ncols image) in
      let y := ((h - Py.trunc hr) / 2)%Z in
      let x := ((w - Py.trunc wr) / 2)%Z in
      slice (ndimage_rotate rotate_cells image (degrees angle))
            y (y + Py.trunc hr) x (x + Py.trunc wr)).
Proof.
  intros H. unfold rotatedRectWithMaxArea. rewrite H. reflexivity.
Qed.

(** A block with positive sides always yields a crop. *)
Lemma rotatedRectWithMaxArea_returns (image : ndarray) (angle : R) :
  (0 < nrows image)%nat -> (0 < ncols image)%nat ->
  exists window, rotatedRectWithMaxArea rotate_cells image angle = Ok window.
Proof.
  intros Hr Hc.
  destruct (crop_dims_finite (Z.of_nat (nrows image)) (Z.of_nat (ncols image)) angle)
    as (wr & hr & H); [ lia | lia | ].
  eexists. apply (rotatedRectWithMaxArea_finite _ _ _ _ H).
Qed.

End RotatedWindowProperties.

(** C2 (amended): the crop dimensions follow the two-regime rule; with
    finite dimensions the function returns a crop, which is the rectangle of
    the truncated dimensions centred in the rotated canvas of the same shape
    whenever these dimensions are positive and do not exceed the block's, and
    which is empty whenever one of them is not positive. *)
Theorem rotatedRectWithMaxArea_crop
  (rotate_cells : ndarray -> R -> nat -> nat -> R) (image : ndarray) (angle : R) :
  let h := Z.of_nat (nrows image) in
  let w := Z.of_nat (ncols image) in
  let sin_a := Rabs (sin angle) in
  let cos_a := Rabs (cos angle) in
  let side_long := Z.max w h in
  let side_short := Z.min w h in
  let cos_2a := cos_a * cos_a - sin_a * sin_a in
  let x := IZR side_short / 2 in
  let half_constrained := IZR side_short <= 2 * sin_a * cos_a * IZR side_long in
  let canvas := ndimage_rotate rotate_cells image (degrees angle) in
  (half_constrained ->
     crop_dims h w angle =
     if (h <=? w)%Z
     then (Py.np_div x sin_a, Py.np_div x cos_a)
     else (Py.np_div x cos_a, Py.np_div x sin_a)) /\
  (~ half_constrained ->
     crop_dims h w angle =
     (Py.np_div (IZR w * cos_a - IZR h * sin_a) cos_2a,
      Py.np_div (IZR h * cos_a - IZR w * sin_a) cos_2a)) /\
  shape canvas = shape image /\
  (forall wr hr : R,
     crop_dims h w angle = (Py.Finite wr, Py.Finite hr) ->
     exists crop,
       rotatedRectWithMaxArea rotate_cells image angle = Ok crop /\
       ((0 < Py.trunc hr <= h)%Z -> (0 < Py.trunc wr <= w)%Z ->
          centred_rectangle canvas crop (Py.trunc wr) (Py.trunc hr)) /\
       ((Py.trunc hr <= 0)%Z \/ (Py.trunc wr <= 0)%Z -> size crop = 0%nat)).
Proof.
  intros h w sin_a cos_a side_long side_short cos_2a x half_constrained canvas.
  assert (Hx : (1 / 2) * IZR side_short = x) by (unfold x; lra).
  split; [ | split; [ | split ] ].
  - intros Hhalf. unfold crop_dims. rewrite long_short_max_min.
    fold sin_a cos_a side_long side_short.
    destruct (Rle_dec (IZR side_short) (2 * sin_a * cos_a * IZR side_long));
      [ | contradiction ].
    rewrite Hx. reflexivity.
  - intros Hfull. unfold crop_dims. rewrite long_short_max_min.
    fold sin_a cos_a side_long side_short.
    destruct (Rle_dec (IZR side_short) (2 * sin_a * cos_a * IZR side_long));
      [ contradiction | reflexivity ].
  - reflexivity.
  - intros wr hr Hdims.
    eexists. split; [ apply (rotatedRectWithMaxArea_finite _ _ _ _ _ Hdims) | ].
    cbv zeta. fold h w canvas. split.
    + intros Hhr Hwr. unfold centred_rectangle.
      rewrite slice_nrows, slice_ncols.
      split; [ | split ].
      * pose proof (slice_bounds_fit (nrows canvas) (Py.trunc hr) Hhr) as E.
        cbv zeta in E. simpl nrows in *. fold h in E. rewrite E. reflexivity.
      * pose proof (slice_bounds_fit (ncols canvas) (Py.trunc wr) Hwr) as E.
        cbv zeta in E. simpl ncols in *. fold w in E. rewrite E. reflexivity.
      * intros i j. rewrite slice_get.
        pose proof (slice_bounds_fit (nrows canvas) (Py.trunc hr) Hhr) as E1.
        pose proof (slice_bounds_fit (ncols canvas) (Py.trunc wr) Hwr) as E2.
        cbv zeta in E1, E2. simpl nrows in *. simpl ncols in *.
        fold h in E1. fold w in E2. rewrite E1, E2. reflexivity.
    + intros [Hhr | Hwr]; unfold size.
      * rewrite slice_nrows.
        pose proof (slice_bounds_empty (nrows canvas) (Py.trunc hr) Hhr) as E.
        cbv zeta in E. simpl nrows in *. fold h in E. rewrite E. reflexivity.
      * rewrite slice_ncols.
        pose proof (slice_bounds_empty (ncols canvas) (Py.trunc wr) Hwr) as E.
        cbv zeta in E. simpl ncols in *. fold w in E. rewrite E. lia.
Qed.

Lemma crop_dims_quarter_turn (h w : Z) :
  (0 < h)%Z -> (0 < w)%Z ->
  crop_dims h w (PI / 2) = (Py.Finite (IZR h), Py.Finite (IZR w)).
Proof.
  intros Hh Hw. unfold crop_dims. rewrite long_short_max_min.
  rewrite sin_PI2, cos_PI2, Rabs_R1, Rabs_R0.
  assert (0 < IZR (Z.min w h)) by (apply IZR_lt; lia).
  destruct (Rle_dec (IZR (Z.min w h)) (2 * 1 * 0 * IZR (Z.max w h))) as [C | _];
    [ lra | ].
  rewrite !np_div_finite by lra.
  f_equal; f_equal; field.
Qed.

(** C2, counterexample: for a block of 10 rows and 12 columns turned by
    [pi/2] the truncated crop dimensions are 10 columns and 12 rows, both
    positive, and the returned crop has a single row: the negative start
    [(10 - 12) // 2 = -1] of the row slice counts from the end. *)
Lemma rotatedRectWithMaxArea_oversized :
  let image := full 10 12 0 in
  let rotate_cells := fun (_ : ndarray) (_ : R) (_ _ : nat) => 0 in
  let canvas := ndimage_rotate rotate_cells image (degrees (PI / 2)) in
  exists wr hr crop,
    crop_dims 10 12 (PI / 2) = (Py.Finite wr, Py.Finite hr) /\
    Py.trunc wr = 10%Z /\ Py.trunc hr = 12%Z /\
    rotatedRectWithMaxArea rotate_cells image (PI / 2) = Ok crop /\
    shape crop = (1%nat, 10%nat) /\
    ~ centred_rectangle canvas crop (Py.trunc wr) (Py.trunc hr).
Proof.
  intros image rotate_cells canvas.
  pose proof (crop_dims_quarter_turn 10 12 ltac:(lia) ltac:(lia)) as Hd.
  exists (IZR 10), (IZR 12).
  eexists. split; [ exact Hd | ].
  rewrite !trunc_IZR.
  split; [ reflexivity | split; [ reflexivity | ] ].
  split; [ apply (rotatedRectWithMaxArea_finite rotate_cells image _ _ _ Hd) | ].
  rewrite !trunc_IZR.
  split; [ reflexivity | ].
  intros (Hrows & _). vm_compute in Hrows. discriminate.
Qed.

(** *** Square blocks: the crop always fits the canvas *)

Lemma trunc_le (r : R) (z : Z) : 0 <= r -> r <= IZR z -> (Py.trunc r <= z)%Z.
Proof.
  intros H0 Hz. unfold Py.trunc. destruct (Rle_dec 0 r) as [_ | N]; [ | tauto ].
  destruct (base_Int_part r) as [H1 _].
  apply le_IZR. lra.
Qed.

(** Both regimes give a side between 0 and the side [W] of the square. *)
Lemma square_ratio_bounds (s c W q : R) :
  0 <= s -> 0 <= c -> s * s + c * c = 1 -> 0 < W ->
  (W <= 2 * s * c * W -> (q = (1 / 2 * W) / s \/ q = (1 / 2 * W) / c)) ->
  (~ W <= 2 * s * c * W -> q = (W * c - W * s) / (c * c - s * s)) ->
  0 <= q <= W.
Proof.
  intros Hs Hc Hone HW Hhalf Hfull.
  destruct (Rle_dec W (2 * s * c * W)) as [H | H].
  - assert (Hsc : 1 <= 2 * s * c) by nra.
    assert (E : s = c) by nra.
    subst s. assert (Hc2 : c * c = 1 / 2) by lra.
    assert (Hcpos : 1 / 2 <= c) by nra.
    assert (Hq : q = (1 / 2 * W) / c) by (destruct (Hhalf H); assumption).
    assert (Hqc : q * c = 1 / 2 * W) by (rewrite Hq; field; lra).
    split; nra.
  - assert (Hsc : 2 * s * c < 1) by nra.
    assert (Hne : c * c - s * s <> 0).
    { intros Z. apply H. apply (cos_2a_zero_half_constrained s c W W); lra. }
    assert (Hq : q * (c * c - s * s) = W * c - W * s)
      by (rewrite (Hfull H); field; exact Hne).
    assert (Hcs : c - s <> 0) by (intros Z; apply Hne; nra).
    assert (Hq' : q * (c + s) = W).
    { apply Rmult_eq_reg_r with (c - s); [ | exact Hcs ]. nra. }
    assert (Hsum : 1 <= c + s) by nra.
    split; nra.
Qed.

(** The blocks [getFrequencies] passes are squares: their truncated crop
    dimensions lie between 0 and the side of the block. *)
Lemma crop_dims_square (w : Z) (angle : R) :
  (0 < w)%Z ->
  exists wr hr,
    crop_dims w w angle = (Py.Finite wr, Py.Finite hr) /\
    (0 <= Py.trunc wr <= w)%Z /\ (0 <= Py.trunc hr <= w)%Z.
Proof.
  intros Hw.
  destruct (crop_dims_finite w w angle Hw Hw) as (wr & hr & Hd).
  exists wr, hr. split; [ exact Hd | ].
  assert (HW : 0 < IZR w) by (apply IZR_lt; exact Hw).
  pose proof (Rabs_pos (sin angle)) as Hs.
  pose proof (Rabs_pos (cos angle)) as Hc.
  pose proof (abs_sin_cos_sqr angle) as Hone.
  unfold crop_dims in Hd. rewrite Z.leb_refl in Hd.
  set (s := Rabs (sin angle)) in *. set (c := Rabs (cos angle)) in *.
  assert (Hboth : 0 <= wr <= IZR w /\ 0 <= hr <= IZR w).
  { destruct (Rle_dec (IZR w) (2 * s * c * IZR w)) as [H | H].
    - destruct (half_constrained_divisors s c (IZR w) (IZR w) Hs Hc HW
                  ltac:(lra) H) as [Hs0 Hc0].
      rewrite !np_div_finite in Hd by lra.
      injection Hd as Ewr Ehr.
      split; apply (square_ratio_bounds s c (IZR w)); auto; tauto.
    - assert (Hne : c * c - s * s <> 0).
      { intros Z. apply H. apply cos_2a_zero_half_constrained; lra. }
      rewrite !np_div_finite in Hd by exact Hne.
      injection Hd as Ewr Ehr.
      split; apply (square_ratio_bounds s c (IZR w)); auto; tauto. }
  destruct Hboth as [[Hwr0 Hwr1] [Hhr0 Hhr1]].
  repeat split;
    [ apply trunc_nonneg | apply trunc_le | apply trunc_nonneg | apply trunc_le ];
    assumption.
Qed.

(** ** arctan2 *)

Lemma arctan2_bounds (y x : R) : - PI < arctan2 y x <= PI.
Proof.
  pose proof PI_RGT_0 as HPI.
  pose proof (atan_bound (y / x)) as [Hlo Hhi].
  unfold arctan2.
  destruct (Rlt_dec 0 x) as [Hx | Hx]; [ lra | ].
  destruct (Rlt_dec x 0) as [Hx' | Hx'].
  - destruct (Rle_dec 0 y) as [Hy | Hy].
    + assert (Hq : y / x <= 0).
      { unfold Rdiv. pose proof (Rinv_lt_0_compat x Hx'). nra. }
      assert (atan (y / x) <= 0).
      { destruct Hq as [Hq | Hq].
        - apply Rlt_le. rewrite <- atan_0. apply atan_increasing, Hq.
        - rewrite Hq, atan_0. lra. }
      lra.
    + assert (Hq : 0 < y / x).
      { unfold Rdiv. pose proof (Rinv_lt_0_compat x Hx'). nra. }
      assert (0 < atan (y / x)).
      { rewrite <- atan_0. apply atan_increasing, Hq. }
      lra.
  - destruct (Rlt_dec 0 y); [ lra | ].
    destruct (Rlt_dec y 0); lra.
Qed.

Lemma cos_pos_range (phi : R) :
  - PI < phi <= PI -> 0 < cos phi -> - (PI / 2) < phi < PI / 2.
Proof.
  intros [Hlo Hhi] Hc. pose proof PI_RGT_0 as HPI. split.
  - apply Rnot_le_lt. intros N.
    assert (cos (- phi) <= 0) by (apply cos_le_0; lra).
    rewrite cos_neg in *. lra.
  - apply Rnot_le_lt. intros N.
    assert (cos phi <= 0) by (apply cos_le_0; lra). lra.
Qed.

Lemma arctan2_sin_cos (phi : R) :
  - PI < phi <= PI -> arctan2 (sin phi) (cos phi) = phi.
Proof.
  intros [Hlo Hhi]. pose proof PI_RGT_0 as HPI. unfold arctan2.
  destruct (Rlt_dec 0 (cos phi)) as [Hc | Hc].
  - apply atan_tan. apply cos_pos_range; [ lra | exact Hc ].
  - destruct (Rlt_dec (cos phi) 0) as [Hc' | Hc'].
    + destruct (Rle_dec 0 (sin phi)) as [Hs | Hs].
      * (* second quadrant *)
        assert (Hphi : PI / 2 < phi).
        { apply Rnot_le_lt. intros N.
          destruct (Rlt_le_dec phi 0) as [Hneg | Hpos].
          - pose proof (sin_lt_0_var phi Hlo Hneg). lra.
          - assert (0 <= cos phi) by (apply cos_ge_0; lra). lra. }
        assert (E : sin phi / cos phi = tan (phi - PI)).
        { unfold tan. replace phi with ((phi - PI) + PI) at 1 2 by ring.
          rewrite neg_sin, neg_cos. field.
          intros Z. replace phi with ((phi - PI) + PI) in Hc' by ring.
          rewrite neg_cos in Hc'. lra. }
        rewrite E, atan_tan by lra. ring.
      * (* third quadrant *)
        assert (Hneg : phi < 0).
        { apply Rnot_le_lt. intros N.
          assert (0 <= sin phi) by (apply sin_ge_0; lra). lra. }
        assert (Hphi : phi < - (PI / 2)).
        { apply Rnot_le_lt. intros N.
          assert (0 <= cos phi) by (apply cos_ge_0; lra). lra. }
        assert (E : sin phi / cos phi = tan (phi + PI)).
        { unfold tan. rewrite neg_sin, neg_cos. field. lra. }
        rewrite E, atan_tan by lra. ring.
    + assert (Hz : cos phi = 0) by lra.
      assert (Hcases : phi = PI / 2 \/ phi = - (PI / 2)).
      { destruct (Rtotal_order phi (PI / 2)) as [Hlt | [Heq | Hgt]].
        - destruct (Rtotal_order phi (- (PI / 2))) as [Hlt' | [Heq' | Hgt']].
          + assert (cos (- phi) < 0) by (apply cos_lt_0; lra).
            rewrite cos_neg in *. lra.
          + right. exact Heq'.
          + assert (0 < cos phi) by (apply cos_gt_0; lra). lra.
        - left. exact Heq.
        - assert (cos phi < 0) by (apply cos_lt_0; lra). lra. }
      destruct Hcases as [E | E]; rewrite E.
      * rewrite sin_PI2.
        destruct (Rlt_dec 0 1); [ reflexivity | lra ].
      * rewrite sin_neg, sin_PI2.
        destruct (Rlt_dec 0 (Ropp 1)); [ lra | ].
        destruct (Rlt_dec (Ropp 1) 0); [ reflexivity | lra ].
Qed.

(** ** getOrientations: the smoothing of the block angles *)

Lemma ravel_uniform_3x3 (s : ndarray) (theta : R) :
  shape s = (3%nat, 3%nat) ->
  (forall i j, (i < 3)%nat -> (j < 3)%nat -> get s i j = theta) ->
  ravel s = repeat theta 9.
Proof.
  intros Hshape Hall. unfold shape in Hshape.
  injection Hshape as Hr Hc.
  unfold ravel, Py.range. rewrite Hr, Hc. simpl.
  rewrite !Hall by lia. reflexivity.
Qed.

Lemma mean_repeat_9 (v : R) : mean (repeat v 9) = v.
Proof. unfold mean, Np.sum. simpl. field. Qed.

(** On a neighbourhood filled with one angle the averages are the sine and
    cosine of the doubled angle. *)
Lemma smooth_uniform (s : ndarray) (theta : R) :
  shape s = (3%nat, 3%nat) ->
  (forall i j, (i < 3)%nat -> (j < 3)%nat -> get s i j = theta) ->
  smooth s = arctan2 (sin (2 * theta)) (cos (2 * theta)) / 2.
Proof.
  intros Hshape Hall. unfold smooth.
  rewrite (ravel_uniform_3x3 s theta Hshape Hall).
  rewrite !map_repeat, !mean_repeat_9. reflexivity.
Qed.

Lemma smooth_uniform_low (s : ndarray) (theta : R) :
  shape s = (3%nat, 3%nat) ->
  (forall i j, (i < 3)%nat -> (j < 3)%nat -> get s i j = theta) ->
  0 <= theta <= PI / 2 -> smooth s = theta.
Proof.
  intros Hshape Hall Ht. pose proof PI_RGT_0.
  rewrite (smooth_uniform s theta Hshape Hall).
  rewrite arctan2_sin_cos by lra. field.
Qed.

Lemma smooth_uniform_high (s : ndarray) (theta : R) :
  shape s = (3%nat, 3%nat) ->
  (forall i j, (i < 3)%nat -> (j < 3)%nat -> get s i j = theta) ->
  PI / 2 < theta < PI -> smooth s = theta - PI.
Proof.
  intros Hshape Hall Ht. pose proof PI_RGT_0.
  rewrite (smooth_uniform s theta Hshape Hall).
  assert (Es : sin (2 * theta) = sin (2 * theta - 2 * PI)).
  { replace (2 * theta) with ((2 * theta - 2 * PI) + 2 * INR 1 * PI) at 1
      by (simpl; ring).
    apply sin_period. }
  assert (Ec : cos (2 * theta) = cos (2 * theta - 2 * PI)).
  { replace (2 * theta) with ((2 * theta - 2 * PI) + 2 * INR 1 * PI) at 1
      by (simpl; ring).
    apply cos_period. }
  rewrite Es, Ec, arctan2_sin_cos by lra. field.
Qed.

(** C6 (amended): when all nine block angles of a neighbourhood equal
    [theta] in [[0, pi)], the smoothed angle is [theta] itself for
    [theta <= pi/2] and [theta - pi], the same ridge direction, for
    [theta > pi/2]. *)
Theorem smooth_uniform_neighbourhood (surrounding : ndarray) (theta : R) :
  0 <= theta < PI ->
  shape surrounding = (3%nat, 3%nat) ->
  (forall i j, (i < 3)%nat -> (j < 3)%nat -> get surrounding i j = theta) ->
  (theta <= PI / 2 -> smooth surrounding = theta) /\
  (PI / 2 < theta -> smooth surrounding = theta - PI).
Proof.
  intros Ht Hshape Hall. split; intros H.
  - apply smooth_uniform_low; [ assumption | assumption | lra ].
  - apply smooth_uniform_high; [ assumption | assumption | lra ].
Qed.

Lemma smooth_uniform_neighbourhood_witness : smooth (full 3 3 0) = 0.
Proof.
  pose proof PI_RGT_0 as HPI.
  assert (Ht : 0 <= 0 < PI) by lra.
  assert (Hlow : 0 <= PI / 2) by lra.
  exact (proj1 (smooth_uniform_neighbourhood (full 3 3 0) 0 Ht eq_refl
                  (fun _ _ _ _ => eq_refl)) Hlow).
Defined.

(** C6, counterexample: nine block angles equal to [3 pi / 4] are smoothed
    to [- pi / 4]. *)
Lemma smooth_uniform_not_exact :
  0 <= 3 * (PI / 4) < PI /\
  smooth (full 3 3 (3 * (PI / 4))) = - (PI / 4) /\
  smooth (full 3 3 (3 * (PI / 4))) <> 3 * (PI / 4).
Proof.
  pose proof PI_RGT_0 as HPI.
  assert (E : smooth (full 3 3 (3 * (PI / 4))) = 3 * (PI / 4) - PI).
  { apply smooth_uniform_high; [ reflexivity | intros; reflexivity | lra ]. }
  split; [ lra | ]. rewrite E. split; lra.
Qed.

(** ** Loops over the blocks *)

Lemma range_S (n : nat) : Py.range (S n) = Py.range n ++ [n].
Proof. unfold Py.range. rewrite seq_S. reflexivity. Qed.

Lemma fold_left_pointwise {A B : Type} (f g : A -> B -> A) (l : list B) (a : A) :
  (forall x y, f x y = g x y) -> fold_left f l a = fold_left g l a.
Proof.
  intros H. revert a. induction l as [ | b l IH]; intros a; simpl.
  - reflexivity.
  - rewrite H. apply IH.
Qed.

Lemma fill_row_get (a : ndarray) (g : nat -> R) (i m r c : nat) :
  get (fold_left (fun a j => Np.set a i j (g j)) (Py.range m) a) r c =
  if Nat.eqb r i && Nat.ltb c m then g c else get a r c.
Proof.
  induction m as [ | m IH].
  - simpl. rewrite andb_false_r. reflexivity.
  - rewrite range_S, fold_left_app. simpl. rewrite IH.
    destruct (Nat.eqb_spec r i), (Nat.eqb_spec c m),
             (Nat.ltb_spec c m), (Nat.ltb_spec c (S m));
      simpl; try reflexivity; try lia; subst; reflexivity.
Qed.

Lemma fill_row_shape (a : ndarray) (g : nat -> R) (i m : nat) :
  shape (fold_left (fun a j => Np.set a i j (g j)) (Py.range m) a) = shape a.
Proof.
  induction m as [ | m IH].
  - reflexivity.
  - rewrite range_S, fold_left_app. simpl. unfold shape in *. simpl. exact IH.
Qed.

Lemma fill_get (a : ndarray) (f : nat -> nat -> R) (n m r c : nat) :
  get (fill a f n m) r c =
  if Nat.ltb r n && Nat.ltb c m then f r c else get a r c.
Proof.
  unfold fill. induction n as [ | n IH].
  - reflexivity.
  - rewrite range_S, fold_left_app. simpl. rewrite fill_row_get, IH.
    destruct (Nat.eqb_spec r n), (Nat.ltb_spec r n), (Nat.ltb_spec r (S n)),
             (Nat.ltb_spec c m);
      simpl; try reflexivity; try lia; subst; reflexivity.
Qed.

Lemma fill_shape (a : ndarray) (f : nat -> nat -> R) (n m : nat) :
  shape (fill a f n m) = shape a.
Proof.
  unfold fill. induction n as [ | n IH].
  - reflexivity.
  - rewrite range_S, fold_left_app. simpl. rewrite fill_row_shape. exact IH.
Qed.

Lemma fill_nrows (a : ndarray) (f : nat -> nat -> R) (n m : nat) :
  nrows (fill a f n m) = nrows a.
Proof. pose proof (fill_shape a f n m) as S. unfold shape in S. congruence. Qed.

Lemma fill_ncols (a : ndarray) (f : nat -> nat -> R) (n m : nat) :
  ncols (fill a f n m) = ncols a.
Proof. pose proof (fill_shape a f n m) as S. unfold shape in S. congruence. Qed.

(** Membership of a pixel in a block, by division. *)
Lemma in_block (w y r : nat) :
  (0 < w)%nat ->
  Nat.leb (y * w) r && Nat.ltb r ((y + 1) * w) = Nat.eqb (r / w) y.
Proof.
  intros Hw.
  destruct (Nat.eqb_spec (r / w) y) as [E | N].
  - subst y.
    pose proof (Nat.div_mod_eq r w) as D.
    pose proof (Nat.mod_upper_bound r w ltac:(lia)) as M.
    apply andb_true_iff. split.
    + apply Nat.leb_le. nia.
    + apply Nat.ltb_lt. nia.
  - apply andb_false_iff.
    destruct (Nat.leb_spec (y * w) r) as [L | L]; [ right | left; reflexivity ].
    apply Nat.ltb_ge.
    destruct (Nat.le_gt_cases ((y + 1) * w) r) as [G | G]; [ exact G | exfalso ].
    apply N. symmetry. apply (Nat.div_unique r w y (r - y * w)); lia.
Qed.

Lemma tile_row_get (field : ndarray) (g : nat -> R) (w y m r c : nat) :
  (0 < w)%nat ->
  get (fold_left
         (fun field x =>
            set_block field (y * w) ((y + 1) * w) (x * w) ((x + 1) * w) (g x))
         (Py.range m) field) r c =
  if Nat.eqb (r / w) y && Nat.ltb (c / w) m then g (c / w)%nat else get field r c.
Proof.
  intros Hw. induction m as [ | m IH].
  - simpl. rewrite andb_false_r. reflexivity.
  - rewrite range_S, fold_left_app. cbn [fold_left].
    unfold set_block at 1. cbn [get]. rewrite IH.
    rewrite (in_block w y r Hw).
    rewrite <- andb_assoc, (in_block w m c Hw).
    destruct (Nat.eqb_spec (r / w) y), (Nat.eqb_spec (c / w) m),
             (Nat.ltb_spec (c / w) m), (Nat.ltb_spec (c / w) (S m));
      simpl; try reflexivity; try lia.
    congruence.
Qed.

Lemma tile_get (field : ndarray) (value : nat -> nat -> R) (w n m r c : nat) :
  (0 < w)%nat ->
  get (tile field value w n m) r c =
  if Nat.ltb (r / w) n && Nat.ltb (c / w) m
  then value (r / w)%nat (c / w)%nat else get field r c.
Proof.
  intros Hw. unfold tile. induction n as [ | n IH].
  - reflexivity.
  - rewrite range_S, fold_left_app. simpl. rewrite tile_row_get by exact Hw.
    rewrite IH.
    destruct (Nat.eqb_spec (r / w) n), (Nat.ltb_spec (r / w) n),
             (Nat.ltb_spec (r / w) (S n)), (Nat.ltb_spec (c / w) m);
      simpl; try reflexivity; try lia.
    congruence.
Qed.

Lemma tile_row_shape (field : ndarray) (g : nat -> R) (w y m : nat) :
  shape (fold_left
           (fun field x =>
              set_block field (y * w) ((y + 1) * w) (x * w) ((x + 1) * w) (g x))
           (Py.range m) field) = shape field.
Proof.
  induction m as [ | m IH].
  - reflexivity.
  - rewrite range_S, fold_left_app. simpl. unfold shape in *. simpl. exact IH.
Qed.

Lemma tile_shape (field : ndarray) (value : nat -> nat -> R) (w n m : nat) :
  shape (tile field value w n m) = shape field.
Proof.
  unfold tile. induction n as [ | n IH].
  - reflexivity.
  - rewrite range_S, fold_left_app. simpl. rewrite tile_row_shape. exact IH.
Qed.

(** ** getOrientations: the dense field *)

Lemma smooth_bounds (s : ndarray) : - (PI / 2) < smooth s <= PI / 2.
Proof.
  unfold smooth.
  match goal with
  | |- _ < arctan2 ?y ?x / 2 <= _ => pose proof (arctan2_bounds y x)
  end.
  lra.
Qed.

Lemma floordiv_ok (a b q : nat) :
  Py.floordiv a b = Ok q -> (0 < b)%nat /\ q = (a / b)%nat.
Proof.
  unfold Py.floordiv. destruct (Nat.eqb_spec b 0); [ discriminate | ].
  intros H. injection H as <-. split; [ lia | reflexivity ].
Qed.

Lemma floordiv_pos (a b : nat) :
  (0 < b)%nat -> Py.floordiv a b = Ok (a / b)%nat.
Proof.
  intros H. unfold Py.floordiv.
  destruct (Nat.eqb_spec b 0); [ lia | reflexivity ].
Qed.

Lemma pad_edge_ok (a : ndarray) (k : nat) :
  (0 < nrows a)%nat -> (0 < ncols a)%nat ->
  pad_edge a k =
  Ok {| nrows := nrows a + 2 * k; ncols := ncols a + 2 * k;
        get := fun i j => get a (edge (nrows a) k i) (edge (ncols a) k j) |}.
Proof.
  intros Hr Hc. unfold pad_edge.
  destruct (Nat.eqb_spec (nrows a) 0); [ lia | ].
  destruct (Nat.eqb_spec (ncols a) 0); [ lia | reflexivity ].
Qed.

Lemma pad_edge_inv (a : ndarray) (k : nat) (p : ndarray) :
  pad_edge a k = Ok p ->
  (0 < nrows a)%nat /\ (0 < ncols a)%nat /\
  nrows p = (nrows a + 2 * k)%nat /\ ncols p = (ncols a + 2 * k)%nat /\
  forall i j, get p i j = get a (edge (nrows a) k i) (edge (ncols a) k j).
Proof.
  unfold pad_edge.
  destruct (Nat.eqb_spec (nrows a) 0); [ discriminate | ].
  destruct (Nat.eqb_spec (ncols a) 0); [ discriminate | ].
  cbn [orb]. intros H. injection H as <-. cbn [nrows ncols get].
  repeat split; lia.
Qed.

Section OrientationProperties.

Variable junk : nat -> nat -> R.
Variable GaussianBlur_cells : ndarray -> nat -> nat -> R.
Variable Sobel_cells : ndarray -> nat -> nat -> nat -> nat -> R.

Lemma smooth_angles_fill (orien : ndarray) (xblocks yblocks : nat) :
  smooth_angles junk orien xblocks yblocks =
  fill (Np.empty junk xblocks yblocks)
       (fun x y => smooth (slice orien (Z.of_nat x) (Z.of_nat x + 3)
                                       (Z.of_nat y) (Z.of_nat y + 3)))
       xblocks yblocks.
Proof. reflexivity. Qed.

Lemma block_angles_fill (gx gy : ndarray) (w xblocks yblocks : nat) :
  block_angles junk gx gy w xblocks yblocks =
  fill (Np.empty junk xblocks yblocks) (block_angle gx gy w) xblocks yblocks.
Proof.
  unfold block_angles, fill.
  apply fold_left_pointwise. intros a i.
  apply fold_left_pointwise. intros a' j.
  unfold block_angle. destruct (block_sums gx gy w i j). reflexivity.
Qed.

(** What a successful call has computed: [orien] is the padded grid of
    rotated block angles; every pixel of a full block holds the smoothed
    angle of that block, every other pixel the initial [-1]. *)
Lemma getOrientations_ok (image : ndarray) (w : nat) (field : ndarray) :
  getOrientations junk GaussianBlur_cells Sobel_cells image w = Ok field ->
  let gx := Sobel Sobel_cells (GaussianBlur GaussianBlur_cells image) 1 0 in
  let gy := Sobel Sobel_cells (GaussianBlur GaussianBlur_cells image) 0 1 in
  let xblocks := (nrows image / w)%nat in
  let yblocks := (ncols image / w)%nat in
  (0 < w)%nat /\ (0 < xblocks)%nat /\ (0 < yblocks)%nat /\
  shape field = shape image /\
  exists orien : ndarray,
    shape orien = ((xblocks + 2)%nat, (yblocks + 2)%nat) /\
    (forall i j,
       get orien i j =
       fmod (block_angle gx gy w (edge xblocks 1 i) (edge yblocks 1 j) + PI / 2)
            PI) /\
    forall r c,
      get field r c =
      if Nat.ltb (r / w) xblocks && Nat.ltb (c / w) yblocks
      then smooth (slice orien (Z.of_nat (r / w)) (Z.of_nat (r / w) + 3)
                               (Z.of_nat (c / w)) (Z.of_nat (c / w) + 3))
      else -1.
Proof.
  intros H gx gy xblocks yblocks.
  unfold getOrientations in H. cbn [shape] in H.
  destruct (Py.floordiv (nrows image) w) as [xb | ] eqn:Ex; [ | discriminate ].
  destruct (Py.floordiv (ncols image) w) as [yb | ] eqn:Ey; [ | discriminate ].
  cbn [bind] in H.
  apply floordiv_ok in Ex. destruct Ex as [Hw ->].
  apply floordiv_ok in Ey. destruct Ey as [_ ->].
  fold gx gy xblocks yblocks in H.
  destruct (pad_edge (rotate90 (block_angles junk gx gy w xblocks yblocks)) 1)
    as [orien | ] eqn:Ep; [ | discriminate ].
  cbn [bind] in H. injection H as <-.
  apply pad_edge_inv in Ep.
  destruct Ep as (Px & Py & Pr & Pc & Pget).
  unfold rotate90 in Px, Py, Pr, Pc. cbn [nrows ncols] in Px, Py, Pr, Pc.
  rewrite block_angles_fill, fill_nrows in Px, Pr.
  rewrite block_angles_fill, fill_ncols in Py, Pc.
  cbn [Np.empty nrows ncols] in Px, Py, Pr, Pc.
  split; [ exact Hw | ]. split; [ exact Px | ]. split; [ exact Py | ]. split.
  - rewrite tile_shape. reflexivity.
  - exists orien. split; [ | split ].
    + unfold shape. f_equal; [ rewrite Pr | rewrite Pc ]; lia.
    + intros i j. rewrite Pget. unfold rotate90. cbn [nrows ncols get].
      rewrite block_angles_fill, fill_nrows, fill_ncols, fill_get.
      cbn [Np.empty nrows ncols].
      assert (Ei : Nat.ltb (edge xblocks 1 i) xblocks = true)
        by (apply Nat.ltb_lt; unfold edge; lia).
      assert (Ej : Nat.ltb (edge yblocks 1 j) yblocks = true)
        by (apply Nat.ltb_lt; unfold edge; lia).
      rewrite Ei, Ej. reflexivity.
    + intros r c.
      rewrite tile_get by exact Hw. cbn [get full].
      destruct (Nat.ltb_spec (r / w) xblocks) as [Hr | Hr]; [ | reflexivity ].
      destruct (Nat.ltb_spec (c / w) yblocks) as [Hc | Hc]; [ | reflexivity ].
      cbn [andb]. rewrite smooth_angles_fill, fill_get.
      apply Nat.ltb_lt in Hr, Hc. rewrite Hr, Hc. reflexivity.
Qed.

Lemma getOrientations_returns (image : ndarray) (w : nat) :
  (0 < w)%nat -> (w <= nrows image)%nat -> (w <= ncols image)%nat ->
  exists field,
    getOrientations junk GaussianBlur_cells Sobel_cells image w = Ok field.
Proof.
  intros Hw Hr Hc. unfold getOrientations. cbn [shape].
  rewrite !floordiv_pos by exact Hw. cbn [bind].
  assert (Hx : (0 < nrows image / w)%nat) by (apply Nat.div_str_pos; lia).
  assert (Hy : (0 < ncols image / w)%nat) by (apply Nat.div_str_pos; lia).
  rewrite pad_edge_ok.
  - cbn [bind]. eexists. reflexivity.
  - unfold rotate90. cbn [nrows]. rewrite block_angles_fill, fill_nrows. exact Hx.
  - unfold rotate90. cbn [ncols]. rewrite block_angles_fill, fill_ncols. exact Hy.
Qed.

End OrientationProperties.

Lemma full_block_pixel (n w r : nat) :
  (0 < w)%nat -> (n mod w = 0)%nat -> (r < n)%nat -> (r / w < n / w)%nat.
Proof.
  intros Hw Hmod Hr.
  pose proof (Nat.div_mod_eq n w) as D. rewrite Hmod in D.
  apply Nat.Div0.div_lt_upper_bound. lia.
Qed.

(** C3 (amended): for an image whose height and width are divisible by the
    block size, every pixel of the field a call of [getOrientations] returns
    is the smoothed angle of its block and lies in the half-open interval
    [(- pi/2, pi/2]]; the field has the shape of the image. *)
Theorem getOrientations_range
  (junk : nat -> nat -> R)
  (GaussianBlur_cells : ndarray -> nat -> nat -> R)
  (Sobel_cells : ndarray -> nat -> nat -> nat -> nat -> R)
  (image : ndarray) (w : nat) (field : ndarray) :
  (nrows image mod w = 0)%nat -> (ncols image mod w = 0)%nat ->
  getOrientations junk GaussianBlur_cells Sobel_cells image w = Ok field ->
  shape field = shape image /\
  exists orien : ndarray,
    forall r c, (r < nrows field)%nat -> (c < ncols field)%nat ->
      (get field r c =
       smooth (slice orien (Z.of_nat (r / w)) (Z.of_nat (r / w) + 3)
                           (Z.of_nat (c / w)) (Z.of_nat (c / w) + 3))) /\
      (- (PI / 2) < get field r c <= PI / 2).
Proof.
  intros Hh Hwd H.
  destruct (getOrientations_ok _ _ _ _ _ _ H)
    as (Hw & _ & _ & Hshape & orien & _ & _ & Hget).
  split; [ exact Hshape | ].
  exists orien. intros r c Hr Hc.
  unfold shape in Hshape. injection Hshape as Hrows Hcols.
  rewrite Hrows in Hr. rewrite Hcols in Hc.
  rewrite Hget.
  pose proof (full_block_pixel _ w r Hw Hh Hr) as Br.
  pose proof (full_block_pixel _ w c Hw Hwd Hc) as Bc.
  apply Nat.ltb_lt in Br, Bc. rewrite Br, Bc. cbn [andb].
  split; [ reflexivity | apply smooth_bounds ].
Qed.

Lemma getOrientations_range_witness :
  exists field,
    getOrientations (fun _ _ => 0) Cv2.GaussianBlur_cells Cv2.Sobel_cells ramp 3
      = Ok field /\
    shape field = shape ramp /\
    exists orien : ndarray,
      forall r c, (r < nrows field)%nat -> (c < ncols field)%nat ->
        (get field r c =
         smooth (slice orien (Z.of_nat (r / 3)) (Z.of_nat (r / 3) + 3)
                             (Z.of_nat (c / 3)) (Z.of_nat (c / 3) + 3))) /\
        (- (PI / 2) < get field r c <= PI / 2).
Proof.
  destruct (getOrientations_returns (fun _ _ => 0) Cv2.GaussianBlur_cells
              Cv2.Sobel_cells ramp 3) as [field Hfield];
    [ lia | cbn; lia | cbn; lia | ].
  exists field. split; [ exact Hfield | ].
  exact (getOrientations_range _ _ _ ramp 3 field eq_refl eq_refl Hfield).
Defined.

(** *** The ramp image: the block angle is [3 pi / 4] before the smoothing *)

Lemma ramp_gx_cells (r c : nat) :
  (r < 3)%nat -> (c < 3)%nat ->
  get ramp_gx r c = if Nat.eqb c 1 then 4 else 0.
Proof.
  intros Hr Hc.
  destruct r as [ | [ | [ | r]]]; [ | | | lia ];
    (destruct c as [ | [ | [ | c]]]; [ | | | lia ]); cbn; simpl; lra.
Qed.

Lemma ramp_gy_cells (r c : nat) :
  (r < 3)%nat -> (c < 3)%nat ->
  get ramp_gy r c = if Nat.eqb r 1 then 4 else 0.
Proof.
  intros Hr Hc.
  destruct r as [ | [ | [ | r]]]; [ | | | lia ];
    (destruct c as [ | [ | [ | c]]]; [ | | | lia ]); cbn; simpl; lra.
Qed.

Lemma ramp_sums : block_sums ramp_gx ramp_gy 3 0 0 = (0, 32).
Proof.
  unfold block_sums. cbn [Py.range seq fold_left Nat.mul Nat.add].
  rewrite !ramp_gx_cells, !ramp_gy_cells by lia.
  cbn [Nat.eqb]. f_equal; lra.
Qed.

Lemma arctan2_up (y : R) : 0 < y -> arctan2 y 0 = PI / 2.
Proof.
  intros Hy. unfold arctan2.
  destruct (Rlt_dec 0 0); [ lra | ].
  destruct (Rlt_dec 0 y); [ reflexivity | lra ].
Qed.

Lemma fmod_three_quarters : fmod (PI / 2 / 2 + PI / 2) PI = 3 * (PI / 4).
Proof.
  pose proof PI_RGT_0 as HPI. unfold fmod.
  assert (E : (PI / 2 / 2 + PI / 2) / PI = 3 / 4) by (field; lra).
  rewrite E.
  assert (I : Int_part (3 / 4) = 0%Z) by (symmetry; apply Int_part_spec; lra).
  rewrite I. field.
Qed.

Lemma ramp_block_angle :
  fmod (block_angle ramp_gx ramp_gy 3 0 0 + PI / 2) PI = 3 * (PI / 4).
Proof.
  unfold block_angle. rewrite ramp_sums. cbn [fst snd].
  rewrite arctan2_up by lra. apply fmod_three_quarters.
Qed.

(** C3, counterexample: on the 3-by-3 ramp image with block size 3 (both
    sides divisible by the block size) every pixel of the returned field is
    [- pi / 4], outside [[0, pi)]. *)
Lemma getOrientations_ramp :
  (nrows ramp mod 3 = 0)%nat /\ (ncols ramp mod 3 = 0)%nat /\
  exists field,
    getOrientations (fun _ _ => 0) Cv2.GaussianBlur_cells Cv2.Sobel_cells ramp 3
      = Ok field /\
    (forall r c, (r < 3)%nat -> (c < 3)%nat -> get field r c = - (PI / 4)) /\
    ~ (0 <= get field 0 0 < PI).
Proof.
  pose proof PI_RGT_0 as HPI.
  split; [ reflexivity | split; [ reflexivity | ] ].
  destruct (getOrientations_returns (fun _ _ => 0) Cv2.GaussianBlur_cells
              Cv2.Sobel_cells ramp 3) as [field Hfield];
    [ lia | cbn; lia | cbn; lia | ].
  exists field. split; [ exact Hfield | ].
  destruct (getOrientations_ok _ _ _ _ _ _ Hfield)
    as (_ & _ & _ & _ & orien & Hshape & Horien & Hget).
  fold ramp_gx ramp_gy in Horien.
  change (nrows ramp / 3)%nat with 1%nat in *.
  change (ncols ramp / 3)%nat with 1%nat in *.
  assert (Hall : forall r c, (r < 3)%nat -> (c < 3)%nat ->
                   get field r c = - (PI / 4)).
  { intros r c Hr Hc. rewrite Hget.
    replace (r / 3)%nat with 0%nat by (symmetry; apply Nat.div_small; lia).
    replace (c / 3)%nat with 0%nat by (symmetry; apply Nat.div_small; lia).
    cbn [Nat.ltb Nat.leb andb].
    rewrite (smooth_uniform_high _ (3 * (PI / 4))).
    - lra.
    - unfold shape in *. injection Hshape as Hr' Hc'.
      rewrite slice_nrows, slice_ncols, Hr', Hc'. reflexivity.
    - intros i j Hi Hj. rewrite slice_get, Horien.
      replace (edge 1 1 _) with 0%nat by (unfold edge; lia).
      replace (edge 1 1 _) with 0%nat by (unfold edge; lia).
      apply ramp_block_angle.
    - lra. }
  split; [ exact Hall | ].
  rewrite Hall by lia. lra.
Qed.

(** ** getFrequencies: the local estimates *)

Lemma for_each_app {S : Type} (l1 l2 : list nat) (body : nat -> S -> result S)
  (s : S) :
  for_each (l1 ++ l2) body s = (s' <- for_each l1 body s ;; for_each l2 body s').
Proof.
  revert s. induction l1 as [ | i l1 IH]; intros s; simpl.
  - reflexivity.
  - destruct (body i s) as [s' | e]; simpl; [ apply IH | reflexivity ].
Qed.

(** One row of a loop nest that stores a computed value in every cell. *)
Lemma store_row_ok (g : nat -> result R) (x m : nat) (F0 F1 : ndarray) :
  for_each (Py.range m) (fun y F => v <- g y ;; Ok (Np.set F x y v)) F0 = Ok F1 ->
  shape F1 = shape F0 /\
  (forall y, (y < m)%nat -> g y = Ok (get F1 x y)) /\
  (forall r c, r <> x \/ (m <= c)%nat -> get F1 r c = get F0 r c).
Proof.
  revert F1. induction m as [ | m IH]; intros F1 H.
  - simpl in H. injection H as <-.
    split; [ reflexivity | ]. split; [ intros; lia | reflexivity ].
  - rewrite range_S, for_each_app in H.
    destruct (for_each (Py.range m) _ F0) as [F | e] eqn:E; [ | discriminate ].
    cbn [bind for_each] in H.
    destruct (g m) as [v | e] eqn:Eg; [ | discriminate ].
    cbn [bind] in H. injection H as <-.
    destruct (IH F eq_refl) as (Hs & Hrow & Hrest).
    split; [ exact Hs | ]. split.
    + intros y Hy. cbn [get Np.set]. rewrite Nat.eqb_refl. cbn [andb].
      destruct (Nat.eqb_spec y m) as [-> | N]; [ exact Eg | ].
      apply Hrow. lia.
    + intros r c Hrc. cbn [get Np.set].
      destruct (Nat.eqb_spec r x), (Nat.eqb_spec c m); cbn [andb];
        try (apply Hrest; lia). lia.
Qed.

Lemma store_row_returns (g : nat -> result R) (x m : nat) (F0 : ndarray) :
  (forall y, (y < m)%nat -> exists v, g y = Ok v) ->
  exists F1,
    for_each (Py.range m) (fun y F => v <- g y ;; Ok (Np.set F x y v)) F0 = Ok F1.
Proof.
  induction m as [ | m IH]; intros H.
  - eexists. reflexivity.
  - destruct IH as [F E]; [ intros; apply H; lia | ].
    destruct (H m ltac:(lia)) as [v Eg].
    rewrite range_S, for_each_app, E. cbn [bind for_each]. rewrite Eg.
    eexists. reflexivity.
Qed.

Lemma store_grid_ok (g : nat -> nat -> result R) (n m : nat) (F0 F1 : ndarray) :
  for_each (Py.range n)
    (fun x F =>
       for_each (Py.range m) (fun y F => v <- g x y ;; Ok (Np.set F x y v)) F)
    F0 = Ok F1 ->
  shape F1 = shape F0 /\
  forall x y, (x < n)%nat -> (y < m)%nat -> g x y = Ok (get F1 x y).
Proof.
  revert F1. induction n as [ | n IH]; intros F1 H.
  - simpl in H. injection H as <-. split; [ reflexivity | intros; lia ].
  - rewrite range_S, for_each_app in H.
    destruct (for_each (Py.range n) _ F0) as [F | e] eqn:E; [ | discriminate ].
    cbn [bind for_each] in H.
    destruct (for_each (Py.range m) _ F) as [F' | e] eqn:E'; [ | discriminate ].
    cbn [bind] in H. injection H as <-.
    destruct (IH F eq_refl) as (Hs & Hgrid).
    destruct (store_row_ok (g n) n m F F' E') as (Hs' & Hrow & Hrest).
    split; [ congruence | ].
    intros x y Hx Hy.
    destruct (Nat.eq_dec x n) as [-> | N].
    + apply Hrow. exact Hy.
    + rewrite Hrest by (left; exact N). apply Hgrid; lia.
Qed.

Lemma store_grid_returns (g : nat -> nat -> result R) (n m : nat) (F0 : ndarray) :
  (forall x y, (x < n)%nat -> (y < m)%nat -> exists v, g x y = Ok v) ->
  exists F1,
    for_each (Py.range n)
      (fun x F =>
         for_each (Py.range m) (fun y F => v <- g x y ;; Ok (Np.set F x y v)) F)
      F0 = Ok F1.
Proof.
  induction n as [ | n IH]; intros H.
  - eexists. reflexivity.
  - destruct IH as [F E]; [ intros; apply H; lia | ].
    destruct (store_row_returns (g n) n m F) as [F' E'];
      [ intros; apply H; lia | ].
    rewrite range_S, for_each_app, E. cbn [bind for_each]. rewrite E'.
    eexists. reflexivity.
Qed.

Lemma slice_bounds_inside (len a b : nat) :
  (a <= b)%nat -> (b <= len)%nat ->
  Py.slice_bounds len (Z.of_nat a) (Z.of_nat b) = (a, (b - a)%nat).
Proof.
  intros Hab Hb. unfold Py.slice_bounds, Py.slice_index.
  destruct (Z.ltb_spec (Z.of_nat a) 0); [ lia | ].
  destruct (Z.ltb_spec (Z.of_nat b) 0); [ lia | ].
  f_equal; lia.
Qed.

Lemma index_inside (len i : nat) :
  (i < len)%nat -> Py.index len (Z.of_nat i) = Ok i.
Proof.
  intros H. unfold Py.index.
  destruct (Z.ltb_spec (Z.of_nat i) (- Z.of_nat len)); [ lia | ].
  destruct (Z.ltb_spec (Z.of_nat i) 0); [ lia | ].
  destruct (Z.ltb_spec (Z.of_nat i) (Z.of_nat len)); [ | lia ].
  rewrite Nat2Z.id. reflexivity.
Qed.

Lemma getitem_inside (a : ndarray) (i j : nat) :
  (i < nrows a)%nat -> (j < ncols a)%nat ->
  getitem a (Z.of_nat i) (Z.of_nat j) = Ok (get a i j).
Proof.
  intros Hi Hj. unfold getitem.
  rewrite !index_inside by assumption. reflexivity.
Qed.

Lemma normalize_returns (l : list R) :
  l <> [] -> exists columns, normalize l = Ok columns.
Proof.
  intros H. destruct l as [ | v l]; [ contradiction | ].
  unfold normalize. cbn [Np.min bind map Np.max].
  destruct (Rlt_dec 0 _); eexists; reflexivity.
Qed.

Lemma sum_axis0_nonempty (a : ndarray) :
  size a <> 0%nat -> sum_axis0 a <> [].
Proof.
  unfold size, sum_axis0, Py.range. intros H.
  destruct (ncols a) as [ | n]; [ lia | ].
  simpl. discriminate.
Qed.

(** A spacing the code accepts gives a frequency in the band
    [[1/15, 1/5]], which is not the sentinel. *)
Lemma accepted_spacing (f : R) :
  ~ f < 5 -> ~ 15 < f -> 1 / 15 <= 1 / f <= 1 / 5 /\ 1 / f <> -1.
Proof.
  intros H5 H15.
  assert (Hf : 0 < f) by lra.
  assert (Hinv : 0 < / f) by (apply Rinv_0_lt_compat; exact Hf).
  assert (E : f * / f = 1) by (apply Rinv_r; lra).
  unfold Rdiv. rewrite !Rmult_1_l.
  split; [ split | ]; nra.
Qed.

(** A branch of the loop body that stores the sentinel: [reason] proves
    that the window is undeterminable. *)
Ltac sentinel_branch reason :=
  split; [ split; [ intros _; reason | reflexivity ] | ];
  split; [ intros N; exfalso; apply N; reason | left; reflexivity ].

Section FrequencyProperties.

Variable junk : nat -> nat -> R.
Variable rotate_cells : ndarray -> R -> nat -> nat -> R.
Variable find_peaks_cwt : list R -> list Z.

(** The value one pass of the loop body stores. *)
Lemma local_frequency_spec (image orientations : ndarray) (w x y : nat) (v : R) :
  local_frequency rotate_cells find_peaks_cwt image orientations w x y = Ok v ->
  exists window,
    window_of rotate_cells image orientations w x y = Ok window /\
    (v = -1 <-> undeterminable find_peaks_cwt window) /\
    (~ undeterminable find_peaks_cwt window ->
     exists peaks,
       peaks_of find_peaks_cwt window = Ok peaks /\ v = 1 / spacing peaks) /\
    (v = -1 \/ 1 / 15 <= v <= 1 / 5).
Proof.
  unfold local_frequency, window_of, undeterminable, peaks_of.
  intros H.
  destruct (getitem orientations _ _) as [orientation | e]; [ | discriminate ].
  cbn [bind] in *.
  destruct (rotatedRectWithMaxArea rotate_cells _ _) as [window | e];
    [ | discriminate ].
  cbn [bind] in *. exists window. split; [ reflexivity | ].
  destruct (Nat.eqb_spec (size window) 0) as [Hsize | Hsize].
  { injection H as <-. sentinel_branch ltac:(left; exact Hsize). }
  destruct (normalize (sum_axis0 window)) as [columns | e]; [ | discriminate ].
  cbn [bind] in *.
  set (peaks := find_peaks_cwt columns) in *.
  destruct (Nat.ltb_spec (length peaks) 2) as [Hlen | Hlen].
  { injection H as <-. sentinel_branch ltac:(right; exists peaks; auto). }
  destruct (Rlt_dec (spacing peaks) 5) as [H5 | H5].
  { injection H as <-. sentinel_branch ltac:(right; exists peaks; auto). }
  destruct (Rlt_dec 15 (spacing peaks)) as [H15 | H15].
  { injection H as <-. sentinel_branch ltac:(right; exists peaks; auto). }
  injection H as <-.
  destruct (accepted_spacing (spacing peaks) H5 H15) as [Hband Hne].
  split; [ split | split ].
  - intros E. contradiction.
  - intros [E | (peaks' & E & Hbad)]; [ contradiction | ].
    injection E as <-. exfalso.
    destruct Hbad as [Hbad | [Hbad | Hbad]]; [ lia | lra | lra ].
  - intros _. exists peaks. split; reflexivity.
  - right. exact Hband.
Qed.

Lemma block_shape (image : ndarray) (w x y : nat) :
  ((x + 1) * w <= nrows image)%nat -> ((y + 1) * w <= ncols image)%nat ->
  shape (slice image (Z.of_nat (x * w)) (Z.of_nat ((x + 1) * w))
                     (Z.of_nat (y * w)) (Z.of_nat ((y + 1) * w))) = (w, w).
Proof.
  intros Hx Hy. unfold shape. rewrite slice_nrows, slice_ncols.
  rewrite !slice_bounds_inside by lia. cbn [snd]. f_equal; lia.
Qed.

(** The loop body succeeds on every full block whose centre pixel the
    orientation field covers. *)
Lemma local_frequency_returns (image orientations : ndarray) (w x y : nat) :
  (0 < w)%nat ->
  ((x + 1) * w <= nrows image)%nat -> ((y + 1) * w <= ncols image)%nat ->
  (nrows image <= nrows orientations)%nat ->
  (ncols image <= ncols orientations)%nat ->
  exists v,
    local_frequency rotate_cells find_peaks_cwt image orientations w x y = Ok v.
Proof.
  intros Hw Hx Hy Hr Hc. unfold local_frequency.
  assert (Hhalf : (w / 2 < w)%nat) by (apply Nat.div_lt; lia).
  rewrite getitem_inside by nia. cbn [bind].
  set (block := slice image (Z.of_nat (x * w)) (Z.of_nat ((x + 1) * w))
                             (Z.of_nat (y * w)) (Z.of_nat ((y + 1) * w))).
  pose proof (block_shape image w x y Hx Hy) as Hb. fold block in Hb.
  assert (Hb1 : nrows block = w) by (unfold shape in Hb; congruence).
  assert (Hb2 : ncols block = w) by (unfold shape in Hb; congruence).
  destruct (rotatedRectWithMaxArea_returns rotate_cells block
              (PI / 2 + get orientations (x * w + w / 2) (y * w + w / 2)))
    as [window Hwin]; [ lia | lia | ].
  rewrite Hwin. cbn [bind].
  destruct (Nat.eqb_spec (size window) 0) as [Hsize | Hsize];
    [ eexists; reflexivity | ].
  destruct (normalize_returns (sum_axis0 window) (sum_axis0_nonempty _ Hsize))
    as [columns Hcol].
  rewrite Hcol. cbn [bind].
  destruct (Nat.ltb _ 2); [ eexists; reflexivity | ].
  destruct (Rlt_dec _ 5); [ eexists; reflexivity | ].
  destruct (Rlt_dec 15 _); eexists; reflexivity.
Qed.

Lemma local_frequencies_ok (image orientations : ndarray) (w n m : nat)
  (F : ndarray) :
  local_frequencies junk rotate_cells find_peaks_cwt image orientations w n m
    = Ok F ->
  shape F = (n, m) /\
  forall x y, (x < n)%nat -> (y < m)%nat ->
    local_frequency rotate_cells find_peaks_cwt image orientations w x y
      = Ok (get F x y).
Proof.
  unfold local_frequencies. intros H.
  apply (store_grid_ok
           (local_frequency rotate_cells find_peaks_cwt image orientations w))
    in H.
  exact H.
Qed.

Lemma local_frequencies_returns (image orientations : ndarray) (w : nat) :
  (0 < w)%nat ->
  (nrows image <= nrows orientations)%nat ->
  (ncols image <= ncols orientations)%nat ->
  exists F,
    local_frequencies junk rotate_cells find_peaks_cwt image orientations w
      (nrows image / w) (ncols image / w) = Ok F.
Proof.
  intros Hw Hr Hc. unfold local_frequencies.
  apply (store_grid_returns
           (local_frequency rotate_cells find_peaks_cwt image orientations w)).
  intros x y Hx Hy.
  pose proof (Nat.Div0.mul_div_le (nrows image) w) as Dx.
  pose proof (Nat.Div0.mul_div_le (ncols image) w) as Dy.
  apply local_frequency_returns; try assumption; nia.
Qed.

End FrequencyProperties.



(** ** getFrequencies: the smoothing pass *)

Lemma sum_bounds (l : list R) (a b : R) :
  (forall v, In v l -> a <= v <= b) ->
  a * INR (length l) <= Np.sum l <= b * INR (length l).
Proof.
  induction l as [ | v l IH]; intros H.
  - simpl. lra.
  - assert (Hv : a <= v <= b) by (apply H; left; reflexivity).
    assert (Hl : a * INR (length l) <= Np.sum l <= b * INR (length l))
      by (apply IH; intros u Hu; apply H; right; exact Hu).
    cbn [length Np.sum fold_right]. fold (Np.sum l). rewrite S_INR. lra.
Qed.

Lemma mean_bounds (l : list R) (a b : R) :
  l <> [] -> (forall v, In v l -> a <= v <= b) -> a <= mean l <= b.
Proof.
  intros Hne H. pose proof (sum_bounds l a b H) as [Hlo Hhi].
  assert (Hn : 0 < INR (length l)).
  { apply lt_0_INR. destruct l; [ contradiction | simpl; lia ]. }
  unfold mean. split.
  - apply Rmult_le_reg_r with (INR (length l)); [ exact Hn | ].
    unfold Rdiv. rewrite Rmult_assoc, Rinv_l by lra. lra.
  - apply Rmult_le_reg_r with (INR (length l)); [ exact Hn | ].
    unfold Rdiv. rewrite Rmult_assoc, Rinv_l by lra. lra.
Qed.

Lemma neighbours_length (F : ndarray) (xblocks yblocks x y : nat) :
  length (neighbours F xblocks yblocks x y) = 49%nat.
Proof. reflexivity. Qed.

Lemma neighbours_in (F : ndarray) (xblocks yblocks x y : nat) (v : R) :
  (0 < xblocks)%nat -> (0 < yblocks)%nat ->
  In v (neighbours F xblocks yblocks x y) ->
  exists i j, (i < xblocks)%nat /\ (j < yblocks)%nat /\ v = get F i j.
Proof.
  intros Hx Hy Hin. unfold neighbours in Hin.
  apply in_flat_map in Hin. destruct Hin as (i & _ & Hin).
  apply in_map_iff in Hin. destruct Hin as (j & E & _).
  exists (edge xblocks 3 (x + i)), (edge yblocks 3 (y + j)).
  unfold edge. repeat split; [ lia | lia | auto ].
Qed.

(** The 7-by-7 window the code cuts out of the padded grid holds the 49
    neighbours. *)
Lemma neighbourhood_neighbours (F Fpad : ndarray) (x y : nat) :
  pad_edge F 3 = Ok Fpad ->
  (x < nrows F)%nat -> (y < ncols F)%nat ->
  neighbourhood Fpad x y = neighbours F (nrows F) (ncols F) x y.
Proof.
  intros Hpad Hx Hy.
  destruct (pad_edge_inv F 3 Fpad Hpad) as (_ & _ & Pr & Pc & Pget).
  unfold neighbourhood, neighbours, ravel.
  rewrite slice_nrows, slice_ncols.
  replace (Z.of_nat x + 7)%Z with (Z.of_nat (x + 7)) by lia.
  replace (Z.of_nat y + 7)%Z with (Z.of_nat (y + 7)) by lia.
  rewrite Pr, Pc, !slice_bounds_inside by lia. cbn [snd].
  replace (x + 7 - x)%nat with 7%nat by lia.
  replace (y + 7 - y)%nat with 7%nat by lia.
  apply flat_map_ext. intros i.
  apply map_ext. intros j.
  rewrite slice_get, Pr, Pc, !slice_bounds_inside by lia. cbn [fst].
  apply Pget.
Qed.

Lemma valid_not_sentinel (l : list R) :
  (forall v, In v l -> v = -1 \/ 1 / 15 <= v <= 1 / 5) ->
  valid l = filter not_sentinel l.
Proof.
  intros H. unfold valid. apply filter_ext_in. intros v Hv.
  unfold not_sentinel.
  destruct (H v Hv) as [E | B];
    destruct (Rle_dec 0 v), (Req_dec_T v (-1)); try reflexivity; lra.
Qed.

Lemma filter_not_sentinel_in (l : list R) (v : R) :
  In v (filter not_sentinel l) -> In v l /\ v <> -1.
Proof.
  intros H. apply filter_In in H. destruct H as [Hin Hb].
  split; [ exact Hin | ].
  unfold not_sentinel in Hb. destruct (Req_dec_T v (-1)); [ discriminate | assumption ].
Qed.

Lemma filter_not_sentinel_nil (l : list R) :
  filter not_sentinel l = [] <-> (forall v, In v l -> v = -1).
Proof.
  split.
  - intros H v Hv.
    destruct (Req_dec_T v (-1)) as [E | N]; [ exact E | exfalso ].
    assert (Hin : In v (filter not_sentinel l)).
    { apply filter_In. split; [ exact Hv | ].
      unfold not_sentinel. destruct (Req_dec_T v (-1)); [ contradiction | reflexivity ]. }
    rewrite H in Hin. exact Hin.
  - intros H. destruct (filter not_sentinel l) as [ | v t] eqn:E; [ reflexivity | exfalso ].
    assert (Hin : In v (filter not_sentinel l)) by (rewrite E; left; reflexivity).
    apply filter_not_sentinel_in in Hin. destruct Hin as [Hin N].
    apply N, H, Hin.
Qed.

Section SmoothingProperties.

Variable junk : nat -> nat -> R.
Variable rotate_cells : ndarray -> R -> nat -> nat -> R.
Variable find_peaks_cwt : list R -> list Z.

(** What a successful call has computed: [F] is the grid of local
    estimates; every pixel of a full block holds the mean of the valid
    neighbours of that block, or [-1] without one; every other pixel holds
    the initial [-1]. *)
Lemma getFrequencies_ok (image orientations : ndarray) (w : nat)
  (frequencies : ndarray) :
  getFrequencies junk rotate_cells find_peaks_cwt image orientations w
    = Ok frequencies ->
  let xblocks := (nrows image / w)%nat in
  let yblocks := (ncols image / w)%nat in
  (0 < w)%nat /\ (0 < xblocks)%nat /\ (0 < yblocks)%nat /\
  shape frequencies = shape image /\
  exists F : ndarray,
    local_frequencies junk rotate_cells find_peaks_cwt image orientations w
      xblocks yblocks = Ok F /\
    (forall x y, (x < xblocks)%nat -> (y < yblocks)%nat ->
       get F x y = -1 \/ 1 / 15 <= get F x y <= 1 / 5) /\
    forall r c,
      get frequencies r c =
      if Nat.ltb (r / w) xblocks && Nat.ltb (c / w) yblocks
      then
        let kept :=
          filter not_sentinel (neighbours F xblocks yblocks (r / w) (c / w)) in
        if Nat.eqb (length kept) 0 then -1 else mean kept
      else -1.
Proof.
  intros H xblocks yblocks.
  unfold getFrequencies in H. cbn [shape] in H.
  destruct (Py.floordiv (nrows image) w) as [xb | ] eqn:Ex; [ | discriminate ].
  destruct (Py.floordiv (ncols image) w) as [yb | ] eqn:Ey; [ | discriminate ].
  cbn [bind] in H.
  apply floordiv_ok in Ex. destruct Ex as [Hw ->].
  apply floordiv_ok in Ey. destruct Ey as [_ ->].
  fold xblocks yblocks in H.
  destruct (local_frequencies junk rotate_cells find_peaks_cwt image
              orientations w xblocks yblocks) as [F | ] eqn:EF; [ | discriminate ].
  cbn [bind] in H.
  destruct (pad_edge F 3) as [Fpad | ] eqn:Ep; [ | discriminate ].
  cbn [bind] in H. injection H as <-.
  destruct (local_frequencies_ok _ _ _ _ _ _ _ _ _ EF) as [HsF Hcell].
  unfold shape in HsF. injection HsF as HrF HcF.
  destruct (pad_edge_inv F 3 Fpad Ep) as (Px & Py & _).
  rewrite HrF in Px. rewrite HcF in Py.
  assert (Hband : forall x y, (x < xblocks)%nat -> (y < yblocks)%nat ->
                    get F x y = -1 \/ 1 / 15 <= get F x y <= 1 / 5).
  { intros x y Hx Hy.
    destruct (local_frequency_spec _ _ _ _ _ _ _ _ (Hcell x y Hx Hy))
      as (_ & _ & _ & _ & B).
    exact B. }
  split; [ exact Hw | ]. split; [ exact Px | ]. split; [ exact Py | ]. split.
  - rewrite tile_shape. reflexivity.
  - exists F. split; [ reflexivity | ]. split; [ exact Hband | ].
    intros r c. rewrite tile_get by exact Hw. cbn [get full].
    destruct (Nat.ltb_spec (r / w) xblocks) as [Hr | Hr]; [ | reflexivity ].
    destruct (Nat.ltb_spec (c / w) yblocks) as [Hc | Hc]; [ | reflexivity ].
    cbn [andb]. unfold smoothed_frequency.
    rewrite (neighbourhood_neighbours F Fpad) by (assumption || lia).
    rewrite HrF, HcF. rewrite valid_not_sentinel; [ reflexivity | ].
    intros v Hv.
    destruct (neighbours_in F xblocks yblocks _ _ v Px Py Hv)
      as (i & j & Hi & Hj & ->).
    apply Hband; assumption.
Qed.

Lemma getFrequencies_returns (image orientations : ndarray) (w : nat) :
  (0 < w)%nat -> (w <= nrows image)%nat -> (w <= ncols image)%nat ->
  (nrows image <= nrows orientations)%nat ->
  (ncols image <= ncols orientations)%nat ->
  exists frequencies,
    getFrequencies junk rotate_cells find_peaks_cwt image orientations w
      = Ok frequencies.
Proof.
  intros Hw Hr Hc Hor Hoc. unfold getFrequencies. cbn [shape].
  rewrite !floordiv_pos by exact Hw. cbn [bind].
  destruct (local_frequencies_returns junk rotate_cells find_peaks_cwt
              image orientations w Hw Hor Hoc) as [F HF].
  rewrite HF. cbn [bind].
  destruct (local_frequencies_ok _ _ _ _ _ _ _ _ _ HF) as [HsF _].
  unfold shape in HsF. injection HsF as HrF HcF.
  assert (Hx : (0 < nrows image / w)%nat) by (apply Nat.div_str_pos; lia).
  assert (Hy : (0 < ncols image / w)%nat) by (apply Nat.div_str_pos; lia).
  rewrite pad_edge_ok by lia. cbn [bind]. eexists. reflexivity.
Qed.

End SmoothingProperties.

(** C4: in the smoothing pass the final value of every block is computed
    from the 49 local estimates of its 7-by-7 neighbourhood (the grid padded
    by 3 with its edge values): the entries equal to the sentinel are left
    out, the final value is the arithmetic mean of the remaining ones, and it
    is [-1] exactly when all 49 entries are the sentinel. *)
Theorem getFrequencies_smoothing
  (junk : nat -> nat -> R)
  (rotate_cells : ndarray -> R -> nat -> nat -> R)
  (find_peaks_cwt : list R -> list Z)
  (image orientations : ndarray) (w : nat) (frequencies : ndarray)
  (x y : nat) :
  getFrequencies junk rotate_cells find_peaks_cwt image orientations w
    = Ok frequencies ->
  (x < nrows image / w)%nat -> (y < ncols image / w)%nat ->
  exists F : ndarray,
    local_frequencies junk rotate_cells find_peaks_cwt image orientations w
      (nrows image / w) (ncols image / w) = Ok F /\
    let nb := neighbours F (nrows image / w) (ncols image / w) x y in
    let kept := filter not_sentinel nb in
    length nb = 49%nat /\
    (forall r c, (r / w)%nat = x -> (c / w)%nat = y ->
       get frequencies r c = if Nat.eqb (length kept) 0 then -1 else mean kept) /\
    ((forall r c, (r / w)%nat = x -> (c / w)%nat = y -> get frequencies r c = -1)
     <-> (forall v, In v nb -> v = -1)).
Proof.
  intros H Hx Hy.
  destruct (getFrequencies_ok _ _ _ _ _ _ _ H)
    as (Hw & Px & Py & _ & F & HF & Hband & Hget).
  exists F. split; [ exact HF | ].
  intros nb kept.
  assert (Hblock : forall r c, (r / w)%nat = x -> (c / w)%nat = y ->
            get frequencies r c =
            if Nat.eqb (length kept) 0 then -1 else mean kept).
  { intros r c Hr Hc. rewrite Hget, Hr, Hc.
    apply Nat.ltb_lt in Hx, Hy. rewrite Hx, Hy. reflexivity. }
  split; [ reflexivity | ]. split; [ exact Hblock | ].
  split.
  - intros Hall. apply filter_not_sentinel_nil. fold kept.
    destruct kept as [ | v t] eqn:Ek; [ reflexivity | exfalso ].
    assert (Hmean : 1 / 15 <= mean (v :: t) <= 1 / 5).
    { apply mean_bounds; [ discriminate | ].
      intros u Hu. rewrite <- Ek in Hu. unfold kept in Hu.
      apply filter_not_sentinel_in in Hu. destruct Hu as [Hu Hne].
      destruct (neighbours_in F _ _ _ _ u Px Py Hu) as (i & j & Hi & Hj & ->).
      destruct (Hband i j Hi Hj) as [E | B]; [ contradiction | exact B ]. }
    pose proof (Hall (x * w)%nat (y * w)%nat
                  (Nat.div_mul x w ltac:(lia)) (Nat.div_mul y w ltac:(lia))) as E.
    rewrite Hblock in E
      by (apply Nat.div_mul; lia).
    cbn [length Nat.eqb] in E. lra.
  - intros Hall r c Hr Hc. rewrite (Hblock r c Hr Hc).
    apply filter_not_sentinel_nil in Hall. fold nb kept in Hall.
    rewrite Hall. reflexivity.
Qed.

Lemma getFrequencies_smoothing_witness :
  exists frequencies F : ndarray,
    getFrequencies (fun _ _ => 0) (fun _ _ _ _ => 0) (fun _ => [])
      ramp (full 3 3 0) 3 = Ok frequencies /\
    local_frequencies (fun _ _ => 0) (fun _ _ _ _ => 0) (fun _ => [])
      ramp (full 3 3 0) 3 (nrows ramp / 3) (ncols ramp / 3) = Ok F /\
    let nb := neighbours F (nrows ramp / 3) (ncols ramp / 3) 0 0 in
    let kept := filter not_sentinel nb in
    length nb = 49%nat /\
    (forall r c, (r / 3)%nat = 0%nat -> (c / 3)%nat = 0%nat ->
       get frequencies r c = if Nat.eqb (length kept) 0 then -1 else mean kept) /\
    ((forall r c, (r / 3)%nat = 0%nat -> (c / 3)%nat = 0%nat ->
        get frequencies r c = -1)
     <-> (forall v, In v nb -> v = -1)).
Proof.
  destruct (getFrequencies_returns (fun _ _ => 0) (fun _ _ _ _ => 0)
              (fun _ => []) ramp (full 3 3 0) 3)
    as [frequencies Hf]; [ lia | cbn; lia | cbn; lia | cbn; lia | cbn; lia | ].
  destruct (getFrequencies_smoothing _ _ _ _ _ _ frequencies 0 0 Hf)
    as (F & H); [ cbn; lia | cbn; lia | ].
  exists frequencies, F. split; [ exact Hf | exact H ].
Defined.

(** C5: every pixel of the frequency field [getFrequencies] returns is the
    sentinel [-1] or a value of the band [[1/15, 1/5]], and the pixels of one
    block footprint carry one value; the field has the shape of the image.
    (The sides need not even be multiples of the block size: the pixels
    outside the full blocks keep the initial [-1].) *)
Theorem getFrequencies_band
  (junk : nat -> nat -> R)
  (rotate_cells : ndarray -> R -> nat -> nat -> R)
  (find_peaks_cwt : list R -> list Z)
  (image orientations : ndarray) (w : nat) (frequencies : ndarray) :
  getFrequencies junk rotate_cells find_peaks_cwt image orientations w
    = Ok frequencies ->
  shape frequencies = shape image /\
  (forall r c,
     get frequencies r c = -1 \/ 1 / 15 <= get frequencies r c <= 1 / 5) /\
  (forall r c r' c',
     (r / w)%nat = (r' / w)%nat -> (c / w)%nat = (c' / w)%nat ->
     get frequencies r c = get frequencies r' c').
Proof.
  intros H.
  destruct (getFrequencies_ok _ _ _ _ _ _ _ H)
    as (Hw & Px & Py & Hshape & F & HF & Hband & Hget).
  split; [ exact Hshape | ]. split.
  - intros r c. rewrite Hget.
    destruct (_ && _); [ | left; reflexivity ].
    cbv zeta.
    destruct (filter not_sentinel _) as [ | v t] eqn:Ek; [ left; reflexivity | ].
    right. cbn [length Nat.eqb].
    apply mean_bounds; [ discriminate | ].
    intros u Hu. rewrite <- Ek in Hu.
    apply filter_not_sentinel_in in Hu. destruct Hu as [Hu Hne].
    destruct (neighbours_in F _ _ _ _ u Px Py Hu) as (i & j & Hi & Hj & ->).
    destruct (Hband i j Hi Hj) as [E | B]; [ contradiction | exact B ].
  - intros r c r' c' Hr Hc. rewrite !Hget, Hr, Hc. reflexivity.
Qed.

Lemma getFrequencies_band_witness :
  exists frequencies : ndarray,
    getFrequencies (fun _ _ => 0) (fun _ _ _ _ => 0) (fun _ => [])
      ramp (full 3 3 0) 3 = Ok frequencies /\
    shape frequencies = shape ramp /\
    (forall r c,
       get frequencies r c = -1 \/ 1 / 15 <= get frequencies r c <= 1 / 5) /\
    (forall r c r' c',
       (r / 3)%nat = (r' / 3)%nat -> (c / 3)%nat = (c' / 3)%nat ->
       get frequencies r c = get frequencies r' c').
Proof.
  destruct (getFrequencies_returns (fun _ _ => 0) (fun _ _ _ _ => 0)
              (fun _ => []) ramp (full 3 3 0) 3)
    as [frequencies Hf]; [ lia | cbn; lia | cbn; lia | cbn; lia | cbn; lia | ].
  exists frequencies. split; [ exact Hf | ].
  exact (getFrequencies_band _ _ _ _ _ _ frequencies Hf).
Defined.

(** ** features.py *)

Lemma index_ok (len : nat) (i : Z) :
  (- Z.of_nat len <= i < Z.of_nat len)%Z -> exists k, Py.index len i = Ok k.
Proof.
  intros H. unfold Py.index.
  destruct (Z.ltb_spec i (- Z.of_nat len)); [ lia | ].
  destruct (Z.ltb_spec i 0); [ eexists; reflexivity | ].
  destruct (Z.ltb_spec i (Z.of_nat len)); [ eexists; reflexivity | lia ].
Qed.

Lemma getitem_ok (a : ndarray) (p : point) :
  indexes_inside a p ->
  exists v, getitem a (astype_int (fst p)) (astype_int (snd p)) = Ok v.
Proof.
  intros [Hr Hc]. unfold getitem.
  destruct (index_ok _ _ Hr) as [r ->].
  destruct (index_ok _ _ Hc) as [c ->].
  eexists. reflexivity.
Qed.

(** Discharges [indexes_inside] on a concrete array and point. *)
Ltac solve_inside :=
  unfold indexes_inside, astype_int;
  cbn [fst snd m_x m_y rc_ki rc_kj nrows ncols full fb_orientations];
  rewrite ?trunc_IZR; lia.

Section FeatureProperties.

Variable helper_dki : point -> point -> R.
Variable helper_dfi : R -> R -> R.

Lemma FeatureBase_init_ok (p : point) (type : R) (orientations : ndarray) :
  indexes_inside orientations p ->
  exists theta,
    FeatureBase_init p type orientations =
    Ok {| fb_point := p; fb_orientations := orientations;
          fb_theta := theta; fb_type := is_one type |}.
Proof.
  intros H. unfold FeatureBase_init.
  destruct (getitem_ok _ _ H) as [theta ->]. cbn [bind].
  exists theta. reflexivity.
Qed.

Lemma FeatureBase_init_inv (p : point) (type : R) (orientations : ndarray)
  (self : FeatureBase) :
  FeatureBase_init p type orientations = Ok self ->
  fb_point self = p /\ fb_orientations self = orientations /\
  fb_type self = is_one type.
Proof.
  unfold FeatureBase_init.
  destruct (getitem orientations _ _) as [theta | e]; [ | discriminate ].
  cbn [bind]. intros H. injection H as <-. auto.
Qed.

(** The tuple of a successful call, field by field. *)
Lemma make_feature_vector_inv (self : FeatureBase) (rc : ridgecount)
  (vec : list R) :
  make_feature_vector helper_dki helper_dfi self rc = Ok vec ->
  exists fiki fikj phiki phikj,
    vec = [helper_dki (fb_point self) (rc_ki rc);
           helper_dki (fb_point self) (rc_kj rc);
           fiki; fikj; phiki; phikj;
           rc_nki rc; rc_nkj rc;
           fb_type self; is_one (rc_typei rc); is_one (rc_typej rc)].
Proof.
  unfold make_feature_vector.
  destruct (getitem _ _ _) as [itheta | e]; [ | discriminate ].
  cbn [bind].
  destruct (getitem _ _ _) as [jtheta | e]; [ | discriminate ].
  cbn [bind]. intros H. injection H as <-.
  do 4 eexists. reflexivity.
Qed.

Lemma make_feature_vector_ok (self : FeatureBase) (rc : ridgecount) :
  indexes_inside (fb_orientations self) (rc_ki rc) ->
  indexes_inside (fb_orientations self) (rc_kj rc) ->
  exists vec, make_feature_vector helper_dki helper_dfi self rc = Ok vec.
Proof.
  intros Hi Hj. unfold make_feature_vector.
  destruct (getitem_ok _ _ Hi) as [itheta ->].
  destruct (getitem_ok _ _ Hj) as [jtheta ->].
  cbn [bind]. eexists. reflexivity.
Qed.

End FeatureProperties.

(** C7 (amended): for every minutia point, ridge-count record and
    orientation field such that the point and the two neighbour points index
    inside the field, [make_feature_vector] returns exactly 11 fields in the
    order (dki, dkj, fiki, fikj, phiki, phikj, nki, nkj, type, typei, typej).
    With [theta], [itheta] and [jtheta] the orientations at the point, at
    [ki] and at [kj]: [dki] and [dkj] are [helper.dki] of the point and
    [ki], [kj]; [fiki] and [fikj] are [helper.dfi] of the direction
    [arctan2] of the point minus [ki], [kj] and of [theta]; [phiki] and
    [phikj] are [helper.dfi] of [theta] and [itheta], [jtheta]; [nki] and
    [nkj] are the two ridge counts of the record, unchanged; and [type],
    [typei], [typej] are 1 when the corresponding type code equals 1 and 0
    otherwise. *)
Theorem make_feature_vector_fields
  (helper_dki : point -> point -> R) (helper_dfi : R -> R -> R)
  (p : point) (type : R) (orientations : ndarray) (rc : ridgecount) :
  indexes_inside orientations p ->
  indexes_inside orientations (rc_ki rc) ->
  indexes_inside orientations (rc_kj rc) ->
  exists self vec theta itheta jtheta,
    FeatureBase_init p type orientations = Ok self /\
    make_feature_vector helper_dki helper_dfi self rc = Ok vec /\
    getitem orientations (astype_int (fst p)) (astype_int (snd p)) = Ok theta /\
    getitem orientations (astype_int (fst (rc_ki rc)))
                         (astype_int (snd (rc_ki rc))) = Ok itheta /\
    getitem orientations (astype_int (fst (rc_kj rc)))
                         (astype_int (snd (rc_kj rc))) = Ok jtheta /\
    length vec = 11%nat /\
    vec = [helper_dki p (rc_ki rc);
           helper_dki p (rc_kj rc);
           helper_dfi (arctan2 (snd p - snd (rc_ki rc))
                               (fst p - fst (rc_ki rc))) theta;
           helper_dfi (arctan2 (snd p - snd (rc_kj rc))
                               (fst p - fst (rc_kj rc))) theta;
           helper_dfi theta itheta;
           helper_dfi theta jtheta;
           rc_nki rc; rc_nkj rc;
           (if Req_dec_T type 1 then 1 else 0);
           (if Req_dec_T (rc_typei rc) 1 then 1 else 0);
           (if Req_dec_T (rc_typej rc) 1 then 1 else 0)].
Proof.
  intros Hp Hi Hj.
  destruct (getitem_ok _ _ Hp) as [theta Ht].
  destruct (getitem_ok _ _ Hi) as [itheta Hit].
  destruct (getitem_ok _ _ Hj) as [jtheta Hjt].
  exists {| fb_point := p; fb_orientations := orientations;
            fb_theta := theta; fb_type := is_one type |}.
  eexists. exists theta, itheta, jtheta.
  split; [ unfold FeatureBase_init; rewrite Ht; reflexivity | ].
  split.
  { unfold make_feature_vector.
    cbn [fb_point fb_orientations fb_theta fb_type].
    rewrite Hit, Hjt. cbn [bind]. reflexivity. }
  split; [ exact Ht | ]. split; [ exact Hit | ]. split; [ exact Hjt | ].
  split; reflexivity.
Qed.

Lemma make_feature_vector_fields_witness :
  exists self vec theta itheta jtheta,
    FeatureBase_init (0, 0) 1 (full 3 3 0) = Ok self /\
    make_feature_vector Helper.dki Rminus self
      (mk_ridgecount (1, 1) 1 2 (2, 2) 0 3) = Ok vec /\
    getitem (full 3 3 0) (astype_int 0) (astype_int 0) = Ok theta /\
    getitem (full 3 3 0) (astype_int 1) (astype_int 1) = Ok itheta /\
    getitem (full 3 3 0) (astype_int 2) (astype_int 2) = Ok jtheta /\
    length vec = 11%nat /\
    vec = [Helper.dki (0, 0) (1, 1);
           Helper.dki (0, 0) (2, 2);
           arctan2 (0 - 1) (0 - 1) - theta;
           arctan2 (0 - 2) (0 - 2) - theta;
           theta - itheta;
           theta - jtheta;
           2; 3;
           (if Req_dec_T 1 1 then 1 else 0);
           (if Req_dec_T 1 1 then 1 else 0);
           (if Req_dec_T 0 1 then 1 else 0)].
Proof.
  apply (make_feature_vector_fields Helper.dki Rminus (0, 0) 1 (full 3 3 0)
           (mk_ridgecount (1, 1) 1 2 (2, 2) 0 3));
    solve_inside.
Defined.

(** C7, counterexample: a neighbour point outside the orientation field
    makes [make_feature_vector] raise [IndexError]; nothing is returned. *)
Lemma make_feature_vector_raises :
  exists self,
    FeatureBase_init (0, 0) 1 (full 3 3 0) = Ok self /\
    forall (helper_dki : point -> point -> R) (helper_dfi : R -> R -> R),
      make_feature_vector helper_dki helper_dfi self
        (mk_ridgecount (5, 5) 1 2 (2, 2) 0 3) = Raise IndexError.
Proof.
  eexists. split.
  - unfold FeatureBase_init, getitem, astype_int. cbn [fst snd].
    rewrite !trunc_IZR. reflexivity.
  - intros helper_dki helper_dfi.
    unfold make_feature_vector, getitem, astype_int.
    cbn [fst snd rc_ki rc_kj fb_orientations].
    rewrite !trunc_IZR. reflexivity.
Qed.

(** C8: the [dki] and [dkj] fields of the returned vector are the Euclidean
    distances from the minutia point to the neighbour points [ki] and [kj]
    ([helper.dki] as the spec describes it). *)
Theorem make_feature_vector_distances
  (helper_dfi : R -> R -> R)
  (p : point) (type : R) (orientations : ndarray) (rc : ridgecount)
  (self : FeatureBase) (vec : list R) :
  FeatureBase_init p type orientations = Ok self ->
  make_feature_vector Helper.dki helper_dfi self rc = Ok vec ->
  nth 0 vec 0 =
    sqrt ((fst p - fst (rc_ki rc)) ^ 2 + (snd p - snd (rc_ki rc)) ^ 2) /\
  nth 1 vec 0 =
    sqrt ((fst p - fst (rc_kj rc)) ^ 2 + (snd p - snd (rc_kj rc)) ^ 2).
Proof.
  intros Hself Hvec.
  destruct (FeatureBase_init_inv _ _ _ _ Hself) as (Hp & _ & _).
  destruct (make_feature_vector_inv _ _ _ _ _ Hvec)
    as (fiki & fikj & phiki & phikj & ->).
  rewrite Hp. cbn [nth]. unfold Helper.dki. split; reflexivity.
Qed.

Lemma make_feature_vector_distances_witness :
  exists self vec,
    FeatureBase_init (0, 0) 1 (full 5 5 0) = Ok self /\
    make_feature_vector Helper.dki Rminus self
      (mk_ridgecount (3, 4) 1 2 (0, 2) 0 3) = Ok vec /\
    nth 0 vec 0 = sqrt ((0 - 3) ^ 2 + (0 - 4) ^ 2) /\
    nth 1 vec 0 = sqrt ((0 - 0) ^ 2 + (0 - 2) ^ 2).
Proof.
  assert (Hp : indexes_inside (full 5 5 0) (0, 0)) by solve_inside.
  destruct (FeatureBase_init_ok (0, 0) 1 (full 5 5 0) Hp) as [theta Hself].
  assert (Hi : indexes_inside (full 5 5 0) (3, 4)) by solve_inside.
  assert (Hj : indexes_inside (full 5 5 0) (0, 2)) by solve_inside.
  destruct (make_feature_vector_ok Helper.dki Rminus
              {| fb_point := (0, 0); fb_orientations := full 5 5 0;
                 fb_theta := theta; fb_type := is_one 1 |}
              (mk_ridgecount (3, 4) 1 2 (0, 2) 0 3) Hi Hj)
    as [vec Hvec].
  eexists. exists vec. split; [ exact Hself | ]. split; [ exact Hvec | ].
  exact (make_feature_vector_distances Rminus (0, 0) 1 (full 5 5 0)
           (mk_ridgecount (3, 4) 1 2 (0, 2) 0 3) _ vec Hself Hvec).
Defined.

(** ** get_features *)

Section BatchProperties.

Variable helper_dki : point -> point -> R.
Variable helper_dfi : R -> R -> R.

Lemma list_getitem_ok {A : Type} (l : list A) (i : nat) (a : A) :
  list_getitem l i = Ok a <-> nth_error l i = Some a.
Proof.
  unfold list_getitem. destruct (nth_error l i); split; intros H;
    try discriminate; injection H as <-; reflexivity.
Qed.

(** One pass of the loop body is [feature_of] on the element the index
    selects. *)
Lemma get_features_from_step (i : nat) (p : minutia) (rest : list minutia)
  (vector : list ridgecount) (orientations : ndarray) (acc : list (list R))
  (rc : ridgecount) :
  nth_error vector i = Some rc ->
  get_features_from helper_dki helper_dfi i (p :: rest) vector orientations acc =
  (vec <- feature_of helper_dki helper_dfi orientations p rc ;;
   get_features_from helper_dki helper_dfi (S i) rest vector orientations
     (acc ++ [vec])).
Proof.
  intros Hrc. cbn [get_features_from]. unfold feature_of.
  destruct (FeatureBase_init _ _ _) as [feature | e]; [ | reflexivity ].
  cbn [bind]. unfold list_getitem. rewrite Hrc. reflexivity.
Qed.

Lemma get_features_from_ok (fincoords : list minutia) :
  forall (i : nat) (vector : list ridgecount) (orientations : ndarray)
         (acc out : list (list R)),
    (i + length fincoords <= length vector)%nat ->
    get_features_from helper_dki helper_dfi i fincoords vector orientations acc
      = Ok out ->
    exists vs,
      out = acc ++ vs /\ length vs = length fincoords /\
      forall k p rc,
        nth_error fincoords k = Some p ->
        nth_error vector (i + k) = Some rc ->
        exists vec,
          feature_of helper_dki helper_dfi orientations p rc = Ok vec /\
          nth_error vs k = Some vec.
Proof.
  induction fincoords as [ | p rest IH]; intros i vector orientations acc out Hlen H.
  - cbn in H. injection H as <-. exists []. rewrite app_nil_r.
    split; [ reflexivity | ]. split; [ reflexivity | ].
    intros k q rc Hk. destruct k; discriminate.
  - cbn [length] in Hlen.
    destruct (nth_error vector i) as [rc | ] eqn:Erc.
    2: { apply nth_error_None in Erc. lia. }
    rewrite (get_features_from_step _ _ _ _ _ _ rc Erc) in H.
    destruct (feature_of helper_dki helper_dfi orientations p rc)
      as [vec | e] eqn:Ev; [ | discriminate ].
    cbn [bind] in H.
    destruct (IH (S i) vector orientations (acc ++ [vec]) out ltac:(lia) H)
      as (vs & Eout & Hvs & Hnth).
    exists (vec :: vs). split; [ | split ].
    + rewrite Eout, <- app_assoc. reflexivity.
    + cbn [length]. lia.
    + intros k q rc' Hk Hrc'. destruct k as [ | k].
      * cbn in Hk. injection Hk as <-.
        rewrite Nat.add_0_r in Hrc'. rewrite Erc in Hrc'. injection Hrc' as <-.
        exists vec. split; [ exact Ev | reflexivity ].
      * cbn in Hk. apply (Hnth k q rc' Hk).
        rewrite <- Hrc'. f_equal. lia.
Qed.

Lemma get_features_from_returns (fincoords : list minutia) :
  forall (i : nat) (vector : list ridgecount) (orientations : ndarray)
         (acc : list (list R)),
    (i + length fincoords <= length vector)%nat ->
    (forall k p rc,
       nth_error fincoords k = Some p ->
       nth_error vector (i + k) = Some rc ->
       exists vec, feature_of helper_dki helper_dfi orientations p rc = Ok vec) ->
    exists out,
      get_features_from helper_dki helper_dfi i fincoords vector orientations acc
        = Ok out.
Proof.
  induction fincoords as [ | p rest IH]; intros i vector orientations acc Hlen H.
  - eexists. reflexivity.
  - cbn [length] in Hlen.
    destruct (nth_error vector i) as [rc | ] eqn:Erc.
    2: { apply nth_error_None in Erc. lia. }
    rewrite (get_features_from_step _ _ _ _ _ _ rc Erc).
    destruct (H 0%nat p rc eq_refl) as [vec Ev];
      [ rewrite Nat.add_0_r; exact Erc | ].
    rewrite Ev. cbn [bind].
    apply IH; [ lia | ].
    intros k q rc' Hk Hrc'. apply (H (S k) q rc' Hk).
    rewrite <- Hrc'. f_equal. lia.
Qed.

End BatchProperties.

Lemma feature_of_returns
  (helper_dki : point -> point -> R) (helper_dfi : R -> R -> R)
  (orientations : ndarray) (p : minutia) (rc : ridgecount) :
  indexes_inside orientations (m_x p, m_y p) ->
  indexes_inside orientations (rc_ki rc) ->
  indexes_inside orientations (rc_kj rc) ->
  exists vec, feature_of helper_dki helper_dfi orientations p rc = Ok vec.
Proof.
  intros Hp Hi Hj. unfold feature_of.
  destruct (FeatureBase_init_ok (m_x p, m_y p) (m_type p) orientations Hp)
    as [theta ->].
  cbn [bind]. apply make_feature_vector_ok; assumption.
Qed.

Lemma get_features_ok
  (helper_dki : point -> point -> R) (helper_dfi : R -> R -> R)
  (fincoords : list minutia) (vector : list ridgecount)
  (orientations : ndarray) (features : list (list R)) :
  length fincoords = length vector ->
  get_features helper_dki helper_dfi fincoords vector orientations = Ok features ->
  length features = length fincoords /\
  forall i p rc,
    nth_error fincoords i = Some p -> nth_error vector i = Some rc ->
    exists vec,
      feature_of helper_dki helper_dfi orientations p rc = Ok vec /\
      nth_error features i = Some vec.
Proof.
  intros Hlen H. unfold get_features in H.
  destruct (get_features_from_ok helper_dki helper_dfi fincoords 0 vector
              orientations [] features ltac:(lia) H) as (vs & E & Hvs & Hnth).
  cbn [app] in E. subst vs. split; [ exact Hvs | exact Hnth ].
Qed.

(** C9 (amended): for equal-length sequences of N minutiae and N ridge-count
    records and a shared orientation field, [get_features] returns when
    every minutia and every neighbour point indexes inside the field; when it
    returns, it returns exactly N vectors and the i-th one is the vector of
    the i-th minutia and the i-th record over that field alone, so that two
    successful calls that agree on the i-th minutia and i-th record agree on
    the i-th output. *)
Theorem get_features_batch
  (helper_dki : point -> point -> R) (helper_dfi : R -> R -> R)
  (fincoords : list minutia) (vector : list ridgecount)
  (orientations : ndarray) :
  length fincoords = length vector ->
  ((forall i p rc,
      nth_error fincoords i = Some p -> nth_error vector i = Some rc ->
      indexes_inside orientations (m_x p, m_y p) /\
      indexes_inside orientations (rc_ki rc) /\
      indexes_inside orientations (rc_kj rc)) ->
   exists features,
     get_features helper_dki helper_dfi fincoords vector orientations
       = Ok features) /\
  (forall features,
     get_features helper_dki helper_dfi fincoords vector orientations
       = Ok features ->
     length features = length fincoords /\
     (forall i p rc,
        nth_error fincoords i = Some p -> nth_error vector i = Some rc ->
        exists vec,
          feature_of helper_dki helper_dfi orientations p rc = Ok vec /\
          nth_error features i = Some vec) /\
     (forall fincoords' vector' features' i p rc,
        length fincoords' = length vector' ->
        get_features helper_dki helper_dfi fincoords' vector' orientations
          = Ok features' ->
        nth_error fincoords i = Some p -> nth_error fincoords' i = Some p ->
        nth_error vector i = Some rc -> nth_error vector' i = Some rc ->
        nth_error features i = nth_error features' i)).
Proof.
  intros Hlen. split.
  - intros Hin. unfold get_features.
    apply get_features_from_returns; [ lia | ].
    intros k p rc Hp Hrc.
    destruct (Hin k p rc Hp Hrc) as (H1 & H2 & H3).
    apply feature_of_returns; assumption.
  - intros features H.
    destruct (get_features_ok _ _ _ _ _ _ Hlen H) as [HN Hnth].
    split; [ exact HN | ]. split; [ exact Hnth | ].
    intros fincoords' vector' features' i p rc Hlen' H' Hp Hp' Hrc Hrc'.
    destruct (get_features_ok _ _ _ _ _ _ Hlen' H') as [_ Hnth'].
    destruct (Hnth i p rc Hp Hrc) as (vec & Ev & ->).
    destruct (Hnth' i p rc Hp' Hrc') as (vec' & Ev' & ->).
    congruence.
Qed.

Lemma get_features_batch_witness :
  exists features,
    get_features Helper.dki Rminus
      [mk_minutia 0 0 1; mk_minutia 1 2 0]
      [mk_ridgecount (1, 1) 1 2 (2, 2) 0 3; mk_ridgecount (0, 1) 0 1 (2, 0) 1 4]
      (full 3 3 0) = Ok features /\
    length features = 2%nat.
Proof.
  destruct (get_features_batch Helper.dki Rminus
              [mk_minutia 0 0 1; mk_minutia 1 2 0]
              [mk_ridgecount (1, 1) 1 2 (2, 2) 0 3;
               mk_ridgecount (0, 1) 0 1 (2, 0) 1 4]
              (full 3 3 0) eq_refl) as [Hret Hok].
  destruct Hret as [features Hf].
  { intros i p rc Hp Hrc.
    destruct i as [ | [ | i]]; cbn in Hp, Hrc;
      [ | | destruct i; discriminate ];
      injection Hp as <-; injection Hrc as <-;
      repeat split; solve_inside. }
  exists features. split; [ exact Hf | ].
  exact (proj1 (Hok features Hf)).
Defined.

(** C9, counterexample: with the second minutia replaced by one outside the
    field, the call on two minutiae and two records raises [IndexError] and
    returns no vector at all, while the call on the original pair of
    sequences returns two. *)
Lemma get_features_raises :
  let vector := [mk_ridgecount (1, 1) 1 2 (2, 2) 0 3;
                 mk_ridgecount (0, 1) 0 1 (2, 0) 1 4] in
  let orientations := full 3 3 0 in
  length [mk_minutia 0 0 1; mk_minutia 7 2 0] = length vector /\
  (forall (helper_dki : point -> point -> R) (helper_dfi : R -> R -> R),
     get_features helper_dki helper_dfi
       [mk_minutia 0 0 1; mk_minutia 7 2 0] vector orientations
     = Raise IndexError) /\
  (forall (helper_dki : point -> point -> R) (helper_dfi : R -> R -> R),
     exists v0 v1,
       get_features helper_dki helper_dfi
         [mk_minutia 0 0 1; mk_minutia 1 2 0] vector orientations
       = Ok [v0; v1]).
Proof.
  intros vector orientations. split; [ reflexivity | ]. split.
  - intros helper_dki helper_dfi.
    unfold get_features, vector, orientations.
    cbn [get_features_from].
    unfold FeatureBase_init, make_feature_vector, getitem, astype_int.
    cbn [fst snd m_x m_y m_type rc_ki rc_kj fb_orientations].
    repeat (rewrite !trunc_IZR; cbn). reflexivity.
  - intros helper_dki helper_dfi.
    unfold get_features, vector, orientations.
    cbn [get_features_from].
    unfold FeatureBase_init, make_feature_vector, getitem, astype_int.
    cbn [fst snd m_x m_y m_type rc_ki rc_kj fb_orientations].
    repeat (rewrite !trunc_IZR; cbn). do 2 eexists. reflexivity.
Qed.

(** ** Worked examples *)

(** A square block turned by [pi/2] is cropped to the whole canvas. *)
Example rotatedRectWithMaxArea_square :
  exists crop,
    rotatedRectWithMaxArea (fun _ _ _ _ => 0) (full 16 16 1) (PI / 2) = Ok crop /\
    shape crop = (16%nat, 16%nat).
Proof.
  pose proof (crop_dims_quarter_turn 16 16 ltac:(lia) ltac:(lia)) as Hd.
  eexists. split.
  - apply (rotatedRectWithMaxArea_finite _ (full 16 16 1) _ _ _ Hd).
  - rewrite !trunc_IZR. reflexivity.
Qed.

Lemma spacing_two_peaks : spacing [2; 10]%Z = 8.
Proof. unfold spacing. cbn [last hd length Nat.sub INR]. simpl Z.sub. lra. Qed.

(** Two peaks at columns 2 and 10 give the local estimate 1/8. *)
Example local_frequency_eighth :
  local_frequency (fun _ _ _ _ => 0) (fun _ => [2; 10]%Z) ramp (full 3 3 0) 3 0 0
  = Ok (1 / 8).
Proof.
  unfold local_frequency.
  change (0 * 3 + 3 / 2)%nat with 1%nat.
  rewrite getitem_inside by (cbn; lia). cbn [bind get full].
  rewrite Rplus_0_r.
  set (block := slice ramp _ _ _ _).
  assert (Hd : crop_dims (Z.of_nat (nrows block)) (Z.of_nat (ncols block)) (PI / 2)
               = (Py.Finite (IZR 3), Py.Finite (IZR 3))).
  { change (Z.of_nat (nrows block)) with 3%Z.
    change (Z.of_nat (ncols block)) with 3%Z.
    apply crop_dims_quarter_turn; lia. }
  rewrite (rotatedRectWithMaxArea_finite _ _ _ _ _ Hd). cbn [bind].
  rewrite !trunc_IZR.
  set (window := slice _ _ _ _ _).
  change (size window) with 9%nat. cbn [Nat.eqb].
  destruct (normalize_returns (sum_axis0 window)) as [columns ->].
  { apply sum_axis0_nonempty. change (size window) with 9%nat. lia. }
  cbn [bind length Nat.ltb Nat.leb].
  rewrite spacing_two_peaks.
  destruct (Rlt_dec 8 5); [ lra | ].
  destruct (Rlt_dec 15 8); [ lra | ].
  reflexivity.
Qed.

Lemma sum_repeat (v : R) (n : nat) : Np.sum (repeat v n) = INR n * v.
Proof.
  induction n as [ | n IH].
  - simpl. ring.
  - cbn [repeat Np.sum fold_right]. fold (Np.sum (repeat v n)).
    rewrite IH, S_INR. ring.
Qed.

Lemma mean_repeat (v : R) (n : nat) : mean (repeat v (S n)) = v.
Proof.
  unfold mean. rewrite sum_repeat, repeat_length.
  field. apply not_0_INR. discriminate.
Qed.

(** With that peak detector the whole frequency field of the ramp image is
    1/8. *)
Example getFrequencies_eighth :
  exists frequencies,
    getFrequencies (fun _ _ => 0) (fun _ _ _ _ => 0) (fun _ => [2; 10]%Z)
      ramp (full 3 3 0) 3 = Ok frequencies /\
    forall r c, (r < 3)%nat -> (c < 3)%nat -> get frequencies r c = 1 / 8.
Proof.
  destruct (getFrequencies_returns (fun _ _ => 0) (fun _ _ _ _ => 0)
              (fun _ => [2; 10]%Z) ramp (full 3 3 0) 3)
    as [frequencies Hf]; [ lia | cbn; lia | cbn; lia | cbn; lia | cbn; lia | ].
  exists frequencies. split; [ exact Hf | ].
  destruct (getFrequencies_ok _ _ _ _ _ _ _ Hf)
    as (_ & _ & _ & _ & F & HF & _ & Hget).
  change (nrows ramp / 3)%nat with 1%nat in *.
  change (ncols ramp / 3)%nat with 1%nat in *.
  destruct (local_frequencies_ok _ _ _ _ _ _ _ _ _ HF) as [_ Hcell].
  pose proof (Hcell 0%nat 0%nat ltac:(lia) ltac:(lia)) as H00.
  rewrite local_frequency_eighth in H00. injection H00 as H00.
  intros r c Hr Hc. rewrite Hget.
  replace (r / 3)%nat with 0%nat by (symmetry; apply Nat.div_small; lia).
  replace (c / 3)%nat with 0%nat by (symmetry; apply Nat.div_small; lia).
  cbn [Nat.ltb Nat.leb andb].
  change (neighbours F 1 1 0 0) with (repeat (get F 0 0) 49).
  rewrite <- H00.
  assert (Hk : filter not_sentinel (repeat (1 / 8) 49) = repeat (1 / 8) 49).
  { apply forallb_filter_id. apply forallb_forall. intros v Hv.
    apply repeat_spec in Hv. subst v. unfold not_sentinel.
    destruct (Req_dec_T (1 / 8) (-1)); [ lra | reflexivity ]. }
  cbv zeta. rewrite Hk, repeat_length. cbn [Nat.eqb].
  apply mean_repeat.
Qed.

(** * Further lemmas *)

(** ** rotatedRectWithMaxArea: square blocks *)

Lemma trunc_ge (r : R) (z : Z) : 0 <= r -> IZR z <= r -> (z <= Py.trunc r)%Z.
Proof.
  intros H0 Hz. unfold Py.trunc. destruct (Rle_dec 0 r) as [_ | N]; [ | tauto ].
  destruct (base_Int_part r) as [_ H2].
  apply Z.lt_succ_r. apply lt_IZR. rewrite succ_IZR. lra.
Qed.

(** Both regimes give the same side for both dimensions of a square, at
    least half the side [W]. *)
Lemma square_ratio_lower (s c W q : R) :
  0 <= s -> 0 <= c -> s * s + c * c = 1 -> 0 < W ->
  (W <= 2 * s * c * W -> (q = (1 / 2 * W) / s \/ q = (1 / 2 * W) / c)) ->
  (~ W <= 2 * s * c * W -> q = (W * c - W * s) / (c * c - s * s)) ->
  W / 2 <= q.
Proof.
  intros Hs Hc Hone HW Hhalf Hfull.
  assert (Hs1 : s <= 1) by nra. assert (Hc1 : c <= 1) by nra.
  destruct (Rle_dec W (2 * s * c * W)) as [H | H].
  - assert (Hsc : 1 <= 2 * s * c) by nra.
    assert (E : s = c) by nra.
    subst s. assert (Hcpos : 1 / 2 <= c) by nra.
    assert (Hq : q = (1 / 2 * W) / c) by (destruct (Hhalf H); assumption).
    assert (Hqc : q * c = 1 / 2 * W) by (rewrite Hq; field; lra).
    nra.
  - assert (Hsc : 2 * s * c < 1) by nra.
    assert (Hne : c * c - s * s <> 0).
    { intros Z. apply H. apply (cos_2a_zero_half_constrained s c W W); lra. }
    assert (Hq : q * (c * c - s * s) = W * c - W * s)
      by (rewrite (Hfull H); field; exact Hne).
    assert (Hcs : c - s <> 0) by (intros Z; apply Hne; nra).
    assert (Hq' : q * (c + s) = W).
    { apply Rmult_eq_reg_r with (c - s); [ | exact Hcs ]. nra. }
    assert (Hsum : 1 <= c + s) by nra.
    nra.
Qed.

Lemma crop_dims_square_equal (w : Z) (angle : R) :
  (0 < w)%Z ->
  exists q,
    crop_dims w w angle = (Py.Finite q, Py.Finite q) /\
    IZR w / 2 <= q <= IZR w.
Proof.
  intros Hw.
  destruct (crop_dims_finite w w angle Hw Hw) as (wr & hr & Hd).
  assert (HW : 0 < IZR w) by (apply IZR_lt; exact Hw).
  pose proof (Rabs_pos (sin angle)) as Hs.
  pose proof (Rabs_pos (cos angle)) as Hc.
  pose proof (abs_sin_cos_sqr angle) as Hone.
  unfold crop_dims in *. rewrite Z.leb_refl in *.
  set (s := Rabs (sin angle)) in *. set (c := Rabs (cos angle)) in *.
  destruct (Rle_dec (IZR w) (2 * s * c * IZR w)) as [H | H].
  - destruct (half_constrained_divisors s c (IZR w) (IZR w) Hs Hc HW
                ltac:(lra) H) as [Hs0 Hc0].
    assert (Hsc : 1 <= 2 * s * c) by nra.
    assert (E : s = c) by nra.
    rewrite <- E. rewrite !np_div_finite by lra.
    eexists. split; [ reflexivity | ].
    split.
    + apply (square_ratio_lower s c (IZR w)); auto; tauto.
    + apply (square_ratio_bounds s c (IZR w)); auto; tauto.
  - assert (Hne : c * c - s * s <> 0).
    { intros Z. apply H. apply cos_2a_zero_half_constrained; lra. }
    rewrite !np_div_finite by exact Hne.
    eexists. split; [ reflexivity | ].
    split.
    + apply (square_ratio_lower s c (IZR w)); auto; tauto.
    + apply (square_ratio_bounds s c (IZR w)); auto; tauto.
Qed.

Lemma square_window rc (image : ndarray) (angle : R) :
  nrows image = ncols image -> (2 <= nrows image)%nat ->
  exists (crop : ndarray) (d : nat),
    rotatedRectWithMaxArea rc image angle = Ok crop /\
    (nrows image / 2 <= d <= nrows image)%nat /\
    shape crop = (d, d) /\
    centred_rectangle (ndimage_rotate rc image (degrees angle)) crop
      (Z.of_nat d) (Z.of_nat d).
Proof.
  intros Hsq Hw.
  set (w := Z.of_nat (nrows image)).
  destruct (crop_dims_square_equal w angle ltac:(unfold w; lia)) as (q & Hd & Hlo & Hhi).
  assert (HW : 2 <= IZR w) by (apply (IZR_le 2); unfold w; lia).
  assert (Hq0 : 0 <= q) by lra.
  assert (Ht1 : (w / 2 <= Py.trunc q)%Z).
  { apply trunc_ge; [ exact Hq0 | ].
    apply Rle_trans with (IZR w / 2); [ | exact Hlo ].
    pose proof (Z.mul_div_le w 2 ltac:(lia)) as M. apply IZR_le in M.
    rewrite mult_IZR in M. lra. }
  assert (Ht2 : (Py.trunc q <= w)%Z) by (apply trunc_le; assumption).
  assert (Ht0 : (0 < Py.trunc q)%Z).
  { assert (1 <= w / 2)%Z by (apply Z.div_le_lower_bound; unfold w; lia). lia. }
  assert (Hd' : crop_dims (Z.of_nat (nrows image)) (Z.of_nat (ncols image)) angle
                = (Py.Finite q, Py.Finite q)) by (rewrite <- Hsq; exact Hd).
  pose proof (rotatedRectWithMaxArea_finite rc image angle q q Hd') as Hret.
  cbv zeta in Hret.
  set (crop := slice _ _ _ _ _) in Hret.
  exists crop, (Z.to_nat (Py.trunc q)).
  rewrite Z2Nat.id by lia.
  assert (Hc : centred_rectangle (ndimage_rotate rc image (degrees angle)) crop
                 (Py.trunc q) (Py.trunc q)).
  { pose proof (slice_bounds_fit (nrows image) (Py.trunc q)
                  ltac:(fold w; lia)) as E1.
    pose proof (slice_bounds_fit (ncols image) (Py.trunc q)
                  ltac:(rewrite <- Hsq; fold w; lia)) as E2.
    cbv zeta in E1, E2.
    unfold centred_rectangle, crop.
    rewrite slice_nrows, slice_ncols. cbn [nrows ncols ndimage_rotate].
    rewrite E1, E2. cbn [snd].
    split; [ reflexivity | ]. split; [ reflexivity | ].
    intros i j. rewrite slice_get. cbn [nrows ncols ndimage_rotate].
    rewrite E1, E2. reflexivity. }
  split; [ exact Hret | ]. split; [ | split; [ | exact Hc ] ].
  - split.
    + apply Nat2Z.inj_le. rewrite Nat2Z.inj_div, Z2Nat.id by lia. exact Ht1.
    + apply Nat2Z.inj_le. rewrite Z2Nat.id by lia. exact Ht2.
  - destruct Hc as (Hr & Hcc & _). unfold shape. rewrite Hr, Hcc. reflexivity.
Qed.

Section WindowNonEmpty.
Variable rotate_cells : ndarray -> R -> nat -> nat -> R.
Variable find_peaks_cwt : list R -> list Z.

Lemma window_of_square (image orientations : ndarray) (w x y : nat) (window : ndarray) :
  (2 <= w)%nat ->
  ((x + 1) * w <= nrows image)%nat -> ((y + 1) * w <= ncols image)%nat ->
  window_of rotate_cells image orientations w x y = Ok window ->
  exists d : nat, shape window = (d, d) /\ (w / 2 <= d <= w)%nat.
Proof.
  intros Hw Hx Hy. unfold window_of.
  destruct (getitem orientations _ _) as [orientation | e]; [ | discriminate ].
  cbn [bind].
  pose proof (block_shape image w x y Hx Hy) as Hs.
  set (block := slice image _ _ _ _) in *.
  assert (Hr : nrows block = w) by (unfold shape in Hs; congruence).
  assert (Hc : ncols block = w) by (unfold shape in Hs; congruence).
  destruct (square_window rotate_cells block (PI / 2 + orientation))
    as (crop & d & Hret & Hd & Hshape & _).
  { congruence. }
  { lia. }
  rewrite Hret. intros E. injection E as <-.
  exists d. split; [ exact Hshape | ]. rewrite Hr in Hd. exact Hd.
Qed.

End WindowNonEmpty.

(** ** getOrientations and getFrequencies: the outcomes *)

Section OrientationErrors.
Variable junk : nat -> nat -> R.
Variable GaussianBlur_cells : ndarray -> nat -> nat -> R.
Variable Sobel_cells : ndarray -> nat -> nat -> nat -> nat -> R.

Lemma pad_edge_empty (a : ndarray) (k : nat) :
  nrows a = 0%nat \/ ncols a = 0%nat -> pad_edge a k = Raise ValueError.
Proof.
  intros H. unfold pad_edge.
  destruct (Nat.eqb_spec (nrows a) 0); [ reflexivity | ].
  destruct (Nat.eqb_spec (ncols a) 0); [ reflexivity | ].
  lia.
Qed.

Lemma getOrientations_small (image : ndarray) (w : nat) :
  (0 < w)%nat -> (nrows image < w)%nat \/ (ncols image < w)%nat ->
  getOrientations junk GaussianBlur_cells Sobel_cells image w = Raise ValueError.
Proof.
  intros Hw Hsmall. unfold getOrientations. cbn [shape].
  rewrite !floordiv_pos by exact Hw. cbn [bind].
  rewrite pad_edge_empty; [ reflexivity | ].
  unfold rotate90. cbn [nrows ncols].
  rewrite block_angles_fill, fill_nrows, fill_ncols. cbn [Np.empty nrows ncols].
  destruct Hsmall as [H | H]; [ left | right ]; apply Nat.div_small; exact H.
Qed.

Lemma getOrientations_zero (image : ndarray) :
  getOrientations junk GaussianBlur_cells Sobel_cells image 0
  = Raise ZeroDivisionError.
Proof. reflexivity. Qed.

End OrientationErrors.

(** X4: on an image that is not empty, [getOrientations] raises
    [ZeroDivisionError] for a block size of 0 and [ValueError] (from
    [np.pad] on an empty grid of blocks) when the image does not hold one
    full block; in every other case it returns a field of the shape of the
    image. *)
Theorem getOrientations_errors junk gb sc (image : ndarray) (w : nat) :
  ((0 < size image)%nat -> w = 0%nat ->
   getOrientations junk gb sc image w = Raise ZeroDivisionError) /\
  ((0 < size image)%nat -> (0 < w)%nat ->
   (nrows image < w)%nat \/ (ncols image < w)%nat ->
   getOrientations junk gb sc image w = Raise ValueError) /\
  ((0 < w)%nat -> (w <= nrows image)%nat -> (w <= ncols image)%nat ->
   exists field,
     getOrientations junk gb sc image w = Ok field /\ shape field = shape image).
Proof.
  split; [ intros _ ->; apply getOrientations_zero | ].
  split; [ intros _; apply getOrientations_small | ].
  intros Hw Hr Hc.
  destruct (getOrientations_returns junk gb sc image w Hw Hr Hc) as [field H].
  exists field. split; [ exact H | ].
  destruct (getOrientations_ok _ _ _ _ _ _ H) as (_ & _ & _ & Hs & _). exact Hs.
Qed.

(** X5: in the field [getOrientations] returns, the pixels outside the
    full blocks (the border rows and columns left when the block size does
    not divide the height or the width) hold -1, and the field is constant
    on every block. *)
Theorem getOrientations_partial_blocks junk gb sc (image : ndarray) (w : nat)
  (field : ndarray) :
  getOrientations junk gb sc image w = Ok field ->
  (forall r c,
     (nrows image / w * w <= r)%nat \/ (ncols image / w * w <= c)%nat ->
     get field r c = -1) /\
  (forall r c r' c',
     (r / w = r' / w)%nat -> (c / w = c' / w)%nat ->
     get field r c = get field r' c').
Proof.
  intros H.
  destruct (getOrientations_ok _ _ _ _ _ _ H) as (Hw & _ & _ & _ & orien & _ & _ & Hget).
  split.
  - intros r c Hout. rewrite Hget.
    destruct (Nat.ltb_spec (r / w) (nrows image / w)) as [Hr | Hr];
      destruct (Nat.ltb_spec (c / w) (ncols image / w)) as [Hc | Hc];
      cbn [andb]; try reflexivity.
    exfalso. destruct Hout as [Ho | Ho].
    + apply (Nat.Div0.div_le_mono _ _ w) in Ho. rewrite Nat.div_mul in Ho by lia. lia.
    + apply (Nat.Div0.div_le_mono _ _ w) in Ho. rewrite Nat.div_mul in Ho by lia. lia.
  - intros r c r' c' Hr Hc. rewrite !Hget, Hr, Hc. reflexivity.
Qed.

Lemma getOrientations_partial_blocks_witness :
  exists field,
    getOrientations (fun _ _ => 0) Cv2.GaussianBlur_cells Cv2.Sobel_cells
      (full 4 4 0) 3 = Ok field /\
    get field 3 0 = -1 /\ get field 0 0 = get field 2 2.
Proof.
  destruct (getOrientations_returns (fun _ _ => 0) Cv2.GaussianBlur_cells
              Cv2.Sobel_cells (full 4 4 0) 3) as [field Hfield];
    [ lia | cbn; lia | cbn; lia | ].
  destruct (getOrientations_partial_blocks _ _ _ (full 4 4 0) 3 field Hfield)
    as [Hout Hblock].
  exists field. split; [ exact Hfield | ]. split.
  - apply Hout. left. cbn. lia.
  - apply Hblock; reflexivity.
Defined.

Lemma index_outside (len i : nat) :
  (len <= i)%nat -> Py.index len (Z.of_nat i) = Raise IndexError.
Proof.
  intros H. unfold Py.index.
  destruct (Z.ltb_spec (Z.of_nat i) (- Z.of_nat len)); [ reflexivity | ].
  destruct (Z.ltb_spec (Z.of_nat i) 0); [ lia | ].
  destruct (Z.ltb_spec (Z.of_nat i) (Z.of_nat len)); [ lia | reflexivity ].
Qed.

Lemma getitem_outside (a : ndarray) (i j : nat) :
  (nrows a <= i)%nat \/ (ncols a <= j)%nat ->
  getitem a (Z.of_nat i) (Z.of_nat j) = Raise IndexError.
Proof.
  intros H. unfold getitem.
  destruct (Nat.lt_ge_cases i (nrows a)) as [Hi | Hi].
  - rewrite (index_inside _ _ Hi). cbn [bind].
    rewrite index_outside by lia. reflexivity.
  - rewrite (index_outside _ _ Hi). reflexivity.
Qed.

Lemma store_row_outcome (g : nat -> result R) (e : exn) (x m : nat) (F0 : ndarray) :
  (forall y, (y < m)%nat -> (exists v, g y = Ok v) \/ g y = Raise e) ->
  (exists F1,
     for_each (Py.range m) (fun y F => v <- g y ;; Ok (Np.set F x y v)) F0 = Ok F1) \/
  for_each (Py.range m) (fun y F => v <- g y ;; Ok (Np.set F x y v)) F0 = Raise e.
Proof.
  induction m as [ | m IH]; intros H.
  - left. eexists. reflexivity.
  - rewrite range_S, for_each_app.
    destruct IH as [[F E] | E]; [ intros; apply H; lia | | ]; rewrite E; cbn [bind for_each].
    + destruct (H m ltac:(lia)) as [[v Ev] | Ev]; rewrite Ev; cbn [bind].
      * left. eexists. reflexivity.
      * right. reflexivity.
    + right. reflexivity.
Qed.

Lemma store_grid_outcome (g : nat -> nat -> result R) (e : exn) (n m : nat)
  (F0 : ndarray) :
  (forall x y, (x < n)%nat -> (y < m)%nat ->
     (exists v, g x y = Ok v) \/ g x y = Raise e) ->
  (exists F1,
     for_each (Py.range n)
       (fun x F =>
          for_each (Py.range m) (fun y F => v <- g x y ;; Ok (Np.set F x y v)) F)
       F0 = Ok F1) \/
  for_each (Py.range n)
    (fun x F =>
       for_each (Py.range m) (fun y F => v <- g x y ;; Ok (Np.set F x y v)) F)
    F0 = Raise e.
Proof.
  induction n as [ | n IH]; intros H.
  - left. eexists. reflexivity.
  - rewrite range_S, for_each_app.
    destruct IH as [[F E] | E]; [ intros; apply H; lia | | ]; rewrite E; cbn [bind for_each].
    + destruct (store_row_outcome (g n) e n m F) as [[F' E'] | E'];
        [ intros; apply H; lia | | ]; rewrite E'; cbn [bind].
      * left. eexists. reflexivity.
      * right. reflexivity.
    + right. reflexivity.
Qed.

Section FrequencyErrors.
Variable junk : nat -> nat -> R.
Variable rotate_cells : ndarray -> R -> nat -> nat -> R.
Variable find_peaks_cwt : list R -> list Z.

(** On a full block the loop body returns when the orientation field holds
    the centre pixel and raises [IndexError] otherwise. *)
Lemma local_frequency_outcome (image orientations : ndarray) (w x y : nat) :
  (0 < w)%nat ->
  ((x + 1) * w <= nrows image)%nat -> ((y + 1) * w <= ncols image)%nat ->
  ((x * w + w / 2 < nrows orientations)%nat ->
   (y * w + w / 2 < ncols orientations)%nat ->
   exists v,
     local_frequency rotate_cells find_peaks_cwt image orientations w x y = Ok v) /\
  ((nrows orientations <= x * w + w / 2)%nat \/
   (ncols orientations <= y * w + w / 2)%nat ->
   local_frequency rotate_cells find_peaks_cwt image orientations w x y
   = Raise IndexError).
Proof.
  intros Hw Hx Hy. split.
  - intros Hr Hc. unfold local_frequency.
    rewrite getitem_inside by assumption. cbn [bind].
    set (block := slice image (Z.of_nat (x * w)) (Z.of_nat ((x + 1) * w))
                               (Z.of_nat (y * w)) (Z.of_nat ((y + 1) * w))).
    pose proof (block_shape image w x y Hx Hy) as Hb. fold block in Hb.
    assert (Hb1 : nrows block = w) by (unfold shape in Hb; congruence).
    assert (Hb2 : ncols block = w) by (unfold shape in Hb; congruence).
    destruct (rotatedRectWithMaxArea_returns rotate_cells block
                (PI / 2 + get orientations (x * w + w / 2) (y * w + w / 2)))
      as [window Hwin]; [ lia | lia | ].
    rewrite Hwin. cbn [bind].
    destruct (Nat.eqb_spec (size window) 0) as [Hsize | Hsize];
      [ eexists; reflexivity | ].
    destruct (normalize_returns (sum_axis0 window) (sum_axis0_nonempty _ Hsize))
      as [columns Hcol].
    rewrite Hcol. cbn [bind].
    destruct (Nat.ltb _ 2); [ eexists; reflexivity | ].
    destruct (Rlt_dec _ 5); [ eexists; reflexivity | ].
    destruct (Rlt_dec 15 _); eexists; reflexivity.
  - intros Hout. unfold local_frequency.
    rewrite getitem_outside by exact Hout. reflexivity.
Qed.

Lemma block_inside (n w x : nat) : (x < n / w)%nat -> ((x + 1) * w <= n)%nat.
Proof.
  intros H. pose proof (Nat.Div0.mul_div_le n w). nia.
Qed.

Lemma local_frequencies_outcome (image orientations : ndarray) (w : nat) :
  (0 < w)%nat ->
  (covered image orientations w ->
   exists F,
     local_frequencies junk rotate_cells find_peaks_cwt image orientations w
       (nrows image / w) (ncols image / w) = Ok F) /\
  ((exists x y, (x < nrows image / w)%nat /\ (y < ncols image / w)%nat /\
      ((nrows orientations <= x * w + w / 2)%nat \/
       (ncols orientations <= y * w + w / 2)%nat)) ->
   local_frequencies junk rotate_cells find_peaks_cwt image orientations w
     (nrows image / w) (ncols image / w) = Raise IndexError).
Proof.
  intros Hw. split.
  - intros Hcov. unfold local_frequencies. apply store_grid_returns.
    intros x y Hx Hy. destruct (Hcov x y Hx Hy) as [Hr Hc].
    apply local_frequency_outcome; auto using block_inside.
  - intros (x & y & Hx & Hy & Hout).
    destruct (store_grid_outcome
                (local_frequency rotate_cells find_peaks_cwt image orientations w)
                IndexError (nrows image / w) (ncols image / w)
                (Np.empty junk (nrows image / w) (ncols image / w)))
      as [[F HF] | HF].
    + intros x' y' Hx' Hy'.
      destruct (local_frequency_outcome image orientations w x' y' Hw
                  (block_inside _ _ _ Hx') (block_inside _ _ _ Hy')) as [Hok Hraise].
      destruct (Nat.lt_ge_cases (x' * w + w / 2) (nrows orientations)) as [A | A];
        [ | right; apply Hraise; left; exact A ].
      destruct (Nat.lt_ge_cases (y' * w + w / 2) (ncols orientations)) as [B | B];
        [ | right; apply Hraise; right; exact B ].
      left. apply Hok; assumption.
    + exfalso.
      destruct (store_grid_ok _ _ _ _ _ HF) as [_ Hcell].
      pose proof (Hcell x y Hx Hy) as E.
      destruct (local_frequency_outcome image orientations w x y Hw
                  (block_inside _ _ _ Hx) (block_inside _ _ _ Hy)) as [_ Hraise].
      rewrite (Hraise Hout) in E. discriminate.
    + exact HF.
Qed.

End FrequencyErrors.

(** X6: the outcomes of [getFrequencies]: [ZeroDivisionError] for a block
    size of 0; [IndexError] when the centre pixel of some full block lies
    outside the orientation field; [ValueError] (from [np.pad]) when the
    image does not hold one full block; and a field of the shape of the
    image when it holds one and the orientation field covers the block
    centres. *)
Theorem getFrequencies_errors junk rc fp (image orientations : ndarray) (w : nat) :
  (w = 0%nat ->
   getFrequencies junk rc fp image orientations w = Raise ZeroDivisionError) /\
  ((0 < w)%nat ->
   (exists x y, (x < nrows image / w)%nat /\ (y < ncols image / w)%nat /\
      ((nrows orientations <= x * w + w / 2)%nat \/
       (ncols orientations <= y * w + w / 2)%nat)) ->
   getFrequencies junk rc fp image orientations w = Raise IndexError) /\
  ((0 < w)%nat -> (nrows image < w)%nat \/ (ncols image < w)%nat ->
   getFrequencies junk rc fp image orientations w = Raise ValueError) /\
  ((0 < w)%nat -> (w <= nrows image)%nat -> (w <= ncols image)%nat ->
   covered image orientations w ->
   exists frequencies,
     getFrequencies junk rc fp image orientations w = Ok frequencies /\
     shape frequencies = shape image).
Proof.
  split; [ intros ->; reflexivity | ].
  split; [ | split ].
  - intros Hw Hout. unfold getFrequencies. cbn [shape].
    rewrite !floordiv_pos by exact Hw. cbn [bind].
    destruct (local_frequencies_outcome junk rc fp image orientations w Hw) as [_ Hr].
    rewrite (Hr Hout). reflexivity.
  - intros Hw Hsmall. unfold getFrequencies. cbn [shape].
    rewrite !floordiv_pos by exact Hw. cbn [bind].
    destruct (local_frequencies_outcome junk rc fp image orientations w Hw) as [Hok _].
    destruct Hok as [F HF].
    { intros x y Hx Hy. exfalso.
      destruct Hsmall as [H | H]; apply Nat.div_small in H; lia. }
    rewrite HF. cbn [bind].
    destruct (local_frequencies_ok _ _ _ _ _ _ _ _ _ HF) as [HsF _].
    unfold shape in HsF. injection HsF as HrF HcF.
    rewrite pad_edge_empty; [ reflexivity | ].
    rewrite HrF, HcF.
    destruct Hsmall as [H | H]; [ left | right ]; apply Nat.div_small; exact H.
  - intros Hw Hr Hc Hcov. unfold getFrequencies. cbn [shape].
    rewrite !floordiv_pos by exact Hw. cbn [bind].
    destruct (local_frequencies_outcome junk rc fp image orientations w Hw) as [Hok _].
    destruct (Hok Hcov) as [F HF]. rewrite HF. cbn [bind].
    destruct (local_frequencies_ok _ _ _ _ _ _ _ _ _ HF) as [HsF _].
    unfold shape in HsF. injection HsF as HrF HcF.
    assert (Hx : (0 < nrows image / w)%nat) by (apply Nat.div_str_pos; lia).
    assert (Hy : (0 < ncols image / w)%nat) by (apply Nat.div_str_pos; lia).
    rewrite pad_edge_ok by lia. cbn [bind]. eexists. split; [ reflexivity | ].
    rewrite tile_shape. reflexivity.
Qed.

(** ** get_features: the records it reads *)

Section BatchMore.
Variable helper_dki : point -> point -> R.
Variable helper_dfi : R -> R -> R.

Lemma index_raises_IndexError (len : nat) (i : Z) (e : exn) :
  Py.index len i = Raise e -> e = IndexError.
Proof.
  unfold Py.index.
  repeat match goal with |- context [if ?b then _ else _] => destruct b end;
    intros H; congruence.
Qed.

Lemma getitem_raises_IndexError (a : ndarray) (i j : Z) (e : exn) :
  getitem a i j = Raise e -> e = IndexError.
Proof.
  unfold getitem.
  destruct (Py.index (nrows a) i) as [r | e1] eqn:E1; cbn [bind].
  - destruct (Py.index (ncols a) j) as [c | e2] eqn:E2; cbn [bind]; intros H.
    + discriminate.
    + injection H as <-. apply (index_raises_IndexError _ _ _ E2).
  - intros H. injection H as <-. apply (index_raises_IndexError _ _ _ E1).
Qed.

Lemma FeatureBase_init_raises_IndexError (p : point) (t : R) (o : ndarray) (e : exn) :
  FeatureBase_init p t o = Raise e -> e = IndexError.
Proof.
  unfold FeatureBase_init.
  destruct (getitem o _ _) as [theta | e1] eqn:E1; cbn [bind]; intros H.
  - discriminate.
  - injection H as <-. apply (getitem_raises_IndexError _ _ _ _ E1).
Qed.

Lemma make_feature_vector_raises_IndexError (self : FeatureBase)
  (rc : ridgecount) (e : exn) :
  make_feature_vector helper_dki helper_dfi self rc = Raise e -> e = IndexError.
Proof.
  unfold make_feature_vector. cbv zeta.
  destruct (getitem (fb_orientations self) (astype_int (fst (rc_ki rc)))
              (astype_int (snd (rc_ki rc)))) as [it | e2] eqn:E2; cbn [bind].
  2: { intros H. replace e with e2 by congruence.
       apply (getitem_raises_IndexError _ _ _ _ E2). }
  destruct (getitem (fb_orientations self) (astype_int (fst (rc_kj rc)))
              (astype_int (snd (rc_kj rc)))) as [jt | e3] eqn:E3; cbn [bind].
  2: { intros H. replace e with e3 by congruence.
       apply (getitem_raises_IndexError _ _ _ _ E3). }
  discriminate.
Qed.

(** The loop reads [vector] only at the indices [i], ..., [i + N - 1]. *)
Lemma get_features_from_prefix (fincoords : list minutia) :
  forall (i : nat) (vector more : list ridgecount) (orientations : ndarray)
         (acc : list (list R)),
    (i + length fincoords <= length vector)%nat ->
    get_features_from helper_dki helper_dfi i fincoords (vector ++ more)
      orientations acc =
    get_features_from helper_dki helper_dfi i fincoords vector orientations acc.
Proof.
  induction fincoords as [ | p rest IH]; intros i vector more orientations acc Hlen.
  - reflexivity.
  - cbn [length] in Hlen. cbn [get_features_from].
    destruct (FeatureBase_init _ _ _) as [feature | e]; [ | reflexivity ].
    cbn [bind]. unfold list_getitem.
    rewrite nth_error_app1 by lia.
    destruct (nth_error vector i) as [rc | ]; [ | reflexivity ].
    cbn [bind].
    destruct (make_feature_vector _ _ _ _) as [vec | e]; [ | reflexivity ].
    cbn [bind]. apply IH. lia.
Qed.

(** With too few records the loop raises [IndexError]. *)
Lemma get_features_from_short (fincoords : list minutia) :
  forall (i : nat) (vector : list ridgecount) (orientations : ndarray)
         (acc : list (list R)),
    (i <= length vector)%nat ->
    (length vector < i + length fincoords)%nat ->
    get_features_from helper_dki helper_dfi i fincoords vector orientations acc
    = Raise IndexError.
Proof.
  induction fincoords as [ | p rest IH]; intros i vector orientations acc Hi Hlen.
  - cbn [length] in Hlen. lia.
  - cbn [length] in Hlen. cbn [get_features_from].
    destruct (FeatureBase_init _ _ _) as [feature | e] eqn:Ei.
    2: { rewrite (FeatureBase_init_raises_IndexError _ _ _ _ Ei). reflexivity. }
    cbn [bind]. unfold list_getitem.
    destruct (nth_error vector i) as [rc | ] eqn:Erc; [ | reflexivity ].
    cbn [bind].
    destruct (make_feature_vector _ _ _ _) as [vec | e] eqn:Ev.
    2: { rewrite (make_feature_vector_raises_IndexError _ _ _ Ev). reflexivity. }
    cbn [bind].
    assert (i < length vector)%nat by (apply nth_error_Some; congruence).
    apply IH; lia.
Qed.

(** The accumulator is only extended. *)
Lemma get_features_from_acc (fincoords : list minutia) :
  forall (i : nat) (vector : list ridgecount) (orientations : ndarray)
         (acc : list (list R)),
    get_features_from helper_dki helper_dfi i fincoords vector orientations acc =
    (out <- get_features_from helper_dki helper_dfi i fincoords vector
              orientations [] ;;
     Ok (acc ++ out)).
Proof.
  induction fincoords as [ | p rest IH]; intros i vector orientations acc.
  - cbn. rewrite app_nil_r. reflexivity.
  - cbn [get_features_from].
    destruct (FeatureBase_init _ _ _) as [feature | e]; [ | reflexivity ].
    cbn [bind].
    destruct (list_getitem vector i) as [rc | e]; [ | reflexivity ].
    cbn [bind].
    destruct (make_feature_vector _ _ _ _) as [vec | e]; [ | reflexivity ].
    cbn [bind]. rewrite (IH _ _ _ (acc ++ [vec])), (IH _ _ _ ([] ++ [vec])).
    destruct (get_features_from _ _ _ rest _ _ []) as [out | e]; cbn [bind];
      [ | reflexivity ].
    rewrite <- app_assoc. reflexivity.
Qed.

(** Shifting the start index and dropping the records before it. *)
Lemma get_features_from_shift (fincoords : list minutia) :
  forall (i : nat) (v1 v2 : list ridgecount) (orientations : ndarray)
         (acc : list (list R)),
    get_features_from helper_dki helper_dfi (length v1 + i) fincoords (v1 ++ v2)
      orientations acc =
    get_features_from helper_dki helper_dfi i fincoords v2 orientations acc.
Proof.
  induction fincoords as [ | p rest IH]; intros i v1 v2 orientations acc.
  - reflexivity.
  - cbn [get_features_from].
    destruct (FeatureBase_init _ _ _) as [feature | e]; [ | reflexivity ].
    cbn [bind]. unfold list_getitem.
    rewrite nth_error_app2 by lia.
    replace (length v1 + i - length v1)%nat with i by lia.
    destruct (nth_error v2 i) as [rc | ]; [ | reflexivity ].
    cbn [bind].
    destruct (make_feature_vector _ _ _ _) as [vec | e]; [ | reflexivity ].
    cbn [bind]. rewrite <- (IH (S i) v1 v2). f_equal. lia.
Qed.

Lemma get_features_from_app (f1 : list minutia) :
  forall (f2 : list minutia) (i : nat) (vector : list ridgecount)
         (orientations : ndarray) (acc : list (list R)),
    get_features_from helper_dki helper_dfi i (f1 ++ f2) vector orientations acc =
    (acc' <- get_features_from helper_dki helper_dfi i f1 vector orientations acc ;;
     get_features_from helper_dki helper_dfi (i + length f1) f2 vector
       orientations acc').
Proof.
  induction f1 as [ | p rest IH]; intros f2 i vector orientations acc.
  - cbn. rewrite Nat.add_0_r. reflexivity.
  - cbn [app get_features_from length].
    destruct (FeatureBase_init _ _ _) as [feature | e]; [ | reflexivity ].
    cbn [bind].
    destruct (list_getitem vector i) as [rc | e]; [ | reflexivity ].
    cbn [bind].
    destruct (make_feature_vector _ _ _ _) as [vec | e]; [ | reflexivity ].
    cbn [bind]. rewrite IH. replace (S i + length rest)%nat with (i + S (length rest))%nat by lia.
    reflexivity.
Qed.

End BatchMore.

(** ** normalize *)

Lemma fold_min_le (t : list R) (x v : R) :
  In v (x :: t) -> fold_left Rmin t x <= v.
Proof.
  revert x v. induction t as [ | y t IH]; intros x v Hin; cbn [fold_left].
  - destruct Hin as [<- | []]. lra.
  - destruct Hin as [<- | [<- | Hin]].
    + apply Rle_trans with (Rmin x y); [ apply IH; left; reflexivity | apply Rmin_l ].
    + apply Rle_trans with (Rmin x y); [ apply IH; left; reflexivity | apply Rmin_r ].
    + apply IH. right. exact Hin.
Qed.

Lemma fold_min_in (t : list R) (x : R) : In (fold_left Rmin t x) (x :: t).
Proof.
  revert x. induction t as [ | y t IH]; intros x; cbn [fold_left].
  - left. reflexivity.
  - destruct (IH (Rmin x y)) as [E | Hin].
    + rewrite <- E. unfold Rmin. destruct (Rle_dec x y); [ left | right; left ]; reflexivity.
    + right. right. exact Hin.
Qed.

Lemma fold_max_ge (t : list R) (x v : R) :
  In v (x :: t) -> v <= fold_left Rmax t x.
Proof.
  revert x v. induction t as [ | y t IH]; intros x v Hin; cbn [fold_left].
  - destruct Hin as [<- | []]. lra.
  - destruct Hin as [<- | [<- | Hin]].
    + apply Rle_trans with (Rmax x y); [ apply Rmax_l | apply IH; left; reflexivity ].
    + apply Rle_trans with (Rmax x y); [ apply Rmax_r | apply IH; left; reflexivity ].
    + apply IH. right. exact Hin.
Qed.

Lemma fold_max_in (t : list R) (x : R) : In (fold_left Rmax t x) (x :: t).
Proof.
  revert x. induction t as [ | y t IH]; intros x; cbn [fold_left].
  - left. reflexivity.
  - destruct (IH (Rmax x y)) as [E | Hin].
    + rewrite <- E. unfold Rmax. destruct (Rle_dec x y); [ right; left | left ]; reflexivity.
    + right. right. exact Hin.
Qed.

(** [np.min] and [np.max] of a non-empty array: a least and a greatest
    element. *)
Lemma np_min_spec (l : list R) (mn : R) :
  Np.min l = Ok mn <-> In mn l /\ forall v, In v l -> mn <= v.
Proof.
  destruct l as [ | x t]; cbn [Np.min].
  - split; [ discriminate | intros [[] _] ].
  - split.
    + intros H. injection H as <-. split; [ apply fold_min_in | apply fold_min_le ].
    + intros [Hin Hle]. f_equal. apply Rle_antisym.
      * apply fold_min_le. exact Hin.
      * apply Hle. apply fold_min_in.
Qed.

Lemma np_max_spec (l : list R) (mx : R) :
  Np.max l = Ok mx <-> In mx l /\ forall v, In v l -> v <= mx.
Proof.
  destruct l as [ | x t]; cbn [Np.max].
  - split; [ discriminate | intros [[] _] ].
  - split.
    + intros H. injection H as <-. split; [ apply fold_max_in | apply fold_max_ge ].
    + intros [Hin Hle]. f_equal. apply Rle_antisym.
      * apply Hle. apply fold_max_in.
      * apply fold_max_ge. exact Hin.
Qed.

(** The result of [normalize] in closed form. *)
Lemma normalize_closed (l : list R) (mn mx : R) :
  Np.min l = Ok mn -> Np.max l = Ok mx ->
  normalize l =
  Ok (if Rlt_dec mn mx
      then map (fun v => (v - mn) * (1 / (mx - mn))) l
      else map (fun v => v - mn) l).
Proof.
  intros Hmn Hmx.
  apply np_min_spec in Hmn. destruct Hmn as [Hmn_in Hmn_le].
  apply np_max_spec in Hmx. destruct Hmx as [Hmx_in Hmx_le].
  unfold normalize.
  assert (E1 : Np.min l = Ok mn) by (apply np_min_spec; auto).
  rewrite E1. cbn [bind].
  assert (E2 : Np.max (map (fun v => v - mn) l) = Ok (mx - mn)).
  { apply np_max_spec. split.
    - apply in_map_iff. exists mx. auto.
    - intros v Hv. apply in_map_iff in Hv. destruct Hv as (u & <- & Hu).
      specialize (Hmx_le u Hu). lra. }
  rewrite E2. cbn [bind].
  destruct (Rlt_dec 0 (mx - mn)), (Rlt_dec mn mx); try lra.
  - rewrite map_map. reflexivity.
  - reflexivity.
Qed.

Lemma normalize_some (l : list R) :
  l <> [] -> exists mn mx, Np.min l = Ok mn /\ Np.max l = Ok mx /\ mn <= mx.
Proof.
  intros H. destruct l as [ | x t]; [ contradiction | ].
  exists (fold_left Rmin t x), (fold_left Rmax t x).
  split; [ reflexivity | ]. split; [ reflexivity | ].
  apply Rle_trans with x; [ apply fold_min_le | apply fold_max_ge ]; left; reflexivity.
Qed.

Lemma normalize_range_core (l out : list R) :
  normalize l = Ok out ->
  length out = length l /\
  (forall v, In v out -> 0 <= v <= 1) /\
  In 0 out /\
  (forall i j, nth i l 0 <= nth j l 0 ->
               (i < length l)%nat -> (j < length l)%nat ->
               nth i out 0 <= nth j out 0) /\
  ((forall u v, In u l -> In v l -> u = v) -> forall v, In v out -> v = 0).
Proof.
  intros H.
  assert (Hne : l <> []) by (intros ->; discriminate).
  destruct (normalize_some l Hne) as (mn & mx & Hmn & Hmx & Hle).
  rewrite (normalize_closed l mn mx Hmn Hmx) in H. injection H as <-.
  apply np_min_spec in Hmn. destruct Hmn as [Hmn_in Hmn_le].
  apply np_max_spec in Hmx. destruct Hmx as [Hmx_in Hmx_le].
  destruct (Rlt_dec mn mx) as [Hlt | Hge].
  - assert (Hd : 0 < 1 / (mx - mn)).
    { unfold Rdiv. rewrite Rmult_1_l. apply Rinv_0_lt_compat. lra. }
    assert (Hd1 : (mx - mn) * (1 / (mx - mn)) = 1) by (field; lra).
    split; [ apply length_map | ]. split; [ | split; [ | split ] ].
    + intros v Hv. apply in_map_iff in Hv. destruct Hv as (u & <- & Hu).
      specialize (Hmn_le u Hu). specialize (Hmx_le u Hu). split; nra.
    + apply in_map_iff. exists mn. split; [ ring | exact Hmn_in ].
    + intros i j Hij Hi Hj.
      rewrite !(nth_indep _ 0 ((0 - mn) * (1 / (mx - mn))))
        by (rewrite length_map; assumption).
      rewrite !(map_nth (fun v => (v - mn) * (1 / (mx - mn)))).
      apply Rmult_le_compat_r; lra.
    + intros Hall. exfalso. specialize (Hall mn mx Hmn_in Hmx_in). lra.
  - assert (E : mn = mx) by lra. subst mx.
    assert (Hconst : forall u, In u l -> u = mn).
    { intros u Hu. specialize (Hmn_le u Hu). specialize (Hmx_le u Hu). lra. }
    split; [ apply length_map | ]. split; [ | split; [ | split ] ].
    + intros v Hv. apply in_map_iff in Hv. destruct Hv as (u & <- & Hu).
      rewrite (Hconst u Hu). lra.
    + apply in_map_iff. exists mn. split; [ ring | exact Hmn_in ].
    + intros i j Hij Hi Hj.
      rewrite !(nth_indep _ 0 (0 - mn)) by (rewrite length_map; assumption).
      rewrite !(map_nth (fun v => v - mn)). lra.
    + intros _ v Hv. apply in_map_iff in Hv. destruct Hv as (u & <- & Hu).
      rewrite (Hconst u Hu). ring.
Qed.

Lemma normalize_raises (l : list R) (e : exn) :
  normalize l = Raise e <-> l = [] /\ e = ValueError.
Proof.
  split.
  - intros H. destruct l as [ | x t].
    + cbn in H. split; [ reflexivity | congruence ].
    + assert (Hne : x :: t <> []) by discriminate.
      destruct (normalize_some _ Hne) as (mn & mx & Hmn & Hmx & _).
      rewrite (normalize_closed _ mn mx Hmn Hmx) in H. discriminate.
  - intros [-> ->]. reflexivity.
Qed.

(** ** The block loop *)

Lemma range_step_zero (stop : nat) : Py.range_step stop 0 = Raise ValueError.
Proof. reflexivity. Qed.

Lemma range_step_pos (stop step : nat) :
  (0 < step)%nat ->
  Py.range_step stop step =
  Ok (map (fun k => (k * step)%nat) (Py.range ((stop + step - 1) / step))).
Proof.
  intros H. unfold Py.range_step.
  destruct (Nat.eqb_spec step 0); [ lia | reflexivity ].
Qed.

(** Block [k] starts inside an axis of length [n] exactly when it is one of
    the [ceil(n / w)] blocks of the loop. *)
Lemma block_count (n w k : nat) :
  (0 < w)%nat -> ((k < (n + w - 1) / w)%nat <-> (k * w < n)%nat).
Proof.
  intros Hw. split; intros H.
  - assert (H1 : (w * ((n + w - 1) / w) <= n + w - 1)%nat)
      by (apply Nat.Div0.mul_div_le).
    nia.
  - apply Nat.lt_le_trans with ((k * w + w) / w)%nat.
    + rewrite Nat.div_add_l by lia. rewrite Nat.div_same by lia. lia.
    + apply Nat.Div0.div_le_mono. lia.
Qed.

Lemma block_index (n w r : nat) :
  (0 < w)%nat -> (r < n)%nat -> (r / w * w < n)%nat /\ (r / w * w <= r < r / w * w + w)%nat.
Proof.
  intros Hw Hr.
  pose proof (Nat.div_mod_eq r w) as E.
  pose proof (Nat.mod_upper_bound r w ltac:(lia)) as M.
  nia.
Qed.

Lemma block_index_unique (w k r : nat) :
  (0 < w)%nat -> ((k * w <= r < k * w + w)%nat <-> (r / w = k)%nat).
Proof.
  intros Hw. split.
  - intros H. symmetry. apply (Nat.div_unique r w k (r - k * w)); lia.
  - intros <-.
    pose proof (Nat.div_mod_eq r w) as E.
    pose proof (Nat.mod_upper_bound r w ltac:(lia)) as M.
    nia.
Qed.

Section BlockLoop.

Variables (height width w : nat).
Hypothesis Hw : (0 < w)%nat.

(** The state before the loop, and the value the loop leaves in a pixel. *)
Variable s0 : ndarray.
Variable g : nat -> nat -> R.
Variable body : nat -> nat -> ndarray -> result ndarray.

Hypothesis Hshape0 : shape s0 = (height, width).

(** The body, run on a state whose block [(k, l)] is still as it was before
    the loop, stores [g] in that block and leaves the other pixels. *)
Hypothesis Hbody : forall (k l : nat) (s : ndarray),
  (k * w < height)%nat -> (l * w < width)%nat ->
  shape s = (height, width) ->
  (forall r c, (r < height)%nat -> (c < width)%nat ->
               in_block_of w k l r c = true -> get s r c = get s0 r c) ->
  exists s',
    body (k * w) (l * w) s = Ok s' /\
    shape s' = (height, width) /\
    forall r c, (r < height)%nat -> (c < width)%nat ->
      get s' r c = if in_block_of w k l r c then g r c else get s r c.

Lemma block_row (k m : nat) (s : ndarray) :
  (k * w < height)%nat -> (m <= (width + w - 1) / w)%nat ->
  progress height width w s0 g k 0 s ->
  exists s',
    for_each (map (fun l => (l * w)%nat) (Py.range m))
             (fun x s => body (k * w) x s) s = Ok s' /\
    progress height width w s0 g k m s'.
Proof.
  intros Hk. induction m as [ | m IH]; intros Hm Hs.
  - exists s. split; [ reflexivity | exact Hs ].
  - destruct (IH ltac:(lia) Hs) as (s1 & E1 & Hs1 & Hc1).
    assert (Hl : (m * w < width)%nat) by (apply block_count; lia).
    destruct (Hbody k m s1 Hk Hl Hs1) as (s2 & E2 & Hs2 & Hc2).
    { intros r c Hr Hc Hin. rewrite (Hc1 r c Hr Hc).
      unfold in_block_of in Hin. unfold visited.
      apply andb_true_iff in Hin. destruct Hin as [Hin1 Hin2].
      apply Nat.eqb_eq in Hin1. apply Nat.eqb_eq in Hin2.
      rewrite Hin1, Hin2, Nat.ltb_irrefl, Nat.eqb_refl, Nat.ltb_irrefl.
      reflexivity. }
    exists s2. split.
    + rewrite range_S, map_app, for_each_app, E1. cbn [bind map for_each].
      rewrite E2. reflexivity.
    + split; [ exact Hs2 | ].
      intros r c Hr Hc. rewrite (Hc2 r c Hr Hc), (Hc1 r c Hr Hc).
      unfold in_block_of, visited.
      destruct (Nat.ltb_spec (r / w) k), (Nat.eqb_spec (r / w) k),
        (Nat.eqb_spec (c / w) m), (Nat.ltb_spec (c / w) m),
        (Nat.ltb_spec (c / w) (S m)); cbn; try reflexivity; lia.
Qed.

Lemma block_rows (n : nat) :
  (n <= (height + w - 1) / w)%nat ->
  exists s',
    for_each (map (fun k => (k * w)%nat) (Py.range n))
      (fun y s =>
         xs <- Py.range_step width w ;;
         for_each xs (fun x s => body y x s) s) s0 = Ok s' /\
    progress height width w s0 g n 0 s'.
Proof.
  induction n as [ | n IH]; intros Hn.
  - exists s0. split; [ reflexivity | ]. split; [ exact Hshape0 | ].
    intros r c Hr Hc. unfold visited. cbn. rewrite andb_false_r. reflexivity.
  - destruct (IH ltac:(lia)) as (s1 & E1 & Hs1).
    assert (Hk : (n * w < height)%nat) by (apply block_count; lia).
    destruct (block_row n ((width + w - 1) / w) s1 Hk (Nat.le_refl _) Hs1)
      as (s2 & E2 & Hs2 & Hc2).
    exists s2. split.
    + rewrite range_S, map_app, for_each_app, E1. cbn [bind map for_each].
      rewrite range_step_pos by exact Hw. cbn [bind]. rewrite E2. reflexivity.
    + split; [ exact Hs2 | ].
      intros r c Hr Hc. rewrite (Hc2 r c Hr Hc). unfold visited.
      assert (Hcw : (c / w < (width + w - 1) / w)%nat).
      { apply block_count; [ exact Hw | ].
        apply (block_index width w c Hw Hc). }
      destruct (Nat.ltb_spec (r / w) n), (Nat.eqb_spec (r / w) n),
        (Nat.ltb_spec (c / w) ((width + w - 1) / w)),
        (Nat.ltb_spec (r / w) (S n)), (Nat.eqb_spec (r / w) (S n)),
        (Nat.ltb_spec (c / w) 0); cbn; try reflexivity; lia.
Qed.

(** The loop nest returns, keeps the shape and leaves [g] in every pixel. *)
Lemma for_blocks_ok :
  exists out,
    for_blocks height width w body s0 = Ok out /\
    shape out = (height, width) /\
    forall r c, (r < height)%nat -> (c < width)%nat -> get out r c = g r c.
Proof.
  destruct (block_rows ((height + w - 1) / w) (Nat.le_refl _))
    as (out & E & Hs & Hc).
  exists out. split.
  - unfold for_blocks. rewrite range_step_pos by exact Hw. cbn [bind]. exact E.
  - split; [ exact Hs | ].
    intros r c Hr Hcc. rewrite (Hc r c Hr Hcc). unfold visited.
    assert (Hrw : (r / w < (height + w - 1) / w)%nat).
    { apply block_count; [ exact Hw | ].
      apply (block_index height w r Hw Hr). }
    destruct (Nat.ltb_spec (r / w) ((height + w - 1) / w)); [ reflexivity | lia ].
Qed.

End BlockLoop.

Lemma for_blocks_zero {S : Type} (height width : nat)
  (body : nat -> nat -> S -> result S) (s : S) :
  for_blocks height width 0 body s = Raise ValueError.
Proof. reflexivity. Qed.

(** ** Cells of arrays and blocks *)

Lemma in_ravel (a : ndarray) (v : R) :
  In v (ravel a) <->
  exists i j, (i < nrows a)%nat /\ (j < ncols a)%nat /\ v = get a i j.
Proof.
  unfold ravel, Py.range. rewrite in_flat_map. split.
  - intros (i & Hi & Hv). apply in_map_iff in Hv. destruct Hv as (j & E & Hj).
    apply in_seq in Hi. apply in_seq in Hj.
    exists i, j. split; [ lia | ]. split; [ lia | ]. symmetry. exact E.
  - intros (i & j & Hi & Hj & ->). exists i. split.
    + apply in_seq. lia.
    + apply in_map_iff. exists j. split; [ reflexivity | ]. apply in_seq. lia.
Qed.

Lemma ravel_length (a : ndarray) : length (ravel a) = (nrows a * ncols a)%nat.
Proof.
  unfold ravel, Py.range. generalize 0%nat at 2. 
  induction (nrows a) as [ | n IH]; intros s.
  - reflexivity.
  - cbn [seq flat_map]. rewrite length_app, length_map, length_seq, IH. lia.
Qed.

Lemma ravel_ext (a b : ndarray) : same_cells a b -> ravel a = ravel b.
Proof.
  intros [Hs Hc]. unfold shape in Hs.
  assert (Hr : nrows b = nrows a) by congruence.
  assert (Hcol : ncols b = ncols a) by congruence.
  unfold ravel. rewrite Hr, Hcol.
  assert (G : forall l, (forall i, In i l -> (i < nrows a)%nat) ->
            flat_map (fun i => map (fun j => get a i j) (Py.range (ncols a))) l =
            flat_map (fun i => map (fun j => get b i j) (Py.range (ncols a))) l).
  { induction l as [ | i l IH]; intros Hl.
    - reflexivity.
    - cbn [flat_map]. rewrite IH by (intros k Hk; apply Hl; right; exact Hk).
      f_equal. apply map_ext_in. intros j Hj. apply in_seq in Hj.
      apply Hc; [ apply Hl; left; reflexivity | lia ]. }
  apply G. intros i Hi. apply in_seq in Hi. lia.
Qed.

Lemma ravel_map_cells (f : R -> R) (a : ndarray) :
  ravel (map_cells f a) = map f (ravel a).
Proof.
  unfold ravel, map_cells. cbn [nrows ncols get].
  induction (Py.range (nrows a)) as [ | i l IH].
  - reflexivity.
  - cbn [flat_map]. rewrite map_app, map_map, IH. reflexivity.
Qed.

Lemma same_cells_refl (a : ndarray) : same_cells a a.
Proof. split; [ reflexivity | intros; reflexivity ]. Qed.

Lemma same_cells_sym (a b : ndarray) : same_cells a b -> same_cells b a.
Proof.
  intros [Hs Hc]. split; [ symmetry; exact Hs | ].
  unfold shape in Hs. intros r c Hr Hcc. symmetry. apply Hc; congruence.
Qed.

Lemma same_cells_trans (a b c : ndarray) :
  same_cells a b -> same_cells b c -> same_cells a c.
Proof.
  intros [Hs1 Hc1] [Hs2 Hc2]. split; [ congruence | ].
  unfold shape in *. intros r k Hr Hk. rewrite Hc1 by assumption.
  apply Hc2; congruence.
Qed.

(** A slice whose upper bounds may lie beyond the array. *)
Lemma slice_bounds_clip (len a b : nat) :
  (a <= len)%nat -> (a <= b)%nat ->
  Py.slice_bounds len (Z.of_nat a) (Z.of_nat b) = (a, (Nat.min b len - a)%nat).
Proof.
  intros Ha Hab. unfold Py.slice_bounds, Py.slice_index.
  destruct (Z.ltb_spec (Z.of_nat a) 0); [ lia | ].
  destruct (Z.ltb_spec (Z.of_nat b) 0); [ lia | ].
  f_equal; lia.
Qed.

Lemma block_at_nrows (image : ndarray) (w y x : nat) :
  (y <= nrows image)%nat ->
  nrows (block_at image w y x) = (Nat.min (y + w) (nrows image) - y)%nat.
Proof.
  intros Hy. unfold block_at. rewrite slice_nrows.
  rewrite slice_bounds_clip by lia. reflexivity.
Qed.

Lemma block_at_ncols (image : ndarray) (w y x : nat) :
  (x <= ncols image)%nat ->
  ncols (block_at image w y x) = (Nat.min (x + w) (ncols image) - x)%nat.
Proof.
  intros Hx. unfold block_at. rewrite slice_ncols.
  rewrite slice_bounds_clip by lia. reflexivity.
Qed.

Lemma block_at_get (image : ndarray) (w y x i j : nat) :
  (y <= nrows image)%nat -> (x <= ncols image)%nat ->
  get (block_at image w y x) i j = get image (y + i) (x + j).
Proof.
  intros Hy Hx. unfold block_at. rewrite slice_get.
  rewrite !slice_bounds_clip by lia. reflexivity.
Qed.

(** Two states with the same shape that agree on a block have the same
    block. *)
Lemma block_at_ext (s s0 : ndarray) (w y x : nat) :
  shape s = shape s0 -> (y <= nrows s0)%nat -> (x <= ncols s0)%nat ->
  (forall r c, (r < nrows s0)%nat -> (c < ncols s0)%nat ->
               (y <= r < y + w)%nat -> (x <= c < x + w)%nat ->
               get s r c = get s0 r c) ->
  same_cells (block_at s w y x) (block_at s0 w y x).
Proof.
  intros Hs Hy Hx H. unfold shape in Hs.
  assert (Hr : nrows s = nrows s0) by congruence.
  assert (Hc : ncols s = ncols s0) by congruence.
  split.
  - unfold shape. rewrite !block_at_nrows, !block_at_ncols by lia.
    rewrite Hr, Hc. reflexivity.
  - intros r c. rewrite block_at_nrows, block_at_ncols by lia.
    intros Hr' Hc'. rewrite !block_at_get by lia. apply H; lia.
Qed.

Lemma in_block_of_spec (w k l r c : nat) :
  (0 < w)%nat ->
  (in_block_of w k l r c = true <->
   (k * w <= r < k * w + w)%nat /\ (l * w <= c < l * w + w)%nat).
Proof.
  intros Hw. unfold in_block_of. rewrite andb_true_iff, !Nat.eqb_eq.
  rewrite <- !block_index_unique by exact Hw. reflexivity.
Qed.

(** ** Loops that transform every block *)

Section BlockTransform.

Variable f : ndarray -> result ndarray.
Variables (image : ndarray) (w : nat).
Hypothesis Hw : (0 < w)%nat.

(** [f] only looks at the cells of its argument. *)
Hypothesis f_ext : forall a b, same_cells a b -> same_outcome (f a) (f b).

(** [f] returns an array of the shape of its argument on every block of the
    image. *)
Hypothesis f_returns : forall k l,
  (k * w < nrows image)%nat -> (l * w < ncols image)%nat ->
  exists b, f (block_at image w (k * w) (l * w)) = Ok b /\
            shape b = shape (block_at image w (k * w) (l * w)).

Lemma block_transform_ok :
  exists out,
    for_blocks (nrows image) (ncols image) w
      (fun y x image =>
         block <- f (block_at image w y x) ;;
         Ok (set_slice image y (y + w) x (x + w) block))
      image = Ok out /\
    shape out = shape image /\
    forall r c, (r < nrows image)%nat -> (c < ncols image)%nat ->
      exists b,
        f (block_at image w (r / w * w) (c / w * w)) = Ok b /\
        get out r c = get b (r - r / w * w) (c - c / w * w).
Proof.
  set (g := fun r c =>
         match f (block_at image w (r / w * w) (c / w * w)) with
         | Ok b => get b (r - r / w * w) (c - c / w * w)
         | Raise _ => 0
         end).
  destruct (for_blocks_ok (nrows image) (ncols image) w Hw image g
              (fun y x image =>
                 block <- f (block_at image w y x) ;;
                 Ok (set_slice image y (y + w) x (x + w) block)))
    as (out & E & Hs & Hc).
  { reflexivity. }
  { intros k l s Hk Hl Hs Hsame.
    destruct (f_returns k l Hk Hl) as (b0 & Eb0 & Hb0).
    assert (Hblock : same_cells (block_at s w (k * w) (l * w))
                                (block_at image w (k * w) (l * w))).
    { apply block_at_ext; [ exact Hs | lia | lia | ].
      intros r c Hr Hc Hr' Hc'. apply Hsame; [ exact Hr | exact Hc | ].
      apply in_block_of_spec; [ exact Hw | ]. split; assumption. }
    pose proof (f_ext _ _ Hblock) as Hout. rewrite Eb0 in Hout.
    destruct (f (block_at s w (k * w) (l * w))) as [b | e] eqn:Eb;
      [ | contradiction ].
    cbn [same_outcome] in Hout.
    exists (set_slice s (k * w) (k * w + w) (l * w) (l * w + w) b).
    cbn [bind]. split; [ reflexivity | ]. split; [ exact Hs | ].
    intros r c Hr Hc. cbn [set_slice get].
    destruct (in_block_of w k l r c) eqn:Ein.
    - apply in_block_of_spec in Ein; [ | exact Hw ].
      destruct Ein as [Hr' Hc'].
      destruct (Nat.leb_spec (k * w) r); [ | lia ].
      destruct (Nat.ltb_spec r (k * w + w)); [ | lia ].
      destruct (Nat.leb_spec (l * w) c); [ | lia ].
      destruct (Nat.ltb_spec c (l * w + w)); [ | lia ].
      cbn [andb]. unfold g.
      assert (Ek : (r / w = k)%nat) by (apply block_index_unique; assumption).
      assert (El : (c / w = l)%nat) by (apply block_index_unique; assumption).
      rewrite Ek, El, Eb0.
      destruct Hout as [Hsh Hcells]. apply Hcells.
      + destruct Hblock as [Hbs _]. unfold shape in *.
        assert (Enb : nrows b = nrows (block_at image w (k * w) (l * w)))
          by congruence.
        rewrite Enb, block_at_nrows by lia. lia.
      + destruct Hblock as [Hbs _]. unfold shape in *.
        assert (Enb : ncols b = ncols (block_at image w (k * w) (l * w)))
          by congruence.
        rewrite Enb, block_at_ncols by lia. lia.
    - assert (Hn : ~ ((k * w <= r < k * w + w)%nat /\ (l * w <= c < l * w + w)%nat)).
      { intros H. apply (in_block_of_spec w k l r c Hw) in H. congruence. }
      destruct (Nat.leb_spec (k * w) r), (Nat.ltb_spec r (k * w + w)),
        (Nat.leb_spec (l * w) c), (Nat.ltb_spec c (l * w + w));
        cbn [andb]; try reflexivity.
      exfalso. apply Hn. lia. }
  exists out. split; [ exact E | ]. split; [ exact Hs | ].
  intros r c Hr Hcc.
  destruct (block_index (nrows image) w r Hw Hr) as [Hk _].
  destruct (block_index (ncols image) w c Hw Hcc) as [Hl _].
  destruct (f_returns (r / w) (c / w) Hk Hl) as (b & Eb & _).
  exists b. split; [ exact Eb | ].
  rewrite (Hc r c Hr Hcc). unfold g. rewrite Eb. reflexivity.
Qed.

End BlockTransform.

(** ** binarize *)

(** The pixels of the block that holds pixel [(r, c)]. *)
Lemma in_block_of_cells (image : ndarray) (w r c : nat) (v : R) :
  (0 < w)%nat -> (r < nrows image)%nat -> (c < ncols image)%nat ->
  (In v (block_of image w r c) <->
   exists r' c', (r' < nrows image)%nat /\ (c' < ncols image)%nat /\
                 (r' / w = r / w)%nat /\ (c' / w = c / w)%nat /\
                 v = get image r' c').
Proof.
  intros Hw Hr Hc. unfold block_of.
  destruct (block_index (nrows image) w r Hw Hr) as [Hy Hry].
  destruct (block_index (ncols image) w c Hw Hc) as [Hx Hcx].
  rewrite in_ravel. rewrite block_at_nrows, block_at_ncols by lia. split.
  - intros (i & j & Hi & Hj & ->). rewrite block_at_get by lia.
    exists (r / w * w + i)%nat, (c / w * w + j)%nat.
    split; [ lia | ]. split; [ lia | ].
    split; [ apply block_index_unique; lia | ].
    split; [ apply block_index_unique; lia | reflexivity ].
  - intros (r' & c' & Hr' & Hc' & Er & Ec & ->).
    apply block_index_unique in Er; [ | exact Hw ].
    apply block_index_unique in Ec; [ | exact Hw ].
    exists (r' - r / w * w)%nat, (c' - c / w * w)%nat.
    split; [ lia | ]. split; [ lia | ].
    rewrite block_at_get by lia. f_equal; lia.
Qed.

Lemma block_of_same (image : ndarray) (w r c r' c' : nat) :
  (r' / w = r / w)%nat -> (c' / w = c / w)%nat ->
  block_of image w r' c' = block_of image w r c.
Proof. intros Er Ec. unfold block_of. rewrite Er, Ec. reflexivity. Qed.

Lemma block_of_self (image : ndarray) (w r c : nat) :
  (0 < w)%nat -> (r < nrows image)%nat -> (c < ncols image)%nat ->
  In (get image r c) (block_of image w r c).
Proof.
  intros Hw Hr Hc. apply in_block_of_cells; try assumption.
  exists r, c. auto.
Qed.

(** The cells of the block of [(r, c)] after a cell-wise change of the
    image that is the same function on the whole block. *)
Lemma block_of_map (a b : ndarray) (f : R -> R) (w r c : nat) :
  (0 < w)%nat -> (r < nrows a)%nat -> (c < ncols a)%nat ->
  shape b = shape a ->
  (forall r' c', (r' < nrows a)%nat -> (c' < ncols a)%nat ->
                 (r' / w = r / w)%nat -> (c' / w = c / w)%nat ->
                 get b r' c' = f (get a r' c')) ->
  block_of b w r c = map f (block_of a w r c).
Proof.
  intros Hw Hr Hc Hs H. unfold block_of.
  destruct (block_index (nrows a) w r Hw Hr) as [Hy _].
  destruct (block_index (ncols a) w c Hw Hc) as [Hx _].
  rewrite <- ravel_map_cells. apply ravel_ext.
  unfold shape in Hs.
  assert (Hrb : nrows b = nrows a) by congruence.
  assert (Hcb : ncols b = ncols a) by congruence.
  split.
  - unfold shape, map_cells. cbn [nrows ncols].
    rewrite !block_at_nrows, !block_at_ncols by lia. rewrite Hrb, Hcb. reflexivity.
  - intros i j. rewrite block_at_nrows, block_at_ncols by lia.
    rewrite Hrb, Hcb. intros Hi Hj.
    unfold map_cells. cbn [get]. rewrite !block_at_get by lia.
    apply H; try lia; apply block_index_unique; lia.
Qed.

Lemma binarize_zero (image : ndarray) : binarize image 0 = Raise ValueError.
Proof. reflexivity. Qed.

Lemma binarize_pixels (image : ndarray) (w : nat) :
  (0 < w)%nat ->
  exists out,
    binarize image w = Ok out /\
    shape out = shape image /\
    forall r c, (r < nrows image)%nat -> (c < ncols image)%nat ->
      get out r c =
      if Rle_dec (mean (block_of image w r c)) (get image r c) then 1 else 0.
Proof.
  intros Hw.
  destruct (block_transform_ok
              (fun block => Ok (where_ge block (mean (ravel block))))
              image w Hw) as (out & E & Hs & Hc).
  { intros a b Hab. cbn [same_outcome].
    rewrite (ravel_ext a b Hab). destruct Hab as [Hsh Hcells].
    split; [ exact Hsh | ].
    intros r c Hr Hcc. unfold where_ge, map_cells in *. cbn [get nrows ncols] in *.
    rewrite Hcells by assumption. reflexivity. }
  { intros k l _ _. eexists. split; reflexivity. }
  exists out. split; [ exact E | ]. split; [ exact Hs | ].
  intros r c Hr Hcc. destruct (Hc r c Hr Hcc) as (b & Eb & Hget).
  injection Eb as <-. rewrite Hget.
  destruct (block_index (nrows image) w r Hw Hr) as [Hy Hry].
  destruct (block_index (ncols image) w c Hw Hcc) as [Hx Hcx].
  unfold where_ge, map_cells. cbn [get].
  rewrite block_at_get by lia.
  replace (r / w * w + (r - r / w * w))%nat with r by lia.
  replace (c / w * w + (c - c / w * w))%nat with c by lia.
  reflexivity.
Qed.

Lemma block_of_nonempty (image : ndarray) (w r c : nat) :
  (0 < w)%nat -> (r < nrows image)%nat -> (c < ncols image)%nat ->
  block_of image w r c <> [].
Proof.
  intros Hw Hr Hc E. pose proof (block_of_self image w r c Hw Hr Hc) as H.
  rewrite E in H. exact H.
Qed.

(** ** Means *)

Lemma sum_map_affine (a b : R) (l : list R) :
  Np.sum (map (fun v => a * v + b) l) = a * Np.sum l + b * INR (length l).
Proof.
  induction l as [ | x l IH].
  - cbn. ring.
  - cbn [map Np.sum fold_right length]. fold (Np.sum l).
    fold (Np.sum (map (fun v => a * v + b) l)). rewrite IH, S_INR. ring.
Qed.

Lemma length_pos_INR {A : Type} (l : list A) : l <> [] -> 0 < INR (length l).
Proof.
  intros H. apply lt_0_INR. destruct l; [ contradiction | cbn; lia ].
Qed.

Lemma mean_map_affine (a b : R) (l : list R) :
  l <> [] -> mean (map (fun v => a * v + b) l) = a * mean l + b.
Proof.
  intros Hne. pose proof (length_pos_INR l Hne) as Hn.
  unfold mean. rewrite sum_map_affine, length_map. field. lra.
Qed.


(** ** localNormalize *)

Lemma normalize_2d_closed (a : ndarray) (mn mx : R) :
  Np.min (ravel a) = Ok mn -> Np.max (ravel a) = Ok mx ->
  normalize_2d a =
  Ok (if Rlt_dec mn mx
      then map_cells (fun v => (v - mn) * (1 / (mx - mn))) a
      else map_cells (fun v => v - mn) a).
Proof.
  intros Hmn Hmx. unfold normalize_2d. rewrite Hmn. cbn [bind].
  apply np_min_spec in Hmn. destruct Hmn as [Hmn_in Hmn_le].
  apply np_max_spec in Hmx. destruct Hmx as [Hmx_in Hmx_le].
  assert (E2 : Np.max (ravel (map_cells (fun v => v - mn) a)) = Ok (mx - mn)).
  { rewrite ravel_map_cells. apply np_max_spec. split.
    - apply in_map_iff. exists mx. auto.
    - intros v Hv. apply in_map_iff in Hv. destruct Hv as (u & <- & Hu).
      specialize (Hmx_le u Hu). lra. }
  rewrite E2. cbn [bind].
  destruct (Rlt_dec 0 (mx - mn)), (Rlt_dec mn mx); try lra; reflexivity.
Qed.

Lemma normalize_2d_empty (a : ndarray) :
  ravel a = [] -> normalize_2d a = Raise ValueError.
Proof. intros E. unfold normalize_2d. rewrite E. reflexivity. Qed.

Lemma normalize_2d_ext (a b : ndarray) :
  same_cells a b -> same_outcome (normalize_2d a) (normalize_2d b).
Proof.
  intros Hab. pose proof (ravel_ext a b Hab) as E.
  destruct (ravel a) as [ | x t] eqn:Ea.
  - rewrite (normalize_2d_empty a Ea), (normalize_2d_empty b (eq_sym E)).
    reflexivity.
  - assert (Hne : ravel a <> []) by (rewrite Ea; discriminate).
    destruct (normalize_some _ Hne) as (mn & mx & Hmn & Hmx & _).
    rewrite (normalize_2d_closed a mn mx Hmn Hmx).
    rewrite Ea, E in Hmn, Hmx.
    rewrite (normalize_2d_closed b mn mx Hmn Hmx).
    cbn [same_outcome]. destruct Hab as [Hs Hc].
    destruct (Rlt_dec mn mx) as [Hlt | Hge]; (split; [ exact Hs | ]);
      intros r c Hr Hcc; unfold map_cells in *; cbn [get nrows ncols] in *;
      rewrite Hc by assumption; reflexivity.
Qed.

(** The two-dimensional reading of [normalize] is the one-dimensional one on
    the cells in row-major order. *)
Lemma normalize_2d_ravel (a : ndarray) :
  match normalize_2d a, normalize (ravel a) with
  | Ok b, Ok l => shape b = shape a /\ ravel b = l
  | Raise e, Raise e' => e = e'
  | _, _ => False
  end.
Proof.
  destruct (ravel a) as [ | x t] eqn:Ea.
  - rewrite (normalize_2d_empty a Ea). reflexivity.
  - assert (Hne : ravel a <> []) by (rewrite Ea; discriminate).
    destruct (normalize_some _ Hne) as (mn & mx & Hmn & Hmx & _).
    rewrite (normalize_2d_closed a mn mx Hmn Hmx).
    rewrite <- Ea, (normalize_closed (ravel a) mn mx Hmn Hmx).
    destruct (Rlt_dec mn mx); (split; [ reflexivity | apply ravel_map_cells ]).
Qed.

Lemma block_at_nonempty (image : ndarray) (w k l : nat) :
  (0 < w)%nat -> (k * w < nrows image)%nat -> (l * w < ncols image)%nat ->
  ravel (block_at image w (k * w) (l * w)) <> [].
Proof.
  intros Hw Hk Hl E.
  assert (H : In (get (block_at image w (k * w) (l * w)) 0 0)
                 (ravel (block_at image w (k * w) (l * w)))).
  { apply in_ravel. exists 0%nat, 0%nat.
    rewrite block_at_nrows, block_at_ncols by lia.
    split; [ lia | ]. split; [ lia | reflexivity ]. }
  rewrite E in H. exact H.
Qed.

Lemma localNormalize_zero (image : ndarray) :
  localNormalize image 0 = Raise ValueError.
Proof. reflexivity. Qed.

Lemma localNormalize_pixels (image : ndarray) (w : nat) :
  (0 < w)%nat ->
  exists out,
    localNormalize image w = Ok out /\
    shape out = shape image /\
    forall r c, (r < nrows image)%nat -> (c < ncols image)%nat ->
      exists mn mx,
        Np.min (block_of image w r c) = Ok mn /\
        Np.max (block_of image w r c) = Ok mx /\
        get out r c =
        if Rlt_dec mn mx then (get image r c - mn) / (mx - mn) else 0.
Proof.
  intros Hw.
  destruct (block_transform_ok normalize_2d image w Hw normalize_2d_ext)
    as (out & E & Hs & Hc).
  { intros k l Hk Hl.
    pose proof (block_at_nonempty image w k l Hw Hk Hl) as Hne.
    destruct (normalize_some _ Hne) as (mn & mx & Hmn & Hmx & _).
    rewrite (normalize_2d_closed _ mn mx Hmn Hmx).
    eexists. split; [ reflexivity | ]. destruct (Rlt_dec mn mx); reflexivity. }
  exists out. split; [ exact E | ]. split; [ exact Hs | ].
  intros r c Hr Hcc. destruct (Hc r c Hr Hcc) as (b & Eb & Hget).
  destruct (block_index (nrows image) w r Hw Hr) as [Hy Hry].
  destruct (block_index (ncols image) w c Hw Hcc) as [Hx Hcx].
  pose proof (block_of_nonempty image w r c Hw Hr Hcc) as Hne.
  destruct (normalize_some _ Hne) as (mn & mx & Hmn & Hmx & Hle).
  exists mn, mx. split; [ exact Hmn | ]. split; [ exact Hmx | ].
  unfold block_of in Hmn, Hmx.
  rewrite (normalize_2d_closed _ mn mx Hmn Hmx) in Eb. injection Eb as <-.
  rewrite Hget.
  assert (Hcell : get (block_at image w (r / w * w) (c / w * w))
                      (r - r / w * w) (c - c / w * w) = get image r c).
  { rewrite block_at_get by lia. f_equal; lia. }
  destruct (Rlt_dec mn mx) as [Hlt | Hge]; unfold map_cells; cbn [get];
    rewrite Hcell.
  - unfold Rdiv. ring.
  - apply np_min_spec in Hmn. apply np_max_spec in Hmx.
    pose proof (block_of_self image w r c Hw Hr Hcc) as Hin.
    pose proof (proj2 Hmn _ Hin). pose proof (proj2 Hmx _ Hin). lra.
Qed.

(** The map [localNormalize] applies to a block with minimum [mn] and
    maximum [mx]. *)
Lemma localNormalize_block (image out : ndarray) (w r c : nat) (mn mx : R) :
  (0 < w)%nat -> localNormalize image w = Ok out ->
  (r < nrows image)%nat -> (c < ncols image)%nat ->
  Np.min (block_of image w r c) = Ok mn ->
  Np.max (block_of image w r c) = Ok mx ->
  shape out = shape image /\
  (forall r' c', (r' < nrows image)%nat -> (c' < ncols image)%nat ->
     (r' / w = r / w)%nat -> (c' / w = c / w)%nat ->
     get out r' c' =
     if Rlt_dec mn mx then (get image r' c' - mn) / (mx - mn) else 0) /\
  block_of out w r c =
  map (fun v => if Rlt_dec mn mx then (v - mn) / (mx - mn) else 0)
      (block_of image w r c).
Proof.
  intros Hw E Hr Hc Hmn Hmx.
  destruct (localNormalize_pixels image w Hw) as (o & Eo & Hs & Hpix).
  assert (o = out) by congruence. subst o.
  assert (Hcells : forall r' c', (r' < nrows image)%nat -> (c' < ncols image)%nat ->
     (r' / w = r / w)%nat -> (c' / w = c / w)%nat ->
     get out r' c' =
     if Rlt_dec mn mx then (get image r' c' - mn) / (mx - mn) else 0).
  { intros r' c' Hr' Hc' Er Ec.
    destruct (Hpix r' c' Hr' Hc') as (mn' & mx' & Hmn' & Hmx' & ->).
    rewrite (block_of_same image w r c r' c' Er Ec) in Hmn', Hmx'.
    assert (mn' = mn) by congruence. assert (mx' = mx) by congruence.
    subst. reflexivity. }
  split; [ exact Hs | ]. split; [ exact Hcells | ].
  apply (block_of_map image out _ w r c Hw Hr Hc Hs Hcells).
Qed.

Lemma localNormalize_range (image out : ndarray) (w : nat) :
  localNormalize image w = Ok out ->
  shape out = shape image /\
  (forall r c, (r < nrows image)%nat -> (c < ncols image)%nat ->
     0 <= get out r c <= 1) /\
  (forall r c, (r < nrows image)%nat -> (c < ncols image)%nat ->
     exists r' c', (r' < nrows image)%nat /\ (c' < ncols image)%nat /\
                   (r' / w = r / w)%nat /\ (c' / w = c / w)%nat /\
                   get out r' c' = 0).
Proof.
  intros E.
  destruct (Nat.eq_dec w 0) as [-> | Hw0]; [ discriminate | ].
  assert (Hw : (0 < w)%nat) by lia.
  destruct (localNormalize_pixels image w Hw) as (o & Eo & Hs & Hpix).
  assert (o = out) by congruence. subst o.
  split; [ exact Hs | ]. split.
  - intros r c Hr Hc.
    destruct (Hpix r c Hr Hc) as (mn & mx & Hmn & Hmx & ->).
    apply np_min_spec in Hmn. apply np_max_spec in Hmx.
    pose proof (block_of_self image w r c Hw Hr Hc) as Hin.
    pose proof (proj2 Hmn _ Hin). pose proof (proj2 Hmx _ Hin).
    destruct (Rlt_dec mn mx); [ | lra ].
    split.
    + apply Rmult_le_pos; [ lra | ]. left. apply Rinv_0_lt_compat. lra.
    + apply Rmult_le_reg_r with (mx - mn); [ lra | ].
      unfold Rdiv. rewrite Rmult_assoc, Rinv_l by lra. lra.
  - intros r c Hr Hc.
    pose proof (block_of_nonempty image w r c Hw Hr Hc) as Hne.
    destruct (normalize_some _ Hne) as (mn & mx & Hmn & Hmx & _).
    destruct (localNormalize_block image out w r c mn mx Hw E Hr Hc Hmn Hmx)
      as (_ & Hcells & _).
    apply np_min_spec in Hmn. destruct Hmn as [Hin _].
    apply in_block_of_cells in Hin; try assumption.
    destruct Hin as (r' & c' & Hr' & Hc' & Er & Ec & Emn).
    exists r', c'. repeat (split; [ assumption | ]).
    rewrite (Hcells r' c' Hr' Hc' Er Ec), <- Emn.
    destruct (Rlt_dec mn mx); [ | reflexivity ].
    unfold Rdiv. ring.
Qed.

(** ** Mean and standard deviation *)




Lemma std_nonneg (l : list R) : 0 <= std l.
Proof. unfold std. apply sqrt_pos. Qed.



(** Mean and standard deviation after [v -> a * v + b]. *)
Lemma std_map_affine (a b : R) (l : list R) :
  l <> [] -> std (map (fun v => a * v + b) l) = Rabs a * std l.
Proof.
  intros Hne. unfold std. rewrite mean_map_affine by exact Hne.
  rewrite map_map.
  rewrite (map_ext _ (fun v => a * a * ((v - mean l) * (v - mean l)) + 0))
    by (intros v; ring).
  rewrite <- (map_map (fun v => (v - mean l) * (v - mean l))
                      (fun u => a * a * u + 0)).
  rewrite mean_map_affine.
  - rewrite Rplus_0_r. rewrite sqrt_mult_alt by nra.
    f_equal. replace (a * a) with (Rsqr a) by reflexivity. apply sqrt_Rsqr_abs.
  - intros E. apply map_eq_nil in E. contradiction.
Qed.








(** ** maskify *)

Lemma finite_values_finite (f : R -> R) (l : list R) :
  finite_values (map (fun v => Py.Finite (f v)) l) = Some (map f l).
Proof.
  induction l as [ | x l IH]; cbn [map finite_values].
  - reflexivity.
  - rewrite IH. reflexivity.
Qed.

Lemma finite_values_nonfinite (l : list R) :
  l <> [] -> finite_values (map (fun _ => Py.NonFinite) l) = None.
Proof. destruct l; [ contradiction | reflexivity ]. Qed.

(** The cells of a block of the standardized image. *)
Lemma fravel_block (image : ndarray) (w y x : nat) :
  (y <= nrows image)%nat -> (x <= ncols image)%nat ->
  fravel (fslice (standard_normalization image)
                 (Z.of_nat y) (Z.of_nat (y + w)) (Z.of_nat x) (Z.of_nat (x + w))) =
  map (fun v => Py.np_div (v - mean (ravel image)) (std (ravel image)))
      (ravel (block_at image w y x)).
Proof.
  intros Hy Hx. unfold fravel, fslice, ravel, block_at, slice, standard_normalization.
  cbn [fnrows fncols fget].
  rewrite !slice_bounds_clip by lia. cbn [fnrows fncols fget nrows ncols get].
  induction (Py.range (Nat.min (y + w) (nrows image) - y)) as [ | i l IH].
  - reflexivity.
  - cbn [flat_map]. rewrite map_app, map_map, IH. reflexivity.
Qed.

Lemma fslice_shape (image : ndarray) (w y x : nat) :
  (y <= nrows image)%nat -> (x <= ncols image)%nat ->
  fnrows (fslice (standard_normalization image)
            (Z.of_nat y) (Z.of_nat (y + w)) (Z.of_nat x) (Z.of_nat (x + w)))
  = (Nat.min (y + w) (nrows image) - y)%nat /\
  fncols (fslice (standard_normalization image)
            (Z.of_nat y) (Z.of_nat (y + w)) (Z.of_nat x) (Z.of_nat (x + w)))
  = (Nat.min (x + w) (ncols image) - x)%nat.
Proof.
  intros Hy Hx. unfold fslice, standard_normalization. cbn [fnrows fncols fget].
  rewrite !slice_bounds_clip by lia. cbn [fnrows fncols]. split; reflexivity.
Qed.

(** The standard deviation [maskify] computes for the block at [(y, x)]. *)
Lemma block_deviation (image : ndarray) (w k l : nat) :
  (0 < w)%nat -> (k * w < nrows image)%nat -> (l * w < ncols image)%nat ->
  fstd (fravel (fslice (standard_normalization image)
                  (Z.of_nat (k * w)) (Z.of_nat (k * w + w))
                  (Z.of_nat (l * w)) (Z.of_nat (l * w + w)))) =
  if Req_dec_T (std (ravel image)) 0 then Py.NonFinite
  else Py.Finite (std (ravel (block_at image w (k * w) (l * w)))
                  / std (ravel image)).
Proof.
  intros Hw Hk Hl. rewrite fravel_block by lia.
  pose proof (block_at_nonempty image w k l Hw Hk Hl) as Hne.
  unfold fstd, Py.np_div.
  destruct (Req_dec_T (std (ravel image)) 0) as [Hz | Hnz].
  - rewrite finite_values_nonfinite by exact Hne. reflexivity.
  - rewrite (finite_values_finite
               (fun v => (v - mean (ravel image)) / std (ravel image))).
    f_equal.
    rewrite (map_ext _ (fun v => / std (ravel image) * v
                                 + - mean (ravel image) / std (ravel image)))
      by (intros v; field; exact Hnz).
    rewrite std_map_affine by exact Hne.
    pose proof (std_nonneg (ravel image)) as Hpos.
    rewrite Rabs_pos_eq by (left; apply Rinv_0_lt_compat; lra).
    field. exact Hnz.
Qed.

(** The value [maskify] stores in pixel [(r, c)]. *)
Lemma maskify_zero junk (image : ndarray) (threshold : R) :
  maskify junk image threshold 0 = Raise ValueError.
Proof. reflexivity. Qed.

Lemma maskify_pixels junk (image : ndarray) (threshold : R) (w : nat) :
  (0 < w)%nat ->
  exists mask,
    maskify junk image threshold w = Ok mask /\
    shape mask = shape image /\
    forall r c, (r < nrows image)%nat -> (c < ncols image)%nat ->
      get mask r c =
      if std_lt (if Req_dec_T (std (ravel image)) 0 then Py.NonFinite
                 else Py.Finite (std (block_of image w r c) / std (ravel image)))
                threshold
      then 0
      else if Nat.leb (r / w * w + w) (nrows image)
              && Nat.leb (c / w * w + w) (ncols image)
      then 1 else 0.
Proof.
  intros Hw.
  set (g := fun r c =>
      if std_lt (if Req_dec_T (std (ravel image)) 0 then Py.NonFinite
                 else Py.Finite (std (block_of image w r c) / std (ravel image)))
                threshold
      then 0
      else if Nat.leb (r / w * w + w) (nrows image)
              && Nat.leb (c / w * w + w) (ncols image)
      then 1 else 0).
  unfold maskify. cbv zeta. unfold fshape.
  change (fnrows (standard_normalization image)) with (nrows image).
  change (fncols (standard_normalization image)) with (ncols image).
  cbv iota beta.
  match goal with
  | |- exists mask, for_blocks _ _ _ ?body ?s0 = _ /\ _ =>
      destruct (for_blocks_ok (nrows image) (ncols image) w Hw s0 g body)
        as (mask & E & Hs & Hc)
  end.
  { reflexivity. }
  { intros k l s Hk Hl Hs _.
    rewrite (block_deviation image w k l Hw Hk Hl).
    destruct (fslice_shape image w (k * w) (l * w) ltac:(lia) ltac:(lia))
      as [Er Ec].
    rewrite Er, Ec.
    assert (Hcell : forall v r c, (r < nrows image)%nat -> (c < ncols image)%nat ->
      get (set_block s (k * w) (k * w + w) (l * w) (l * w + w) v) r c =
      if in_block_of w k l r c then v else get s r c).
    { intros v r c Hr Hc. cbn [set_block get].
      destruct (in_block_of w k l r c) eqn:Ein.
      - apply in_block_of_spec in Ein; [ | exact Hw ].
        destruct (Nat.leb_spec (k * w) r); [ | lia ].
        destruct (Nat.ltb_spec r (k * w + w)); [ | lia ].
        destruct (Nat.leb_spec (l * w) c); [ | lia ].
        destruct (Nat.ltb_spec c (l * w + w)); [ | lia ].
        reflexivity.
      - assert (Hn : ~ ((k * w <= r < k * w + w)%nat
                        /\ (l * w <= c < l * w + w)%nat)).
        { intros H. apply (in_block_of_spec w k l r c Hw) in H. congruence. }
        destruct (Nat.leb_spec (k * w) r), (Nat.ltb_spec r (k * w + w)),
          (Nat.leb_spec (l * w) c), (Nat.ltb_spec c (l * w + w));
          cbn [andb]; try reflexivity.
        exfalso. apply Hn. lia. }
    assert (Hg : forall r c, in_block_of w k l r c = true ->
      g r c =
      if std_lt (if Req_dec_T (std (ravel image)) 0 then Py.NonFinite
                 else Py.Finite (std (ravel (block_at image w (k * w) (l * w)))
                                 / std (ravel image))) threshold
      then 0
      else if negb (Nat.eqb (Nat.min (k * w + w) (nrows image) - k * w) w
                    && Nat.eqb (Nat.min (l * w + w) (ncols image) - l * w) w)
      then 0 else 1).
    { intros r c Hin. unfold in_block_of in Hin.
      apply andb_true_iff in Hin. destruct Hin as [H1 H2].
      apply Nat.eqb_eq in H1. apply Nat.eqb_eq in H2.
      unfold g, block_of. rewrite H1, H2.
      destruct (std_lt _ threshold); [ reflexivity | ].
      destruct (Nat.leb_spec (k * w + w) (nrows image)),
        (Nat.leb_spec (l * w + w) (ncols image)),
        (Nat.eqb_spec (Nat.min (k * w + w) (nrows image) - k * w) w),
        (Nat.eqb_spec (Nat.min (l * w + w) (ncols image) - l * w) w);
        cbn [andb negb]; try reflexivity; lia. }
    destruct (std_lt _ threshold) eqn:Elt;
      [ | destruct (negb _) eqn:Eshape ];
      (eexists; split; [ reflexivity | ]; split; [ exact Hs | ]);
      intros r c Hr Hc; rewrite Hcell by assumption;
      destruct (in_block_of w k l r c) eqn:Ein; try reflexivity;
      rewrite (Hg r c Ein); try rewrite Elt; try rewrite Eshape; reflexivity. }
  exists mask. split; [ exact E | ]. split; [ exact Hs | exact Hc ].
Qed.

(** ** The fresh arrays of np.empty *)

(** Slices of two arrays with the same shape and the same cells. *)
Lemma slice_ravel_ext (a b : ndarray) (r0 r1 c0 c1 : Z) :
  shape a = shape b -> (forall i j, get a i j = get b i j) ->
  ravel (slice a r0 r1 c0 c1) = ravel (slice b r0 r1 c0 c1).
Proof.
  intros Hs Hget. unfold shape in Hs.
  assert (Hr : nrows a = nrows b) by congruence.
  assert (Hc : ncols a = ncols b) by congruence.
  apply ravel_ext. split.
  - unfold shape. rewrite !slice_nrows, !slice_ncols, Hr, Hc. reflexivity.
  - intros i j _ _. rewrite !slice_get, Hr, Hc. apply Hget.
Qed.

(** Whether a loop that stores computed values returns does not depend on
    the array it writes to. *)
Lemma store_row_same (g : nat -> result R) (x m : nat) (F0 F0' : ndarray) :
  match for_each (Py.range m) (fun y F => v <- g y ;; Ok (Np.set F x y v)) F0,
        for_each (Py.range m) (fun y F => v <- g y ;; Ok (Np.set F x y v)) F0'
  with
  | Ok _, Ok _ => True
  | Raise e, Raise e' => e = e'
  | _, _ => False
  end.
Proof.
  induction m as [ | m IH].
  - exact I.
  - rewrite range_S, !for_each_app.
    destruct (for_each (Py.range m) _ F0) as [F1 | e];
      destruct (for_each (Py.range m) _ F0') as [F1' | e'];
      try contradiction; cbn [bind for_each].
    + destruct (g m) as [v | e]; cbn [bind]; [ exact I | reflexivity ].
    + exact IH.
Qed.

Lemma store_grid_same (g : nat -> nat -> result R) (n m : nat) (F0 F0' : ndarray) :
  match
    for_each (Py.range n)
      (fun x F =>
         for_each (Py.range m) (fun y F => v <- g x y ;; Ok (Np.set F x y v)) F)
      F0,
    for_each (Py.range n)
      (fun x F =>
         for_each (Py.range m) (fun y F => v <- g x y ;; Ok (Np.set F x y v)) F)
      F0'
  with
  | Ok _, Ok _ => True
  | Raise e, Raise e' => e = e'
  | _, _ => False
  end.
Proof.
  induction n as [ | n IH].
  - exact I.
  - rewrite range_S, !for_each_app.
    destruct (for_each (Py.range n) _ F0) as [F1 | e];
      destruct (for_each (Py.range n) _ F0') as [F1' | e'];
      try contradiction; cbn [bind for_each].
    + pose proof (store_row_same (g n) n m F1 F1') as H.
      destruct (for_each (Py.range m) _ F1) as [F2 | e];
        destruct (for_each (Py.range m) _ F1') as [F2' | e'];
        try contradiction; cbn [bind]; [ exact I | exact H ].
    + exact IH.
Qed.

Lemma neighbours_ext (F F' : ndarray) (xblocks yblocks x y : nat) :
  (0 < xblocks)%nat -> (0 < yblocks)%nat ->
  (forall i j, (i < xblocks)%nat -> (j < yblocks)%nat -> get F i j = get F' i j) ->
  neighbours F xblocks yblocks x y = neighbours F' xblocks yblocks x y.
Proof.
  intros Hx Hy H. unfold neighbours.
  induction (Py.range 7) as [ | i l IH] at 2 4.
  - reflexivity.
  - cbn [flat_map]. rewrite IH. f_equal.
    apply map_ext. intros j. apply H; unfold edge; lia.
Qed.

(** X25: what the fresh [np.empty] arrays of [getOrientations] hold never
    reaches the result: two runs that differ only in these contents raise
    the same exception or return fields with the same pixels. *)
Theorem getOrientations_ignores_empty junk junk' gb sc (image : ndarray) (w : nat) :
  same_outcome (getOrientations junk gb sc image w)
               (getOrientations junk' gb sc image w).
Proof.
  destruct (Nat.eq_dec w 0) as [-> | Hw0]; [ reflexivity | ].
  assert (Hw : (0 < w)%nat) by lia.
  destruct (Nat.lt_ge_cases (nrows image) w) as [Hr | Hr].
  { rewrite !getOrientations_small by (try left; assumption). reflexivity. }
  destruct (Nat.lt_ge_cases (ncols image) w) as [Hc | Hc].
  { rewrite !getOrientations_small by (try right; assumption). reflexivity. }
  destruct (getOrientations_returns junk gb sc image w Hw Hr Hc) as [f Hf].
  destruct (getOrientations_returns junk' gb sc image w Hw Hr Hc) as [f' Hf'].
  rewrite Hf, Hf'. cbn [same_outcome].
  destruct (getOrientations_ok _ _ _ _ _ _ Hf)
    as (_ & _ & _ & Hs & o & Hso & Hgo & Hget).
  destruct (getOrientations_ok _ _ _ _ _ _ Hf')
    as (_ & _ & _ & Hs' & o' & Hso' & Hgo' & Hget').
  split; [ congruence | ].
  intros r c _ _. rewrite Hget, Hget'.
  destruct (Nat.ltb (r / w) (nrows image / w) && Nat.ltb (c / w) (ncols image / w));
    [ | reflexivity ].
  unfold smooth. rewrite (slice_ravel_ext o o'); [ reflexivity | congruence | ].
  intros i j. rewrite Hgo, Hgo'. reflexivity.
Qed.

(** Whether [getFrequencies] returns, and what it raises, does not depend
    on the contents of the fresh array. *)
Lemma getFrequencies_status junk junk' rc fp
  (image orientations : ndarray) (w : nat) :
  match getFrequencies junk rc fp image orientations w,
        getFrequencies junk' rc fp image orientations w with
  | Ok _, Ok _ => True
  | Raise e, Raise e' => e = e'
  | _, _ => False
  end.
Proof.
  destruct (Nat.eq_dec w 0) as [-> | Hw0]; [ reflexivity | ].
  assert (Hw : (0 < w)%nat) by lia.
  unfold getFrequencies. cbn [shape].
  rewrite !floordiv_pos by exact Hw. cbn [bind]. unfold local_frequencies.
  pose proof (store_grid_same (local_frequency rc fp image orientations w)
                (nrows image / w) (ncols image / w)
                (Np.empty junk (nrows image / w) (ncols image / w))
                (Np.empty junk' (nrows image / w) (ncols image / w))) as H.
  destruct (for_each _ _ (Np.empty junk _ _)) as [F | e0] eqn:EF;
    destruct (for_each _ _ (Np.empty junk' _ _)) as [F' | e0'] eqn:EF';
    try contradiction; cbn [bind]; [ | exact H ].
  destruct (store_grid_ok _ _ _ _ _ EF) as [HsF _].
  destruct (store_grid_ok _ _ _ _ _ EF') as [HsF' _].
  unfold shape in HsF, HsF'. cbn [Np.empty nrows ncols] in HsF, HsF'.
  unfold pad_edge.
  replace (nrows F') with (nrows F) by congruence.
  replace (ncols F') with (ncols F) by congruence.
  destruct (Nat.eqb (nrows F) 0 || Nat.eqb (ncols F) 0); cbn [bind];
    [ reflexivity | exact I ].
Qed.

(** X26: what the fresh [np.empty] array of [getFrequencies] holds never
    reaches the result: two runs that differ only in these contents raise
    the same exception or return fields with the same pixels. *)
Theorem getFrequencies_ignores_empty junk junk' rc fp
  (image orientations : ndarray) (w : nat) :
  same_outcome (getFrequencies junk rc fp image orientations w)
               (getFrequencies junk' rc fp image orientations w).
Proof.
  pose proof (getFrequencies_status junk junk' rc fp image orientations w) as Hst.
  destruct (getFrequencies junk rc fp image orientations w) as [f | e] eqn:Hf;
    destruct (getFrequencies junk' rc fp image orientations w) as [f' | e'] eqn:Hf';
    cbn [same_outcome]; try contradiction; [ | exact Hst ].
  destruct (getFrequencies_ok _ _ _ _ _ _ _ Hf)
    as (Hw & Hx & Hy & Hs & F & HF & _ & Hget).
  destruct (getFrequencies_ok _ _ _ _ _ _ _ Hf')
    as (_ & _ & _ & Hs' & F' & HF' & _ & Hget').
  split; [ congruence | ].
  intros r c _ _. rewrite Hget, Hget'.
  destruct (Nat.ltb (r / w) (nrows image / w) && Nat.ltb (c / w) (ncols image / w));
    [ | reflexivity ].
  cbv zeta. rewrite (neighbours_ext F F'); [ reflexivity | exact Hx | exact Hy | ].
  intros i j Hi Hj.
  destruct (local_frequencies_ok _ _ _ _ _ _ _ _ _ HF) as [_ HFc].
  destruct (local_frequencies_ok _ _ _ _ _ _ _ _ _ HF') as [_ HFc'].
  pose proof (HFc i j Hi Hj) as E1. pose proof (HFc' i j Hi Hj) as E2.
  congruence.
Qed.

(** ** More on the batch of feature vectors *)

Section BatchOutcome.

Variable helper_dki : point -> point -> R.
Variable helper_dfi : R -> R -> R.

Lemma get_features_from_raises (fincoords : list minutia) :
  forall (i : nat) (vector : list ridgecount) (orientations : ndarray)
         (acc : list (list R)) (e : exn),
    get_features_from helper_dki helper_dfi i fincoords vector orientations acc
    = Raise e ->
    e = IndexError.
Proof.
  induction fincoords as [ | p rest IH]; intros i vector orientations acc e.
  - discriminate.
  - cbn [get_features_from].
    destruct (FeatureBase_init _ _ _) as [feature | e1] eqn:Ei; cbn [bind].
    2: { intros H. replace e with e1 by congruence.
         apply (FeatureBase_init_raises_IndexError _ _ _ _ Ei). }
    unfold list_getitem.
    destruct (nth_error vector i) as [rc | ]; cbn [bind]; [ | congruence ].
    destruct (make_feature_vector _ _ _ _) as [vec | e2] eqn:Ev; cbn [bind].
    2: { intros H. replace e with e2 by congruence.
         apply (make_feature_vector_raises_IndexError _ _ _ _ _ Ev). }
    apply IH.
Qed.

Lemma get_features_from_length (fincoords : list minutia) :
  forall (i : nat) (vector : list ridgecount) (orientations : ndarray)
         (acc out : list (list R)),
    get_features_from helper_dki helper_dfi i fincoords vector orientations acc
    = Ok out ->
    length out = (length acc + length fincoords)%nat /\
    (fincoords <> [] -> (i + length fincoords <= length vector)%nat).
Proof.
  induction fincoords as [ | p rest IH]; intros i vector orientations acc out.
  - cbn. intros H. injection H as <-. split; [ lia | congruence ].
  - cbn [get_features_from].
    destruct (FeatureBase_init _ _ _) as [feature | e1]; cbn [bind];
      [ | discriminate ].
    unfold list_getitem.
    destruct (nth_error vector i) as [rc | ] eqn:Erc; cbn [bind];
      [ | discriminate ].
    destruct (make_feature_vector _ _ _ _) as [vec | e2]; cbn [bind];
      [ | discriminate ].
    intros H. destruct (IH _ _ _ _ _ H) as [Hlen Hle].
    rewrite length_app in Hlen. cbn [length] in *.
    assert (Hi : (i < length vector)%nat) by (apply nth_error_Some; congruence).
    split; [ lia | ]. intros _.
    destruct rest as [ | q rest]; [ cbn; lia | ].
    specialize (Hle ltac:(discriminate)). cbn [length] in *. lia.
Qed.

End BatchOutcome.

(** * Further properties of the code *)

(** X2: on a square block of side at least 2, [rotatedRectWithMaxArea]
    returns for every angle, and the crop is a centred square whose side
    lies between half the side of the block (rounded down) and the side of
    the block: it is never empty. *)
Theorem rotatedRectWithMaxArea_square_nonempty rc (image : ndarray) (angle : R) :
  nrows image = ncols image -> (2 <= nrows image)%nat ->
  exists (crop : ndarray) (d : nat),
    rotatedRectWithMaxArea rc image angle = Ok crop /\
    (nrows image / 2 <= d <= nrows image)%nat /\
    shape crop = (d, d) /\
    centred_rectangle (ndimage_rotate rc image (degrees angle)) crop
      (Z.of_nat d) (Z.of_nat d).
Proof. apply square_window. Qed.

Lemma rotatedRectWithMaxArea_square_nonempty_witness :
  exists (crop : ndarray) (d : nat),
    rotatedRectWithMaxArea (fun _ _ _ _ => 0) (full 4 4 0) (PI / 3) = Ok crop /\
    (2 <= d <= 4)%nat /\ shape crop = (d, d).
Proof.
  destruct (rotatedRectWithMaxArea_square_nonempty (fun _ _ _ _ => 0)
              (full 4 4 0) (PI / 3) eq_refl ltac:(cbn; lia))
    as (crop & d & Hret & Hd & Hs & _).
  exists crop, d. split; [ exact Hret | ]. split; [ exact Hd | exact Hs ].
Defined.

(** X3: for a block size of at least 2, the window [getFrequencies] cuts
    from a full block is a square of side between [w // 2] and [w], so the
    sentinel -1 of the first pass never comes from an empty window: it
    comes from the peaks. *)
Theorem local_frequency_window_nonempty rc fp
  (image orientations : ndarray) (w x y : nat) (v : R) :
  (2 <= w)%nat ->
  ((x + 1) * w <= nrows image)%nat -> ((y + 1) * w <= ncols image)%nat ->
  local_frequency rc fp image orientations w x y = Ok v ->
  exists (window : ndarray) (d : nat),
    window_of rc image orientations w x y = Ok window /\
    shape window = (d, d) /\ (1 <= w / 2 <= d)%nat /\ (d <= w)%nat /\
    (v = -1 ->
     exists peaks,
       peaks_of fp window = Ok peaks /\
       ((length peaks < 2)%nat \/ spacing peaks < 5 \/ 15 < spacing peaks)).
Proof.
  intros Hw Hx Hy H.
  destruct (local_frequency_spec rc fp image orientations
              w x y v H) as (window & Hwin & Hiff & _).
  destruct (window_of_square rc image orientations w x y window Hw Hx Hy Hwin)
    as (d & Hshape & Hd).
  assert (H1 : (1 <= w / 2)%nat) by (apply Nat.div_le_lower_bound; lia).
  exists window, d. split; [ exact Hwin | ]. split; [ exact Hshape | ].
  split; [ lia | ]. split; [ lia | ].
  intros Hv. apply Hiff in Hv. destruct Hv as [Hempty | Hpeaks].
  - exfalso. unfold size in Hempty. unfold shape in Hshape.
    assert (nrows window = d) by congruence.
    assert (ncols window = d) by congruence. nia.
  - exact Hpeaks.
Qed.

Lemma local_frequency_window_nonempty_witness :
  exists (v : R) (window : ndarray) (d : nat),
    local_frequency (fun _ _ _ _ => 0) (fun _ => []) ramp (full 3 3 0) 3 0 0
      = Ok v /\
    window_of (fun _ _ _ _ => 0) ramp (full 3 3 0) 3 0 0 = Ok window /\
    shape window = (d, d) /\ (1 <= d <= 3)%nat.
Proof.
  destruct (local_frequency_returns (fun _ _ _ _ => 0) (fun _ => [])
              ramp (full 3 3 0) 3 0 0) as [v Hv];
    [ lia | cbn; lia | cbn; lia | cbn; lia | cbn; lia | ].
  destruct (local_frequency_window_nonempty (fun _ _ _ _ => 0) (fun _ => [])
              ramp (full 3 3 0) 3 0 0 v ltac:(lia) ltac:(cbn; lia)
              ltac:(cbn; lia) Hv)
    as (window & d & Hwin & Hs & Hd & Hd' & _).
  exists v, window, d. split; [ exact Hv | ]. split; [ exact Hwin | ].
  split; [ exact Hs | lia ].
Defined.

(** X7: [get_features] reads the ridge-count records only at the indices
    of the minutiae: the records beyond the [N]-th are ignored. *)
Theorem get_features_ignores_extra_records dki dfi
  (fincoords : list minutia) (vector : list ridgecount) (orientations : ndarray) :
  get_features dki dfi fincoords vector orientations =
  get_features dki dfi fincoords (firstn (length fincoords) vector) orientations.
Proof.
  destruct (Nat.le_gt_cases (length fincoords) (length vector)) as [Hle | Hgt].
  - rewrite <- (firstn_skipn (length fincoords) vector) at 1.
    unfold get_features. apply get_features_from_prefix.
    rewrite length_firstn. lia.
  - rewrite firstn_all2 by lia. reflexivity.
Qed.

(** X8: with fewer ridge-count records than minutiae, [get_features]
    raises [IndexError], whatever the points are. *)
Theorem get_features_too_few_records dki dfi
  (fincoords : list minutia) (vector : list ridgecount) (orientations : ndarray) :
  (length vector < length fincoords)%nat ->
  get_features dki dfi fincoords vector orientations = Raise IndexError.
Proof.
  intros H. unfold get_features. apply get_features_from_short; lia.
Qed.

Lemma get_features_too_few_records_witness :
  get_features Helper.dki Rminus
    [mk_minutia 0 0 1; mk_minutia 1 2 0]
    [mk_ridgecount (1, 1) 1 2 (2, 2) 0 3] (full 3 3 0) = Raise IndexError.
Proof.
  apply (get_features_too_few_records Helper.dki Rminus
           [mk_minutia 0 0 1; mk_minutia 1 2 0]
           [mk_ridgecount (1, 1) 1 2 (2, 2) 0 3] (full 3 3 0)).
  cbn. lia.
Defined.

(** X9: [get_features] on two batches put end to end is the two calls
    one after the other: it returns the vectors of the first batch followed
    by those of the second, and raises what the first of the two calls to
    fail raises. *)
Theorem get_features_concat dki dfi (f1 f2 : list minutia)
  (v1 v2 : list ridgecount) (orientations : ndarray) :
  length f1 = length v1 ->
  get_features dki dfi (f1 ++ f2) (v1 ++ v2) orientations =
  (r1 <- get_features dki dfi f1 v1 orientations ;;
   r2 <- get_features dki dfi f2 v2 orientations ;;
   Ok (r1 ++ r2)).
Proof.
  intros Hlen. unfold get_features.
  rewrite get_features_from_app.
  rewrite get_features_from_prefix by lia.
  destruct (get_features_from _ _ 0 f1 v1 orientations []) as [r1 | e]; cbn [bind];
    [ | reflexivity ].
  rewrite Hlen. cbn [Nat.add].
  rewrite <- (Nat.add_0_r (length v1)), get_features_from_shift.
  apply get_features_from_acc.
Qed.

Lemma get_features_concat_witness :
  get_features Helper.dki Rminus
    ([mk_minutia 0 0 1] ++ [mk_minutia 1 2 0])
    ([mk_ridgecount (1, 1) 1 2 (2, 2) 0 3] ++ [mk_ridgecount (0, 1) 0 1 (2, 0) 1 4])
    (full 3 3 0) =
  (r1 <- get_features Helper.dki Rminus [mk_minutia 0 0 1]
           [mk_ridgecount (1, 1) 1 2 (2, 2) 0 3] (full 3 3 0) ;;
   r2 <- get_features Helper.dki Rminus [mk_minutia 1 2 0]
           [mk_ridgecount (0, 1) 0 1 (2, 0) 1 4] (full 3 3 0) ;;
   Ok (r1 ++ r2)).
Proof.
  apply (get_features_concat Helper.dki Rminus
           [mk_minutia 0 0 1] [mk_minutia 1 2 0]
           [mk_ridgecount (1, 1) 1 2 (2, 2) 0 3]
           [mk_ridgecount (0, 1) 0 1 (2, 0) 1 4] (full 3 3 0)).
  reflexivity.
Defined.

(** X10: the only exception [get_features] raises is [IndexError]; when
    it returns, there was a record for every minutia and there is one
    vector per minutia. *)
Theorem get_features_outcome dki dfi
  (fincoords : list minutia) (vector : list ridgecount) (orientations : ndarray) :
  match get_features dki dfi fincoords vector orientations with
  | Ok features =>
      length features = length fincoords /\
      (length fincoords <= length vector)%nat
  | Raise e => e = IndexError
  end.
Proof.
  unfold get_features.
  destruct (get_features_from dki dfi 0 fincoords vector orientations [])
    as [features | e] eqn:E.
  - destruct (get_features_from_length dki dfi _ _ _ _ _ _ E) as [Hlen Hle].
    split; [ exact Hlen | ].
    destruct fincoords as [ | p rest]; [ cbn; lia | ].
    apply (Hle ltac:(discriminate)).
  - apply (get_features_from_raises dki dfi _ _ _ _ _ _ E).
Qed.

(** X11: [normalize] raises [ValueError] on an empty array and on no
    other; on any other array it returns an array of the same length with
    values in [0, 1] that holds a 0, keeps the order of the values, and is
    all zeros when the input is constant. *)
Theorem normalize_unit_range (image : list R) :
  match normalize image with
  | Ok out =>
      length out = length image /\
      (forall v, In v out -> 0 <= v <= 1) /\
      In 0 out /\
      (forall i j, nth i image 0 <= nth j image 0 ->
                   (i < length image)%nat -> (j < length image)%nat ->
                   nth i out 0 <= nth j out 0) /\
      ((forall u v, In u image -> In v image -> u = v) ->
       forall v, In v out -> v = 0)
  | Raise e => image = [] /\ e = ValueError
  end.
Proof.
  destruct (normalize image) as [out | e] eqn:E.
  - apply normalize_range_core. exact E.
  - apply normalize_raises. exact E.
Qed.







(** X18: [maskify] raises [ValueError] for a block size of 0; otherwise it
    returns a mask of the shape of the image in which every pixel is 0 or
    1, whatever the fresh array held.  The mask is constant on every block,
    and a pixel that is 1 lies in a full [w]-by-[w] block: the partial
    blocks at the border are 0. *)
Theorem maskify_mask junk (image : ndarray) (threshold : R) (w : nat) :
  (w = 0%nat -> maskify junk image threshold w = Raise ValueError) /\
  ((0 < w)%nat ->
   exists mask,
     maskify junk image threshold w = Ok mask /\
     shape mask = shape image /\
     forall r c, (r < nrows image)%nat -> (c < ncols image)%nat ->
       (get mask r c = 0 \/ get mask r c = 1) /\
       (get mask r c = 1 ->
        (r / w * w + w <= nrows image)%nat /\
        (c / w * w + w <= ncols image)%nat) /\
       (forall r' c', (r' < nrows image)%nat -> (c' < ncols image)%nat ->
          (r' / w = r / w)%nat -> (c' / w = c / w)%nat ->
          get mask r' c' = get mask r c)).
Proof.
  split; [ intros ->; apply maskify_zero | ].
  intros Hw.
  destruct (maskify_pixels junk image threshold w Hw) as (mask & E & Hs & Hpix).
  exists mask. split; [ exact E | ]. split; [ exact Hs | ].
  intros r c Hr Hc. split; [ | split ].
  - rewrite (Hpix r c Hr Hc).
    destruct (std_lt _ threshold); [ left; reflexivity | ].
    destruct (_ && _); [ right | left ]; reflexivity.
  - rewrite (Hpix r c Hr Hc).
    destruct (std_lt _ threshold); [ lra | ].
    destruct (Nat.leb_spec (r / w * w + w) (nrows image)) as [Hfr | Hfr],
      (Nat.leb_spec (c / w * w + w) (ncols image)) as [Hfc | Hfc]; cbn [andb];
      intros Hone; try lra. split; assumption.
  - intros r' c' Hr' Hc' Er Ec.
    rewrite (Hpix r c Hr Hc), (Hpix r' c' Hr' Hc').
    rewrite (block_of_same image w r c r' c' Er Ec), Er, Ec. reflexivity.
Qed.

(** X19: [binarize] raises [ValueError] for a block size of 0; otherwise it
    returns an image of the same shape in which every pixel is 0 or 1 and,
    inside every block (a partial block at the border included), the
    result keeps the order of the pixels: a pixel at least as bright as a
    pixel that became 1 became 1 as well. *)
Theorem binarize_blocks (image : ndarray) (w : nat) :
  (w = 0%nat -> binarize image w = Raise ValueError) /\
  ((0 < w)%nat ->
   exists out,
     binarize image w = Ok out /\
     shape out = shape image /\
     forall r c, (r < nrows image)%nat -> (c < ncols image)%nat ->
       (get out r c = 0 \/ get out r c = 1) /\
       (forall r' c', (r' < nrows image)%nat -> (c' < ncols image)%nat ->
          (r' / w = r / w)%nat -> (c' / w = c / w)%nat ->
          get image r c <= get image r' c' ->
          get out r c <= get out r' c')).
Proof.
  split; [ intros ->; apply binarize_zero | ].
  intros Hw. destruct (binarize_pixels image w Hw) as (out & E & Hs & Hpix).
  exists out. split; [ exact E | ]. split; [ exact Hs | ].
  intros r c Hr Hc. split.
  - rewrite (Hpix r c Hr Hc). destruct (Rle_dec _ _); [ right | left ]; reflexivity.
  - intros r' c' Hr' Hc' Er Ec Hle.
    rewrite (Hpix r c Hr Hc), (Hpix r' c' Hr' Hc').
    rewrite (block_of_same image w r c r' c' Er Ec).
    destruct (Rle_dec (mean (block_of image w r c)) (get image r c)),
      (Rle_dec (mean (block_of image w r c)) (get image r' c')); lra.
Qed.

(** X23: [localNormalize] raises [ValueError] for a block size of 0;
    otherwise it returns (the [ValueError] of [normalize] on an empty array
    cannot occur) an image of the same shape whose pixels lie in [0, 1]:
    the pixel is [(v - min) / (max - min)] for the minimum and maximum of
    its block, and 0 when the block is constant; every block holds a 0. *)
Theorem localNormalize_blocks (image : ndarray) (w : nat) :
  (w = 0%nat -> localNormalize image w = Raise ValueError) /\
  ((0 < w)%nat ->
   exists out,
     localNormalize image w = Ok out /\
     shape out = shape image /\
     (forall r c, (r < nrows image)%nat -> (c < ncols image)%nat ->
        0 <= get out r c <= 1 /\
        exists mn mx,
          Np.min (block_of image w r c) = Ok mn /\
          Np.max (block_of image w r c) = Ok mx /\
          get out r c =
          if Rlt_dec mn mx then (get image r c - mn) / (mx - mn) else 0) /\
     (forall r c, (r < nrows image)%nat -> (c < ncols image)%nat ->
        exists r' c', (r' < nrows image)%nat /\ (c' < ncols image)%nat /\
                      (r' / w = r / w)%nat /\ (c' / w = c / w)%nat /\
                      get out r' c' = 0)).
Proof.
  split; [ intros ->; apply localNormalize_zero | ].
  intros Hw. destruct (localNormalize_pixels image w Hw) as (out & E & Hs & Hpix).
  destruct (localNormalize_range image out w E) as (_ & Hrange & Hzero).
  exists out. split; [ exact E | ]. split; [ exact Hs | ].
  split; [ | exact Hzero ].
  intros r c Hr Hc. split; [ apply Hrange; assumption | apply Hpix; assumption ].
Qed.

